(** * PSK/PSA export core of io_scene_psk_psa: bone selection, bone transforms, section writer

    A shallow embedding of
      - [shared/helpers.py]: [get_export_bone_names], [convert_blender_bones_to_psx_bones],
        and further on [populate_bone_collection_list], [get_nla_strips_in_frame_range];
      - [psk/exporter.py]:   [_write_section], [export_psk], and further on
        [populate_material_list], the operators that move a material, and [invoke] and
        [execute] of the export operator;
      - [psk/export/properties.py]: [export_space_items];
    followed by the properties of the export core.

    Conventions of the embedding.
      - Python [int] is [Z]; list positions are [nat]; [len(l)] is [Z.of_nat (length l)].
      - Python [float] and the C floats of [mathutils] are idealised as real numbers [R]:
        rounding, overflow and NaN of the arithmetic are not modelled. Storing a Python
        float into a single-precision field of a record narrows it: for the wedge
        records this is the parameter [c_float]; the bone records receive [mathutils]
        values, which are single precision already.
      - Bone objects are compared as Python compares them, by the bone they stand for
        ([as_pointer]), not by name.
      - Opening the output file and writing to it can fail: what the operating system
        does is the parameter [os] of the writer.
      - A Python call returns a [result]: a value, a raised exception, or no answer
        (a loop that has used up its fuel; shown below never to happen).
      - An f-string is kept as the list of its fragments, not rendered. *)

From Stdlib Require Import String Ascii List Bool Arith ZArith Lia Reals Lra.
From Stdlib Require Import Strings.Byte.
From Stdlib Require Import Permutation Sorted.
Import ListNotations.
Open Scope string_scope.
Open Scope list_scope.

Set Implicit Arguments.

(** ** Python values, exceptions and results *)

Module Py.

(** A piece of a formatted message: literal text, or an interpolated value. *)
Inductive fragment : Type :=
| Lit (s : string)
| Int (z : Z)
| Str (s : string)
| StrList (l : list string).

Definition message := list fragment.

Inductive exn : Type :=
| RuntimeError (m : message)
| ValueError (m : message)
| IndexError (m : message)
| OSError (m : message).

Inductive result (A : Type) : Type :=
| Ok (a : A)
| Raise (e : exn)
| Diverge.

Arguments Ok {A} a.
Arguments Raise {A} e.
Arguments Diverge {A}.

Definition bind {A B : Type} (c : result A) (k : A -> result B) : result B :=
  match c with
  | Ok a => k a
  | Raise e => Raise e
  | Diverge => Diverge
  end.

(** [len(l)] *)
Definition len {A : Type} (l : list A) : Z := Z.of_nat (length l).

(** [l[i]] for a position [i] *)
Definition getitem {A : Type} (l : list A) (i : nat) : result A :=
  match nth_error l i with
  | Some a => Ok a
  | None => Raise (IndexError [Lit "list index out of range"])
  end.

(** Position of the first element that [eqb]-equals the sought one, from [i] on. *)
Fixpoint find_index {A : Type} (p : A -> bool) (l : list A) (i : nat) : option nat :=
  match l with
  | [] => None
  | a :: l' => if p a then Some i else find_index p l' (S i)
  end.

(** [l.index(v)]: [ValueError] when [v] is not in the list. *)
Definition index {A : Type} (eqb : A -> A -> bool) (l : list A) (v : A) : result nat :=
  match find_index (eqb v) l 0 with
  | Some i => Ok i
  | None => Raise (ValueError [Lit "value is not in list"])
  end.

(** A comprehension whose element expression may raise. *)
Fixpoint mapM {A B : Type} (f : A -> result B) (l : list A) : result (list B) :=
  match l with
  | [] => Ok []
  | a :: l' =>
      match f a with
      | Ok b => match mapM f l' with
                | Ok bs => Ok (b :: bs)
                | Raise e => Raise e
                | Diverge => Diverge
                end
      | Raise e => Raise e
      | Diverge => Diverge
      end
  end.

(** [enumerate(l)] *)
Definition enumerate {A : Type} (l : list A) : list (nat * A) :=
  combine (seq 0 (length l)) l.

(** A [dict] with [nat] keys: the association list of its items in insertion order.
    Assigning to a key that is present replaces the value where the key stands. *)
Section Dict.
Variable V : Type.

Definition dict := list (nat * V).

Fixpoint contains (k : nat) (d : dict) : bool :=
  match d with
  | [] => false
  | (k', _) :: d' => Nat.eqb k k' || contains k d'
  end.

Fixpoint setitem (k : nat) (v : V) (d : dict) : dict :=
  match d with
  | [] => [(k, v)]
  | (k', v') :: d' => if Nat.eqb k k' then (k', v) :: d' else (k', v') :: setitem k v d'
  end.

(** [l.sort(key=lambda x: x[0])]: a stable sort on the first component. *)
Fixpoint insert_by_key (e : nat * V) (l : list (nat * V)) : list (nat * V) :=
  match l with
  | [] => [e]
  | e' :: l' => if Nat.leb (fst e) (fst e') then e :: e' :: l' else e' :: insert_by_key e l'
  end.

Definition sort_by_key (l : list (nat * V)) : list (nat * V) :=
  fold_right insert_by_key [] l.
End Dict.

End Py.

Import Py.

Declare Scope py_scope.
Notation "x <- c ;; k" := (bind c (fun x => k))
  (at level 61, c at next level, right associativity) : py_scope.
Open Scope py_scope.

(** ** The scene data read by the export core ([bpy], [mathutils]) *)

Module Blender.

Open Scope R_scope.

(** [mathutils.Vector] of size 3, [mathutils.Quaternion] (w first), and the
    3x3 and 4x4 [mathutils.Matrix], row by row. *)
Record Vector : Type := mkVector { vx : R; vy : R; vz : R }.

Record Quaternion : Type := mkQuaternion { qw : R; qx : R; qy : R; qz : R }.

Record Matrix3 : Type := mkMatrix3 { r0 : Vector; r1 : Vector; r2 : Vector }.

Record Row4 : Type := mkRow4 { c0 : R; c1 : R; c2 : R; c3 : R }.

Record Matrix4 : Type := mkMatrix4 { row0 : Row4; row1 : Row4; row2 : Row4; row3 : Row4 }.

(** [bpy.types.BoneCollection]: known to the export core by its name only. *)
Record BoneCollection : Type := mkBoneCollection { collection_name : string }.

Definition BoneCollection_eqb (a b : BoneCollection) : bool :=
  String.eqb (collection_name a) (collection_name b).

#[local] Set Warnings "-register-all".

(** [bpy.types.Bone]. [parent] is a reference to another bone object, or [None].
    [as_pointer] is the address of the bone the Python object stands for (what
    [bone.as_pointer()] gives): it is the identity of the bone. *)
Inductive Bone : Type := mkBone {
  name : string;
  parent : option Bone;
  head : Vector;
  tail : Vector;
  matrix : Matrix3;
  collections : list BoneCollection;
  as_pointer : Z
}.

(** [a == b] on bone objects: they stand for the same bone. Two bones with the same
    name, or with all fields alike, are not equal unless they are one bone. *)
Definition Bone_eqb (a b : Bone) : bool := Z.eqb (as_pointer a) (as_pointer b).

(** [bpy.types.Armature] and the [bpy.types.Object] that carries it. *)
Record Armature : Type := mkArmature {
  bones : list Bone;
  collections_all : list BoneCollection
}.

Record Object : Type := mkObject { type : string; data : Armature }.

End Blender.

Import Blender.

(** ** shared/helpers.py *)

Module Helpers.

(** The line break of the message texts. *)
Definition nl : string := String (Ascii.ascii_of_nat 10) EmptyString.

(** [bone_index_stack]: a Python list used as a stack of
    [(bone_index, instigator_bone_index)]. The head of the Rocq list is the END of
    the Python list: [append] is a cons and [pop()] takes the head. *)
Definition stack : Type := list (nat * option nat).

(** The first loop of [get_export_bone_names] (lines 100-108): the explicitly
    included bones. *)
Fixpoint seed_loop (bone_filter_mode : string) (bone_collection_indices : list Z)
    (is_exporting_unassigned_bone_collections : bool)
    (bone_collections : list BoneCollection)
    (items : list (nat * Bone)) (bone_index_stack : stack) : result stack :=
  match items with
  | [] => Ok bone_index_stack
  | (bone_index, bone) :: items' =>
      this_bone_collection_indices <-
        mapM (index BoneCollection_eqb bone_collections) (collections bone) ;;
      let is_in_exported_bone_collections :=
        existsb (fun i => existsb (fun j => Z.eqb i (Z.of_nat j)) this_bone_collection_indices)
                bone_collection_indices in
      if String.eqb bone_filter_mode "ALL"
         || (Z.eqb (len (collections bone)) 0 && is_exporting_unassigned_bone_collections)
         || is_in_exported_bone_collections
      then seed_loop bone_filter_mode bone_collection_indices
             is_exporting_unassigned_bone_collections bone_collections items'
             ((bone_index, None) :: bone_index_stack)
      else seed_loop bone_filter_mode bone_collection_indices
             is_exporting_unassigned_bone_collections bone_collections items'
             bone_index_stack
  end.

(** The [while len(bone_index_stack) > 0] loop (lines 112-120): one unit of fuel per
    iteration. *)
Fixpoint walk (bones : list Bone) (bone_names : list string) (fuel : nat)
    (bone_index_stack : stack) (bone_indices : dict (option nat))
    : result (dict (option nat)) :=
  match bone_index_stack with
  | [] => Ok bone_indices
  | (bone_index, instigator_bone_index) :: popped =>
      match fuel with
      | O => Diverge
      | S fuel' =>
          bone <- getitem bones bone_index ;;
          pushed <-
            match parent bone with
            | Some p =>
                parent_bone_index <- index String.eqb bone_names (name p) ;;
                if negb (contains parent_bone_index bone_indices)
                then Ok ((parent_bone_index, Some bone_index) :: popped)
                else Ok popped
            | None => Ok popped
            end ;;
          walk bones bone_names fuel' pushed
               (setitem bone_index instigator_bone_index bone_indices)
      end
  end.

(** The [while True] loop of the diagnostics (lines 142-149): follows the instigator
    chain from a root bone and gives the name that is printed. *)
Fixpoint instigator_trace (bone_names : list string)
    (instigator_bone_names : list (option string)) (fuel : nat) (bone_name : string)
    : result string :=
  match fuel with
  | O => Diverge
  | S fuel' =>
      i <- index String.eqb bone_names bone_name ;;
      instigator_bone_name <- getitem instigator_bone_names i ;;
      match instigator_bone_name with
      | None => Ok bone_name
      | Some n => instigator_trace bone_names instigator_bone_names fuel' n
      end
  end.

(** The text of the multiple-roots [RuntimeError] (lines 151-153). *)
Definition multiple_roots_message (root_bone_count : Z) (root_bone_names : list string)
    : message :=
  [ Lit "Exported bone hierarchy must have a single root bone."; Lit nl;
    Lit "The bone hierarchy marked for export has "; Int root_bone_count;
    Lit " root bones: "; StrList root_bone_names; Lit "."; Lit nl;
    Lit "Additional debugging information has been written to the console." ].

(** Lines 122-155: from the visited bones to the returned names. What [print] writes
    is not part of the result, but the loop that computes it has to end. *)
Definition finish (bones : list Bone) (visited : dict (option nat)) : result (list string) :=
  let bone_indices := sort_by_key visited in
  instigator_bone_names <-
    mapM (fun x : nat * option nat =>
            match snd x with
            | Some i => b <- getitem bones i ;; Ok (Some (name b))
            | None => Ok None
            end) bone_indices ;;
  bone_names <- mapM (fun x : nat * option nat => b <- getitem bones (fst x) ;; Ok (name b))
                     bone_indices ;;
  let bone_indices := map fst bone_indices in
  exported <- mapM (getitem bones) bone_indices ;;
  let root_bones :=
    filter (fun b => match parent b with None => true | Some _ => false end) exported in
  if Z.ltb 1 (len root_bones) then
    let root_bone_names := map name root_bones in
    _ <- mapM (instigator_trace bone_names instigator_bone_names (length bones))
              root_bone_names ;;
    Raise (RuntimeError (multiple_roots_message (len root_bones) root_bone_names))
  else Ok bone_names.

(** Lines 112-155: the function from the filled [bone_index_stack] on. The loop gets
    one unit of fuel for each entry of the stack and one for each bone. *)
Definition export_from_stack (bones : list Bone) (bone_index_stack : stack)
    : result (list string) :=
  let bone_names := map name bones in
  bone_indices <-
    walk bones bone_names (length bone_index_stack + length bones) bone_index_stack [] ;;
  finish bones bone_indices.

Definition get_export_bone_names (armature_object : option Object)
    (bone_filter_mode : string) (bone_collection_indices : list Z) : result (list string) :=
  match armature_object with
  | None => Raise (ValueError [Lit "An armature object must be supplied"])
  | Some obj =>
      if negb (String.eqb (type obj) "ARMATURE")
      then Raise (ValueError [Lit "An armature object must be supplied"])
      else
        let armature_data := data obj in
        let bones := bones armature_data in
        let is_exporting_unassigned_bone_collections :=
          existsb (Z.eqb (-1)) bone_collection_indices in
        let bone_collections := collections_all armature_data in
        bone_index_stack <-
          seed_loop bone_filter_mode bone_collection_indices
            is_exporting_unassigned_bone_collections bone_collections
            (enumerate bones) [] ;;
        export_from_stack bones bone_index_stack
  end.

(** *** [mathutils] arithmetic used by the transformer *)

Open Scope R_scope.

Definition Vector_sub (a b : Vector) : Vector :=
  mkVector (vx a - vx b) (vy a - vy b) (vz a - vz b).

Definition Vector_add (a b : Vector) : Vector :=
  mkVector (vx a + vx b) (vy a + vy b) (vz a + vz b).

(** [Matrix.Identity(4)] and [Matrix.Scale(scale, 4)] *)
Definition Matrix_Identity4 : Matrix4 :=
  mkMatrix4 (mkRow4 1 0 0 0) (mkRow4 0 1 0 0) (mkRow4 0 0 1 0) (mkRow4 0 0 0 1).

Definition Matrix_Scale4 (scale : R) : Matrix4 :=
  mkMatrix4 (mkRow4 scale 0 0 0) (mkRow4 0 scale 0 0) (mkRow4 0 0 scale 0) (mkRow4 0 0 0 1).

(** [m.to_3x3()] *)
Definition to_3x3 (m : Matrix4) : Matrix3 :=
  mkMatrix3 (mkVector (c0 (row0 m)) (c1 (row0 m)) (c2 (row0 m)))
            (mkVector (c0 (row1 m)) (c1 (row1 m)) (c2 (row1 m)))
            (mkVector (c0 (row2 m)) (c1 (row2 m)) (c2 (row2 m))).

(** [m @ v] for a 4x4 matrix and a 3D vector: the vector is extended by 1 and the
    first three rows are kept. *)
Definition row_dot (r : Row4) (v : Vector) : R :=
  c0 r * vx v + c1 r * vy v + c2 r * vz v + c3 r * 1.

Definition Matrix4_mul_Vector (m : Matrix4) (v : Vector) : Vector :=
  mkVector (row_dot (row0 m) v) (row_dot (row1 m) v) (row_dot (row2 m) v).

(** [q.conjugated()], [a @ b] (Hamilton product), [q @ v] (rotation of a vector),
    [q.inverted()] *)
Definition conjugated (q : Quaternion) : Quaternion :=
  mkQuaternion (qw q) (- qx q) (- qy q) (- qz q).

Definition Quaternion_mul (a b : Quaternion) : Quaternion :=
  mkQuaternion
    (qw a * qw b - qx a * qx b - qy a * qy b - qz a * qz b)
    (qw a * qx b + qx a * qw b + qy a * qz b - qz a * qy b)
    (qw a * qy b - qx a * qz b + qy a * qw b + qz a * qx b)
    (qw a * qz b + qx a * qy b - qy a * qx b + qz a * qw b).

Definition Quaternion_mul_Vector (q : Quaternion) (v : Vector) : Vector :=
  let r := Quaternion_mul (Quaternion_mul q (mkQuaternion 0 (vx v) (vy v) (vz v)))
                          (conjugated q) in
  mkVector (qx r) (qy r) (qz r).

Definition inverted (q : Quaternion) : Quaternion :=
  let f := qw q * qw q + qx q * qx q + qy q * qy q + qz q * qz q in
  if Req_dec_T f 0 then q
  else mkQuaternion (qw q / f) (- qx q / f) (- qy q / f) (- qz q / f).

Close Scope R_scope.

(** *** The exported bone record *)

(** A value stored in a [c_int32] field. *)
Definition c_int32 (z : Z) : Z := ((z + 2 ^ 31) mod 2 ^ 32 - 2 ^ 31)%Z.

(** Modelled from the spec: the bone record class passed as [bone_class], which is
    declared in shared/data.py (not part of the sources at hand). Its fields are
    [name : char[64]], [flags], [children_count], [parent_index : int32],
    [location : Vector3] and [rotation : Quaternion]; a new record is all zero. *)
Record PsxBone : Type := mkPsxBone {
  psx_name : list byte;
  flags : Z;
  children_count : Z;
  parent_index : Z;
  location : Vector;
  rotation : Quaternion
}.

(** [bone_class()]: a new record. *)
Definition bone_class : PsxBone :=
  mkPsxBone [] 0 0 0 (mkVector 0 0 0) (mkQuaternion 0 0 0 0).

Definition set_name (v : list byte) (b : PsxBone) : PsxBone :=
  mkPsxBone v (flags b) (children_count b) (parent_index b) (location b) (rotation b).
Definition set_flags (v : Z) (b : PsxBone) : PsxBone :=
  mkPsxBone (psx_name b) (c_int32 v) (children_count b) (parent_index b) (location b) (rotation b).
Definition set_children_count (v : Z) (b : PsxBone) : PsxBone :=
  mkPsxBone (psx_name b) (flags b) (c_int32 v) (parent_index b) (location b) (rotation b).
Definition set_parent_index (v : Z) (b : PsxBone) : PsxBone :=
  mkPsxBone (psx_name b) (flags b) (children_count b) (c_int32 v) (location b) (rotation b).
Definition set_location (v : Vector) (b : PsxBone) : PsxBone :=
  mkPsxBone (psx_name b) (flags b) (children_count b) (parent_index b) v (rotation b).
Definition set_rotation (v : Quaternion) (b : PsxBone) : PsxBone :=
  mkPsxBone (psx_name b) (flags b) (children_count b) (parent_index b) (location b) v.

(** [psx_bones[i].children_count += 1]; [IndexError] past the end of the list. *)
Fixpoint increment_children_count (psx_bones : list PsxBone) (i : nat)
    : result (list PsxBone) :=
  match psx_bones, i with
  | [], _ => Raise (IndexError [Lit "list index out of range"])
  | b :: l, O => Ok (set_children_count (children_count b + 1) b :: l)
  | b :: l, S i' =>
      l' <- increment_children_count l i' ;;
      Ok (b :: l')
  end.

(** The double quote of the message texts. *)
Definition dq : string := String (Ascii.ascii_of_nat 34) EmptyString.

(** *** [convert_blender_bones_to_psx_bones] *)

Section Transformer.

(** [bytes(s, encoding='windows-1252')]; [None] stands for [UnicodeEncodeError]. *)
Variable encode_windows_1252 : string -> option (list byte).

(** [get_coordinate_system_transform] of shared/data.py (not part of the sources at
    hand), and the [mathutils] conversions whose arithmetic is not needed here. *)
Variable get_coordinate_system_transform : string -> string -> Matrix4.
Variable Matrix3_to_quaternion : Matrix3 -> Quaternion.
Variable Matrix4_to_quaternion : Matrix4 -> Quaternion.
Variable decompose : Matrix4 -> Vector * Quaternion * Vector.

Variable bones : list Bone.
Variable export_space : string.
Variable armature_object_matrix_world : Matrix4.
Variable scale : R.
Variable forward_axis up_axis : string.

Definition scale_matrix : Matrix4 := Matrix_Scale4 scale.
Definition coordinate_system_transform : Matrix4 :=
  get_coordinate_system_transform forward_axis up_axis.
Definition coordinate_system_default_rotation : Quaternion :=
  Matrix4_to_quaternion coordinate_system_transform.

Definition get_armature_local_matrix : result Matrix4 :=
  if String.eqb export_space "WORLD" then Ok armature_object_matrix_world
  else if String.eqb export_space "ARMATURE" then Ok Matrix_Identity4
  else Raise (ValueError [Lit "Invalid export space: "; Str export_space]).

(** Lines 202-225: location and rotation before scaling. *)
Definition local_transform (bone : Bone) : result (Vector * Quaternion) :=
  match parent bone with
  | Some bone_parent =>
      let rotation := conjugated (Matrix3_to_quaternion (matrix bone)) in
      let inverse_parent_rotation := inverted (Matrix3_to_quaternion (matrix bone_parent)) in
      let parent_head := Quaternion_mul_Vector inverse_parent_rotation (head bone_parent) in
      let parent_tail := Quaternion_mul_Vector inverse_parent_rotation (tail bone_parent) in
      let location := Vector_add (Vector_sub parent_tail parent_head) (head bone) in
      Ok (location, rotation)
  | None =>
      armature_local_matrix <- get_armature_local_matrix ;;
      let location := Matrix4_mul_Vector armature_local_matrix (head bone) in
      let location := Matrix4_mul_Vector coordinate_system_transform location in
      let bone_rotation := conjugated (Matrix3_to_quaternion (matrix bone)) in
      let local_rotation :=
        conjugated (Matrix3_to_quaternion (to_3x3 armature_local_matrix)) in
      let rotation := Quaternion_mul bone_rotation local_rotation in
      let rotation := conjugated rotation in
      let rotation := Quaternion_mul coordinate_system_default_rotation rotation in
      Ok (location, rotation)
  end.

(** Lines 227-233: the uniform scale, then the scale of the armature object. *)
Definition scaled_location (location : Vector) : Vector :=
  let location := Matrix4_mul_Vector scale_matrix location in
  let armature_object_scale := snd (decompose armature_object_matrix_world) in
  mkVector (vx location * vx armature_object_scale)%R
           (vy location * vy armature_object_scale)%R
           (vz location * vz armature_object_scale)%R.

(** One turn of [for bone in bones] (lines 182-244). *)
Definition convert_bone (bone : Bone) (psx_bones : list PsxBone) : result (list PsxBone) :=
  let psx_bone := bone_class in
  name_bytes <-
    match encode_windows_1252 (name bone) with
    | Some b => Ok b
    | None =>
        Raise (RuntimeError
                 [Lit "Bone name "; Lit dq; Str (name bone); Lit dq;
                  Lit " contains characters that cannot be encoded in the Windows-1252 codepage"])
    end ;;
  psx_bone <-
    (if Nat.ltb 64 (length name_bytes)
     then Raise (ValueError [Lit "bytes too long ("; Int (len name_bytes);
                             Lit ", maximum length 64)"])
     else Ok (set_name name_bytes psx_bone)) ;;
  let psx_bone := set_flags 0 psx_bone in
  let psx_bone := set_children_count 0 psx_bone in
  linked <-
    match match parent bone with
          | Some p => find_index (Bone_eqb p) bones 0
          | None => None
          end with
    | Some parent_index =>
        let psx_bone := set_parent_index (Z.of_nat parent_index) psx_bone in
        psx_bones' <- increment_children_count psx_bones parent_index ;;
        Ok (psx_bone, psx_bones')
    | None => Ok (set_parent_index 0 psx_bone, psx_bones)
    end ;;
  let psx_bone := fst linked in
  let psx_bones := snd linked in
  transform <- local_transform bone ;;
  let location := scaled_location (fst transform) in
  let rotation := snd transform in
  let psx_bone := set_location location psx_bone in
  let psx_bone := set_rotation rotation psx_bone in
  Ok (psx_bones ++ [psx_bone]).

Fixpoint convert_loop (todo : list Bone) (psx_bones : list PsxBone)
    : result (list PsxBone) :=
  match todo with
  | [] => Ok psx_bones
  | bone :: todo' =>
      psx_bones' <- convert_bone bone psx_bones ;;
      convert_loop todo' psx_bones'
  end.

Definition convert_blender_bones_to_psx_bones : result (list PsxBone) :=
  convert_loop bones [].

End Transformer.

(** *** Sample armatures *)

Definition zero_vector : Vector := mkVector 0 0 0.
Definition identity3 : Matrix3 :=
  mkMatrix3 (mkVector 1 0 0) (mkVector 0 1 0) (mkVector 0 0 1).

Definition sample_bone (address : Z) (n : string) (p : option Bone)
    (cs : list BoneCollection) : Bone :=
  mkBone n p zero_vector zero_vector identity3 cs address.

Definition coll_arm : BoneCollection := mkBoneCollection "Arm".
Definition coll_leg : BoneCollection := mkBoneCollection "Leg".

(** [root -> mid -> tip] *)
Definition bone_root : Bone := sample_bone 1 "root" None [].
Definition bone_mid : Bone := sample_bone 2 "mid" (Some bone_root) [coll_arm].
Definition bone_tip : Bone := sample_bone 3 "tip" (Some bone_mid) [coll_leg].
Definition chain_object : Object :=
  mkObject "ARMATURE" (mkArmature [bone_root; bone_mid; bone_tip] [coll_arm; coll_leg]).

(** Two unrelated roots [A] and [B]. *)
Definition bone_A : Bone := sample_bone 4 "A" None [coll_arm].
Definition bone_B : Bone := sample_bone 5 "B" None [coll_leg].
Definition forest_object : Object :=
  mkObject "ARMATURE" (mkArmature [bone_A; bone_B] [coll_arm; coll_leg]).

End Helpers.

(** ** psk/exporter.py *)

Module Exporter.

Import Helpers.

Definition MAX_WEDGE_COUNT : Z := 65536.
Definition MAX_POINT_COUNT : Z := 4294967296.
Definition MAX_BONE_COUNT : Z := 256.
Definition MAX_MATERIAL_COUNT : Z := 256.

(** A [ctypes.Structure] class: the size of a record and its packed bytes. *)
Class Structure (T : Type) : Type := {
  sizeof : nat;
  to_bytes : T -> list byte;
  to_bytes_length : forall x : T, length (to_bytes x) = sizeof
}.

Definition byte_of_Z (z : Z) : byte :=
  match Byte.of_N (Z.to_N (z mod 256)) with
  | Some b => b
  | None => x00
  end.

(** A 4-byte little-endian integer field. *)
Definition int32_le (z : Z) : list byte :=
  [byte_of_Z z; byte_of_Z (z / 256); byte_of_Z (z / 65536); byte_of_Z (z / 16777216)].

(** Modelled from the spec: the [Section] record of psk/data.py (not part of the
    sources at hand; [Section] itself is not a name Rocq accepts). A section header is
    [name : char[20]], NUL-padded, then [data_size : int32] and [data_count : int32];
    a new header is all zero. *)
Record SectionHeader : Type := mkSectionHeader {
  section_name : list byte;
  data_size : Z;
  data_count : Z
}.

Definition Section_new : SectionHeader := mkSectionHeader [] 0 0.

Definition SectionHeader_bytes (s : SectionHeader) : list byte :=
  firstn 20 (section_name s ++ repeat x00 20) ++ int32_le (data_size s) ++ int32_le (data_count s).

Lemma SectionHeader_bytes_length (s : SectionHeader) :
  length (SectionHeader_bytes s) = 28%nat.
Proof.
  unfold SectionHeader_bytes, int32_le.
  rewrite !length_app, length_firstn, length_app, repeat_length.
  change (length [byte_of_Z (data_size s); byte_of_Z (data_size s / 256);
                  byte_of_Z (data_size s / 65536); byte_of_Z (data_size s / 16777216)]) with 4%nat.
  change (length [byte_of_Z (data_count s); byte_of_Z (data_count s / 256);
                  byte_of_Z (data_count s / 65536); byte_of_Z (data_count s / 16777216)]) with 4%nat.
  lia.
Qed.

#[export] Instance SectionHeader_Structure : Structure SectionHeader :=
  {| sizeof := 28; to_bytes := SectionHeader_bytes; to_bytes_length := SectionHeader_bytes_length |}.

(** Modelled from the spec: the fields of a wedge record of psk/data.py (not part
    of the sources at hand): point index, UV and material index. [Psk.Wedge16] keeps the
    point index in a [uint16] field and the material index in a [uint8] field; the
    wedges of a [Psk] come with a wider point index. *)
Record Wedge : Type := mkWedge {
  point_index : Z;
  u : R;
  v : R;
  material_index : Z
}.

Definition Wedge16_new : Wedge := mkWedge 0 0 0 0.

Definition Wedge16_set_material_index (x : Z) (w : Wedge) : Wedge :=
  mkWedge (point_index w) (u w) (v w) (x mod 2 ^ 8).
(** [u] and [v] of [Psk.Wedge16] are [c_float] fields: a Python float assigned to
    one is narrowed to single precision. [c_float x] is the value the field holds
    after [x] is assigned to it. *)
Definition Wedge16_set_u (c_float : R -> R) (x : R) (w : Wedge) : Wedge :=
  mkWedge (point_index w) (c_float x) (v w) (material_index w).
Definition Wedge16_set_v (c_float : R -> R) (x : R) (w : Wedge) : Wedge :=
  mkWedge (point_index w) (u w) (c_float x) (material_index w).
Definition Wedge16_set_point_index (x : Z) (w : Wedge) : Wedge :=
  mkWedge (x mod 2 ^ 16) (u w) (v w) (material_index w).

(** The file object [fp]: the bytes written so far, threaded through the writes. *)
Definition io (A : Type) : Type := list byte -> list byte * result A.

Definition io_ret {A : Type} (a : A) : io A := fun fp => (fp, Ok a).

Definition io_raise {A : Type} (e : exn) : io A := fun fp => (fp, Raise e).

Definition io_bind {A B : Type} (c : io A) (k : A -> io B) : io B :=
  fun fp =>
    match c fp with
    | (fp', Ok a) => k a fp'
    | (fp', Raise e) => (fp', Raise e)
    | (fp', Diverge) => (fp', Diverge)
    end.

(** [fp.write(b)] *)
Definition write (b : list byte) : io unit := fun fp => (fp ++ b, Ok tt).

Notation "c1 >> c2" := (io_bind c1 (fun _ => c2)) (at level 62, right associativity).

(** [for datum in data: fp.write(datum)] *)
Fixpoint write_each {T : Type} `{Structure T} (data : list T) : io unit :=
  match data with
  | [] => io_ret tt
  | datum :: data' => write (to_bytes datum) >> write_each data'
  end.

(** [data_type] is given by its [sizeof], the one thing read from it. *)
Definition _write_section {T : Type} `{Structure T}
    (name : list byte) (data_type : option nat) (data : option (list T)) : io unit :=
  let section := Section_new in
  io_bind
    (if Nat.ltb 20 (length name)
     then io_raise (ValueError [Lit "bytes too long ("; Int (len name);
                                Lit ", maximum length 20)"])
     else io_ret (mkSectionHeader name (data_size section) (data_count section)))
    (fun section =>
       let section :=
         match data_type, data with
         | Some size, Some d =>
             mkSectionHeader (section_name section) (c_int32 (Z.of_nat size)) (c_int32 (len d))
         | _, _ => section
         end in
       write (to_bytes section) >>
       match data with
       | Some d => write_each d
       | None => io_ret tt
       end).

(** The file system: the contents of the file at each path, if there is one. *)
Definition FileSystem : Type := string -> option (list byte).

Definition store (fs : FileSystem) (path : string) (content : list byte) : FileSystem :=
  fun p => if String.eqb p path then Some content else fs p.

(** What becomes of [open(path, 'wb')] and of the writes to the file: all of them
    succeed; or [open] raises an [OSError] (a missing directory, no permission); or
    a write or the closing of the file does, when only the first [landed] bytes
    handed over have reached the file. *)
Inductive io_outcome : Type :=
| Completes
| OpenRaises (e : message)
| WriteRaises (landed : nat) (e : message).

Section Writer.

(** The record classes of psk/data.py whose layout the writer only packs. *)
Context {Face Material Weight : Type}.
Context {Vector3_Structure : Structure Vector}.
Context {Wedge16_Structure : Structure Wedge}.
Context {Face_Structure : Structure Face}.
Context {Material_Structure : Structure Material}.
Context {Bone_Structure : Structure PsxBone}.
Context {Weight_Structure : Structure Weight}.

(** The narrowing of a Python float by a [c_float] field. *)
Variable c_float : R -> R.

(** The operating system: what it makes of writing the given bytes to the file at
    the given path of the given file system. *)
Variable os : FileSystem -> string -> list byte -> io_outcome.

Record Psk : Type := mkPsk {
  points : list Vector;
  wedges : list Wedge;
  faces : list Face;
  materials : list Material;
  bones : list PsxBone;
  weights : list Weight
}.

(** Lines 46-53: the wedges as [Psk.Wedge16] records. *)
Definition reencode_wedge (w : Wedge) : Wedge :=
  let wedge := Wedge16_new in
  let wedge := Wedge16_set_material_index (material_index w) wedge in
  let wedge := Wedge16_set_u c_float (u w) wedge in
  let wedge := Wedge16_set_v c_float (v w) wedge in
  let wedge := Wedge16_set_point_index (point_index w) wedge in
  wedge.

Definition reencode_wedges (ws : list Wedge) : list Wedge := map reencode_wedge ws.

(** Lines 43-59: the body of [with open(path, 'wb') as fp]. *)
Definition write_psk (psk : Psk) : io unit :=
  _write_section (T := SectionHeader) (list_byte_of_string "ACTRHEAD") None None >>
  _write_section (list_byte_of_string "PNTS0000") (Some (@sizeof _ Vector3_Structure))
                 (Some (points psk)) >>
  let wedges := reencode_wedges (wedges psk) in
  _write_section (list_byte_of_string "VTXW0000") (Some (@sizeof _ Wedge16_Structure))
                 (Some wedges) >>
  _write_section (list_byte_of_string "FACE0000") (Some (@sizeof _ Face_Structure))
                 (Some (faces psk)) >>
  _write_section (list_byte_of_string "MATT0000") (Some (@sizeof _ Material_Structure))
                 (Some (materials psk)) >>
  _write_section (list_byte_of_string "REFSKELT") (Some (@sizeof _ Bone_Structure))
                 (Some (bones psk)) >>
  _write_section (list_byte_of_string "RAWWEIGHTS") (Some (@sizeof _ Weight_Structure))
                 (Some (weights psk)).

(** [export_psk] (lines 30-59). When [open(path, 'wb')] succeeds it leaves an empty
    file at [path]; the bytes written are in the file when the [with] block is left,
    or the first of them when a write raises. When [open] raises, no file is
    touched. *)
Definition export_psk (psk : Psk) (path : string) (fs : FileSystem)
    : FileSystem * result unit :=
  if Z.ltb MAX_WEDGE_COUNT (len (wedges psk)) then
    (fs, Raise (RuntimeError [Lit "Number of wedges ("; Int (len (wedges psk));
                              Lit ") exceeds limit of "; Int MAX_WEDGE_COUNT]))
  else if Z.ltb MAX_POINT_COUNT (len (points psk)) then
    (fs, Raise (RuntimeError [Lit "Numbers of vertices ("; Int (len (points psk));
                              Lit ") exceeds limit of "; Int MAX_POINT_COUNT]))
  else if Z.ltb MAX_MATERIAL_COUNT (len (materials psk)) then
    (fs, Raise (RuntimeError [Lit "Number of materials ("; Int (len (materials psk));
                              Lit ") exceeds limit of "; Int MAX_MATERIAL_COUNT]))
  else if Z.ltb MAX_BONE_COUNT (len (bones psk)) then
    (fs, Raise (RuntimeError [Lit "Number of bones ("; Int (len (bones psk));
                              Lit ") exceeds limit of "; Int MAX_BONE_COUNT]))
  else if Z.eqb (len (bones psk)) 0 then
    (fs, Raise (RuntimeError [Lit "At least one bone must be marked for export"]))
  else
    let written := write_psk psk [] in
    match os fs path (fst written) with
    | OpenRaises e => (fs, Raise (OSError e))
    | WriteRaises landed e =>
        (store fs path (firstn landed (fst written)), Raise (OSError e))
    | Completes => (store fs path (fst written), snd written)
    end.

End Writer.

End Exporter.

(** * Properties *)

Unset Implicit Arguments.

Import Helpers.

(** ** Facts about the Python model *)

Section PyFacts.

Context {A : Type}.

Lemma find_index_ge (p : A -> bool) (l : list A) (i j : nat) :
  find_index p l i = Some j -> (i <= j < i + length l)%nat.
Proof.
  revert i; induction l as [|a l IH]; intros i H; simpl in *; [discriminate|].
  destruct (p a).
  - inversion H; subst; lia.
  - apply IH in H. lia.
Qed.

Lemma find_index_shift (p : A -> bool) (l : list A) (i : nat) :
  find_index p l i = option_map (Nat.add i) (find_index p l 0).
Proof.
  revert i; induction l as [|a l IH]; intros i; simpl; [reflexivity|].
  destruct (p a); simpl.
  - f_equal; lia.
  - rewrite (IH (S i)), (IH 1%nat).
    destruct (find_index p l 0); simpl; [f_equal; lia | reflexivity].
Qed.

(** The position found holds an element that satisfies the test, and no earlier
    position does. *)
Lemma find_index_Some (p : A -> bool) (l : list A) (j : nat) :
  find_index p l 0 = Some j ->
  exists a, nth_error l j = Some a /\ p a = true /\
            forall k b, (k < j)%nat -> nth_error l k = Some b -> p b = false.
Proof.
  revert j; induction l as [|a l IH]; intros j H; simpl in *; [discriminate|].
  destruct (p a) eqn:Hp.
  - inversion H; subst. exists a; repeat split; auto. intros k b Hk; lia.
  - rewrite find_index_shift in H.
    destruct (find_index p l 0) as [j'|] eqn:E; simpl in H; [|discriminate].
    inversion H; subst; clear H.
    destruct (IH j' eq_refl) as (b & Hn & Hb & Hmin).
    exists b; repeat split; auto.
    intros [|k] c Hk Hc; simpl in Hc.
    + inversion Hc; subst; assumption.
    + apply (Hmin k); [lia | assumption].
Qed.

Lemma find_index_None (p : A -> bool) (l : list A) (i : nat) :
  find_index p l i = None -> forall a, In a l -> p a = false.
Proof.
  revert i; induction l as [|a l IH]; intros i H b Hb; simpl in *; [contradiction|].
  destruct (p a) eqn:Hp; [discriminate|].
  destruct Hb as [<-|Hb]; eauto.
Qed.

Lemma find_index_exists (p : A -> bool) (l : list A) (a : A) :
  In a l -> p a = true -> exists j, find_index p l 0 = Some j.
Proof.
  intros Hin Hp. destruct (find_index p l 0) as [j|] eqn:E; [eauto|].
  rewrite (find_index_None _ _ _ E a Hin) in Hp; discriminate.
Qed.

(** The first position that satisfies the test is found. *)
Lemma find_index_first (p : A -> bool) (l : list A) (j : nat) (a : A) :
  nth_error l j = Some a -> p a = true ->
  (forall k b, (k < j)%nat -> nth_error l k = Some b -> p b = false) ->
  find_index p l 0 = Some j.
Proof.
  intros Hn Hp Hmin.
  destruct (find_index_exists p l a (nth_error_In _ _ Hn) Hp) as (j' & E).
  destruct (find_index_Some _ _ _ E) as (b & Hn' & Hb & Hmin').
  destruct (Nat.lt_trichotomy j j') as [Hlt|[->|Hlt]]; [|assumption|].
  - rewrite (Hmin' j a Hlt Hn) in Hp; discriminate.
  - rewrite (Hmin j' b Hlt Hn') in Hb; discriminate.
Qed.

Lemma getitem_Ok (l : list A) (i : nat) (a : A) :
  nth_error l i = Some a -> getitem l i = Ok a.
Proof. unfold getitem; intros ->; reflexivity. Qed.

Lemma In_enumerate (l : list A) (i : nat) (a : A) :
  In (i, a) (enumerate l) <-> nth_error l i = Some a.
Proof.
  unfold enumerate.
  assert (G : forall s, In (i, a) (combine (seq s (length l)) l) <->
                        (s <= i)%nat /\ nth_error l (i - s) = Some a).
  { induction l as [|b l IH]; intros s; simpl.
    - split; [contradiction|]. intros [_ H]. destruct (i - s)%nat; discriminate.
    - rewrite IH. split.
      + intros [H|[H1 H2]].
        * inversion H; subst. rewrite Nat.sub_diag. split; [lia|reflexivity].
        * split; [lia|]. replace (i - s)%nat with (S (i - S s)) by lia. exact H2.
      + intros [H1 H2]. destruct (Nat.eq_dec s i) as [->|Hne].
        * rewrite Nat.sub_diag in H2. simpl in H2. inversion H2; subst. now left.
        * right. split; [lia|].
          replace (i - s)%nat with (S (i - S s)) in H2 by lia. exact H2. }
  rewrite G, Nat.sub_0_r. split; [intros [_ H]; exact H | intros H; split; [lia | exact H]].
Qed.

End PyFacts.

Section MapM.

Context {A B : Type}.

Lemma mapM_map (f : A -> result B) (g : A -> B) (l : list A) :
  (forall a, In a l -> f a = Ok (g a)) -> mapM f l = Ok (map g l).
Proof.
  induction l as [|a l IH]; intros H; simpl; [reflexivity|].
  rewrite (H a (or_introl eq_refl)), IH; [reflexivity|].
  intros b Hb; apply H; now right.
Qed.

Lemma mapM_ext (f g : A -> result B) (l : list A) :
  (forall a, In a l -> f a = g a) -> mapM f l = mapM g l.
Proof.
  induction l as [|a l IH]; intros H; simpl; [reflexivity|].
  rewrite (H a (or_introl eq_refl)), IH; [reflexivity|].
  intros b Hb; apply H; now right.
Qed.

End MapM.

(** Names: the position of a name in a list without repetition. *)
Lemma find_index_name (names : list string) (j : nat) (n : string) :
  NoDup names -> nth_error names j = Some n ->
  find_index (String.eqb n) names 0 = Some j.
Proof.
  intros Hnd Hn. apply find_index_first with (a := n); auto using String.eqb_refl.
  intros k b Hk Hb. destruct (String.eqb n b) eqn:E; [|reflexivity].
  apply String.eqb_eq in E; subst b.
  assert (k = j); [|lia].
  apply (proj1 (NoDup_nth_error names) Hnd); [|congruence].
  apply nth_error_Some; congruence.
Qed.

Lemma find_index_name_inv (names : list string) (j : nat) (n : string) :
  find_index (String.eqb n) names 0 = Some j -> nth_error names j = Some n.
Proof.
  intros H. destruct (find_index_Some _ _ _ H) as (a & Hn & Ha & _).
  apply String.eqb_eq in Ha; subst; assumption.
Qed.

(** ** The dictionary of visited bones *)

Section DictFacts.

Context {V : Type}.
Implicit Types (d : dict V) (k : nat) (v : V).

Lemma contains_In d k : contains k d = true <-> In k (map fst d).
Proof.
  induction d as [|[k' v'] d IH]; simpl; [split; [discriminate|contradiction]|].
  rewrite orb_true_iff, Nat.eqb_eq, IH. split; intros [H|H]; auto.
Qed.

Lemma contains_setitem d k k' v :
  contains k (setitem k' v d) = Nat.eqb k k' || contains k d.
Proof.
  induction d as [|[k0 v0] d IH]; simpl.
  - now rewrite orb_false_r.
  - destruct (Nat.eqb k' k0) eqn:E; simpl.
    + apply Nat.eqb_eq in E; subst.
      destruct (Nat.eqb k k0); reflexivity.
    + rewrite IH. destruct (Nat.eqb k k0), (Nat.eqb k k'); reflexivity.
Qed.

Lemma In_setitem d k k' v v' :
  In (k, v) (setitem k' v' d) -> (k = k' /\ v = v') \/ In (k, v) d.
Proof.
  induction d as [|[k0 v0] d IH]; simpl.
  - intros [H|[]]; inversion H; auto.
  - destruct (Nat.eqb k' k0) eqn:E; simpl.
    + apply Nat.eqb_eq in E; subst. intros [H|H]; [inversion H; auto | auto].
    + intros [H|H]; [auto|]. destruct (IH H); auto.
Qed.

Lemma NoDup_setitem d k v : NoDup (map fst d) -> NoDup (map fst (setitem k v d)).
Proof.
  induction d as [|[k0 v0] d IH]; simpl; intros H.
  - constructor; [intros []|constructor].
  - inversion H as [|? ? Hnin Hnd]; subst.
    destruct (Nat.eqb k k0) eqn:E; simpl; [constructor; assumption|].
    constructor; [|auto].
    intros Hin. apply contains_In in Hin. rewrite contains_setitem in Hin.
    apply orb_true_iff in Hin. destruct Hin as [Hin|Hin].
    + apply Nat.eqb_eq in Hin; subst. rewrite Nat.eqb_refl in E; discriminate.
    + apply contains_In in Hin; contradiction.
Qed.

(** Sorting by key. *)
Lemma insert_by_key_perm (e : nat * V) (l : list (nat * V)) :
  Permutation (insert_by_key e l) (e :: l).
Proof.
  induction l as [|e' l IH]; simpl; [reflexivity|].
  destruct (Nat.leb (fst e) (fst e')); [reflexivity|].
  rewrite IH. apply perm_swap.
Qed.

Lemma sort_by_key_perm (l : list (nat * V)) : Permutation (sort_by_key l) l.
Proof.
  induction l as [|e l IH]; simpl; [reflexivity|].
  rewrite insert_by_key_perm. now constructor.
Qed.

Definition key_le (a b : nat * V) : Prop := (fst a <= fst b)%nat.

Lemma insert_by_key_sorted (e : nat * V) (l : list (nat * V)) :
  StronglySorted key_le l -> StronglySorted key_le (insert_by_key e l).
Proof.
  induction l as [|e' l IH]; simpl; intros H.
  - repeat constructor.
  - inversion H as [|? ? Hs Hall]; subst.
    destruct (Nat.leb (fst e) (fst e')) eqn:E.
    + apply Nat.leb_le in E. constructor; [assumption|].
      constructor; [exact E|].
      eapply Forall_impl; [|exact Hall]. unfold key_le; intros; lia.
    + apply Nat.leb_gt in E. constructor; [auto|].
      eapply Permutation_Forall; [symmetry; apply insert_by_key_perm|].
      constructor; [unfold key_le; lia | assumption].
Qed.

Lemma sort_by_key_sorted (l : list (nat * V)) : StronglySorted key_le (sort_by_key l).
Proof.
  induction l as [|e l IH]; simpl; [constructor | now apply insert_by_key_sorted].
Qed.

End DictFacts.

(** A strictly increasing list is determined by its elements. *)
Lemma sorted_lt_unique (l1 l2 : list nat) :
  StronglySorted lt l1 -> StronglySorted lt l2 ->
  (forall x, In x l1 <-> In x l2) -> l1 = l2.
Proof.
  revert l2; induction l1 as [|a l1 IH]; intros [|b l2] H1 H2 Hiff.
  - reflexivity.
  - destruct (proj2 (Hiff b) (or_introl eq_refl)).
  - destruct (proj1 (Hiff a) (or_introl eq_refl)).
  - inversion H1 as [|? ? Hs1 Ha]; inversion H2 as [|? ? Hs2 Hb]; subst.
    rewrite Forall_forall in Ha, Hb.
    assert (a = b).
    { destruct (proj1 (Hiff a) (or_introl eq_refl)) as [E|Hin]; [auto|].
      destruct (proj2 (Hiff b) (or_introl eq_refl)) as [E|Hin']; [auto|].
      specialize (Ha _ Hin'); specialize (Hb _ Hin); lia. }
    subst b. f_equal. apply IH; auto.
    intros x; split; intros Hx.
    + destruct (proj1 (Hiff x) (or_intror Hx)) as [E|Hin]; [|assumption].
      subst x. specialize (Ha _ Hx); lia.
    + destruct (proj2 (Hiff x) (or_intror Hx)) as [E|Hin]; [|assumption].
      subst x. specialize (Hb _ Hx); lia.
Qed.

Lemma filter_sorted_lt (f : nat -> bool) (l : list nat) :
  StronglySorted lt l -> StronglySorted lt (filter f l).
Proof.
  induction l as [|a l IH]; simpl; intros H; [constructor|].
  inversion H as [|? ? Hs Ha]; subst.
  destruct (f a); [|auto].
  constructor; [auto|].
  rewrite Forall_forall in *. intros x Hx. apply filter_In in Hx. apply Ha, Hx.
Qed.

Lemma seq_sorted_lt (s n : nat) : StronglySorted lt (seq s n).
Proof.
  revert s; induction n as [|n IH]; intros s; simpl; constructor; [apply IH|].
  rewrite Forall_forall. intros x Hx. apply in_seq in Hx. lia.
Qed.

Lemma sorted_keys_lt {V : Type} (l : list (nat * V)) :
  StronglySorted key_le l -> NoDup (map fst l) -> StronglySorted lt (map fst l).
Proof.
  induction l as [|e l IH]; simpl; intros Hs Hnd; [constructor|].
  inversion Hs as [|? ? Hs' Hall]; inversion Hnd as [|? ? Hnin Hnd']; subst.
  constructor; [auto|].
  rewrite Forall_forall in *. intros x Hx.
  apply in_map_iff in Hx. destruct Hx as (e' & <- & He').
  specialize (Hall _ He'). unfold key_le in Hall.
  assert (fst e <> fst e'); [|lia].
  intros E. apply Hnin. rewrite E. now apply in_map.
Qed.

(** The visited bone indices in increasing order. *)
Definition visited_indices {V : Type} (d : dict V) (n : nat) : list nat :=
  filter (fun i => contains i d) (seq 0 n).

Lemma sorted_keys_visited {V : Type} (d : dict V) (n : nat) :
  NoDup (map fst d) -> (forall k, contains k d = true -> (k < n)%nat) ->
  map fst (sort_by_key d) = visited_indices d n.
Proof.
  intros Hnd Hlt. apply sorted_lt_unique.
  - apply sorted_keys_lt; [apply sort_by_key_sorted|].
    eapply Permutation_NoDup; [|exact Hnd].
    apply Permutation_map. symmetry. apply sort_by_key_perm.
  - apply filter_sorted_lt, seq_sorted_lt.
  - intros x. unfold visited_indices. rewrite filter_In, in_seq, contains_In.
    assert (P : Permutation (map fst (sort_by_key d)) (map fst d))
      by (apply Permutation_map, sort_by_key_perm).
    split.
    + intros Hx. apply (Permutation_in _ P) in Hx.
      split; [|assumption]. apply contains_In in Hx. apply Hlt in Hx. lia.
    + intros [_ Hx]. apply (Permutation_in _ (Permutation_sym P)); assumption.
Qed.

(** ** Bone hierarchies *)

(** Number of ancestors of a bone. *)
Fixpoint depth (b : Bone) : nat :=
  match b with
  | mkBone _ (Some p) _ _ _ _ _ => S (depth p)
  | mkBone _ None _ _ _ _ _ => O
  end.

Lemma depth_parent (b p : Bone) : parent b = Some p -> depth b = S (depth p).
Proof. destruct b as [n [q|] h t m c a]; simpl; intros H; inversion H; reflexivity. Qed.

(** [a] is [b] or one of its ancestors. *)
Inductive ancestor_or_self (a : Bone) : Bone -> Prop :=
| ancestor_self : ancestor_or_self a a
| ancestor_parent (b p : Bone) :
    parent b = Some p -> ancestor_or_self a p -> ancestor_or_self a b.

(** A hierarchy as Blender keeps it: bone names are unique and the parent of a bone
    of the armature is a bone of the armature. *)
Definition wf_hierarchy (bones : list Bone) : Prop :=
  NoDup (map name bones) /\
  forall b p, In b bones -> parent b = Some p -> In p bones.

(** Every collection of a bone is a collection of the armature. *)
Definition collections_known (a : Armature) : Prop :=
  forall b c, In b (bones a) -> In c (collections b) ->
              In (collection_name c) (map collection_name (collections_all a)).

Definition wf_armature_object (obj : Object) : Prop :=
  type obj = "ARMATURE" /\ wf_hierarchy (bones (data obj)) /\ collections_known (data obj).

(** In the hierarchy a parent comes before its children. *)
Definition parent_first (bones : list Bone) : Prop :=
  forall i j b p, nth_error bones i = Some b -> parent b = Some p ->
                  nth_error bones j = Some p -> (j < i)%nat.

(** The index at which line 117 finds the parent of the bone at index [i]. *)
Definition parent_bone_index (bones : list Bone) (i : nat) : option nat :=
  match nth_error bones i with
  | Some b =>
      match parent b with
      | Some p => find_index (String.eqb (name p)) (map name bones) 0
      | None => None
      end
  | None => None
  end.

Section Hierarchy.

Variable bones : list Bone.
Hypothesis Hwf : wf_hierarchy bones.

Lemma name_index_unique (i j : nat) (a b : Bone) :
  nth_error bones i = Some a -> nth_error bones j = Some b ->
  name a = name b -> i = j.
Proof.
  intros Hi Hj E. destruct Hwf as [Hnd _].
  apply (proj1 (NoDup_nth_error (map name bones)) Hnd).
  - rewrite length_map. apply nth_error_Some; congruence.
  - rewrite !nth_error_map, Hi, Hj; simpl. congruence.
Qed.

Lemma name_unique (a b : Bone) : In a bones -> In b bones -> name a = name b -> a = b.
Proof.
  intros Ha Hb E.
  apply In_nth_error in Ha, Hb. destruct Ha as [i Hi], Hb as [j Hj].
  assert (i = j) by (eapply name_index_unique; eauto). subst; congruence.
Qed.

Lemma parent_bone_index_parent (i : nat) (b p : Bone) :
  nth_error bones i = Some b -> parent b = Some p ->
  exists j, parent_bone_index bones i = Some j /\ nth_error bones j = Some p.
Proof.
  intros Hi Hp. destruct Hwf as [Hnd Hin].
  destruct (In_nth_error _ _ (Hin b p (nth_error_In _ _ Hi) Hp)) as [j Hj].
  exists j; split; [|assumption].
  unfold parent_bone_index. rewrite Hi, Hp.
  apply find_index_name; [assumption|].
  rewrite nth_error_map, Hj; reflexivity.
Qed.

Lemma parent_bone_index_inv (i j : nat) :
  parent_bone_index bones i = Some j ->
  exists b p, nth_error bones i = Some b /\ parent b = Some p /\
              nth_error bones j = Some p.
Proof.
  intros H. unfold parent_bone_index in H.
  destruct (nth_error bones i) as [b|] eqn:Hi; [|discriminate].
  destruct (parent b) as [p|] eqn:Hp; [|discriminate].
  destruct (parent_bone_index_parent _ _ _ Hi Hp) as (j' & Hj' & Hn).
  unfold parent_bone_index in Hj'. rewrite Hi, Hp in Hj'.
  assert (j' = j) by congruence. subst. eauto.
Qed.

(** The ancestors of a bone of the hierarchy have all the smaller depths. *)
Lemma depth_below (b : Bone) :
  In b bones -> forall d, (d <= depth b)%nat -> exists a, In a bones /\ depth a = d.
Proof.
  remember (depth b) as n eqn:E. revert b E.
  induction n as [|n IH]; intros b E Hb d Hd.
  - exists b; split; [assumption | lia].
  - destruct (Nat.eq_dec d (S n)) as [->|Hne]; [exists b; auto|].
    destruct b as [nm [p|] h t m c a]; simpl in E; [|discriminate].
    apply (IH p); [lia| |lia].
    apply (proj2 Hwf) with (b := mkBone nm (Some p) h t m c a); auto.
Qed.

Lemma depth_lt (b : Bone) : In b bones -> (depth b < length bones)%nat.
Proof.
  intros Hb.
  assert (Hincl : incl (seq 0 (S (depth b))) (map depth bones)).
  { intros d Hd. apply in_seq in Hd.
    destruct (depth_below b Hb d) as (a & Ha & <-); [lia|].
    now apply in_map. }
  apply NoDup_incl_length in Hincl; [|apply seq_NoDup].
  rewrite length_seq, length_map in Hincl. lia.
Qed.

End Hierarchy.

Lemma filter_length_mono {A : Type} (f g : A -> bool) (l : list A) :
  (forall x, In x l -> g x = true -> f x = true) ->
  (length (filter g l) <= length (filter f l))%nat.
Proof.
  induction l as [|a l IH]; intros H; simpl; [lia|].
  assert (IH' := IH (fun x Hx => H x (or_intror Hx))).
  destruct (g a) eqn:Hg.
  - rewrite (H a (or_introl eq_refl) Hg). simpl; lia.
  - destruct (f a); simpl; lia.
Qed.

Lemma filter_length_strict {A : Type} (f g : A -> bool) (l : list A) (x : A) :
  (forall y, In y l -> g y = true -> f y = true) ->
  In x l -> f x = true -> g x = false ->
  (length (filter g l) < length (filter f l))%nat.
Proof.
  induction l as [|a l IH]; intros H Hin Hf Hg; simpl; [contradiction|].
  assert (Hle := filter_length_mono f g l (fun y Hy => H y (or_intror Hy))).
  destruct Hin as [->|Hin].
  - rewrite Hf, Hg. simpl; lia.
  - assert (IH' := IH (fun y Hy => H y (or_intror Hy)) Hin Hf Hg).
    destruct (g a) eqn:Hga.
    + rewrite (H a (or_introl eq_refl) Hga). simpl; lia.
    + destruct (f a); simpl; lia.
Qed.

(** ** The worklist loop *)

Section Walk.

Variable bones : list Bone.

(** Line 117 finds the parent of every bone that has one. *)
Hypothesis Hlookup :
  forall i b p, nth_error bones i = Some b -> parent b = Some p ->
                parent_bone_index bones i <> None.

(** The explicitly included bone indices. *)
Variable seeds : nat -> Prop.

(** The seeds and their ancestors. *)
Inductive reach : nat -> Prop :=
| reach_seed (s : nat) : seeds s -> reach s
| reach_parent (k p : nat) :
    reach k -> parent_bone_index bones k = Some p -> reach p.

(** What holds of the stack and of the dictionary at the head of the loop. *)
Record walk_inv (st : stack) (d : dict (option nat)) : Prop := {
  inv_stack_lt : forall i inst, In (i, inst) st -> (i < length bones)%nat;
  inv_keys_lt : forall k, contains k d = true -> (k < length bones)%nat;
  inv_nodup : NoDup (map fst d);
  inv_closed : forall k p, contains k d = true -> parent_bone_index bones k = Some p ->
               contains p d = true \/ exists inst rest, st = (p, inst) :: rest;
  inv_reach : forall k, contains k d = true \/ (exists inst, In (k, inst) st) -> reach k;
  inv_seeds : forall s, seeds s -> contains s d = true \/ exists inst, In (s, inst) st;
  inv_stack_inst : forall p c, In (p, Some c) st ->
                   contains c d = true /\ parent_bone_index bones c = Some p;
  inv_dict_inst : forall k c, In (k, Some c) d ->
                  contains c d = true /\ parent_bone_index bones c = Some k
}.

Definition missing (d : dict (option nat)) : nat :=
  length (filter (fun i => negb (contains i d)) (seq 0 (length bones))).

(** The stack after one turn of the loop on the bone [b]. *)
Definition next_stack (b : nat) (rest : stack) (d : dict (option nat)) : stack :=
  match parent_bone_index bones b with
  | Some j => if negb (contains j d) then (j, Some b) :: rest else rest
  | None => rest
  end.

Lemma walk_step (fuel b : nat) (inst : option nat) (rest : stack)
      (d : dict (option nat)) (bone : Bone) :
  nth_error bones b = Some bone ->
  walk bones (map name bones) (S fuel) ((b, inst) :: rest) d =
  walk bones (map name bones) fuel (next_stack b rest d) (setitem b inst d).
Proof.
  intros Hb. simpl. rewrite (getitem_Ok _ _ _ Hb). simpl.
  assert (L : forall p, parent bone = Some p -> parent_bone_index bones b <> None)
    by (intros p; apply Hlookup; exact Hb).
  unfold next_stack, parent_bone_index in *. rewrite Hb in *.
  destruct (parent bone) as [p|] eqn:Hp; simpl; [|reflexivity].
  unfold index.
  destruct (find_index (String.eqb (name p)) (map name bones) 0) as [j|] eqn:E.
  - simpl. destruct (negb (contains j d)); reflexivity.
  - exfalso. apply (L p eq_refl). reflexivity.
Qed.

Lemma missing_setitem_le (b : nat) (inst : option nat) (d : dict (option nat)) :
  (missing (setitem b inst d) <= missing d)%nat.
Proof.
  apply filter_length_mono. intros x _. rewrite contains_setitem.
  destruct (contains x d); [rewrite orb_true_r; discriminate | reflexivity].
Qed.

Lemma missing_setitem_lt (b : nat) (inst : option nat) (d : dict (option nat)) :
  (b < length bones)%nat -> contains b d = false ->
  (missing (setitem b inst d) < missing d)%nat.
Proof.
  intros Hb Hc. apply filter_length_strict with (x := b).
  - intros x _. rewrite contains_setitem.
    destruct (contains x d); [rewrite orb_true_r; discriminate | reflexivity].
  - apply in_seq; lia.
  - now rewrite Hc.
  - now rewrite contains_setitem, Nat.eqb_refl.
Qed.

Lemma walk_measure (b : nat) (inst : option nat) (rest : stack) (d : dict (option nat)) :
  walk_inv ((b, inst) :: rest) d ->
  (length (next_stack b rest d) + missing (setitem b inst d)
   < length ((b, inst) :: rest) + missing d)%nat.
Proof.
  intros I. assert (Hle := missing_setitem_le b inst d).
  assert (Hb : (b < length bones)%nat)
    by (apply (inv_stack_lt _ _ I) with (inst := inst); now left).
  unfold next_stack.
  destruct (parent_bone_index bones b) as [j|] eqn:Hj; [|simpl; lia].
  destruct (contains j d) eqn:Hc; simpl; [lia|].
  assert (contains b d = false).
  { destruct (contains b d) eqn:Hbd; [|reflexivity].
    destruct (inv_closed _ _ I _ _ Hbd Hj) as [H|(i & r & H)]; [congruence|].
    inversion H; subst. congruence. }
  assert (Hlt := missing_setitem_lt b inst d Hb H). lia.
Qed.

Lemma walk_preserves (b : nat) (inst : option nat) (rest : stack) (d : dict (option nat)) :
  walk_inv ((b, inst) :: rest) d ->
  walk_inv (next_stack b rest d) (setitem b inst d).
Proof.
  intros I.
  assert (Hb : (b < length bones)%nat)
    by (apply (inv_stack_lt _ _ I) with (inst := inst); now left).
  assert (Hsub : forall e, In e (next_stack b rest d) ->
            In e rest \/ exists j, e = (j, Some b) /\ parent_bone_index bones b = Some j
                                   /\ contains j d = false).
  { unfold next_stack. intros e He.
    destruct (parent_bone_index bones b) as [j|] eqn:Hj; [|auto].
    destruct (contains j d) eqn:Hc; simpl in He; [auto|].
    destruct He as [<-|He]; [right; eauto | auto]. }
  assert (Hsup : forall e, In e rest -> In e (next_stack b rest d)).
  { unfold next_stack. intros e He.
    destruct (parent_bone_index bones b) as [j|]; [|assumption].
    destruct (negb (contains j d)); [now right | assumption]. }
  assert (Hj_lt : forall j, parent_bone_index bones b = Some j -> (j < length bones)%nat).
  { intros j Hj. unfold parent_bone_index in Hj.
    destruct (nth_error bones b) as [bn|]; [|discriminate].
    destruct (parent bn); [|discriminate].
    apply find_index_ge in Hj. rewrite length_map in Hj. lia. }
  constructor.
  - intros i ins Hi. destruct (Hsub _ Hi) as [H|(j & E & Hj & _)].
    + apply (inv_stack_lt _ _ I) with (inst := ins); now right.
    + inversion E; subst. auto.
  - intros k Hk. rewrite contains_setitem in Hk. apply orb_true_iff in Hk.
    destruct Hk as [Hk|Hk]; [apply Nat.eqb_eq in Hk; subst; assumption|].
    apply (inv_keys_lt _ _ I); assumption.
  - apply NoDup_setitem, (inv_nodup _ _ I).
  - intros k p Hk Hp. rewrite contains_setitem in Hk. rewrite contains_setitem.
    apply orb_true_iff in Hk.
    assert (Hnew : parent_bone_index bones b = Some p ->
              contains p d = true \/ exists i r, next_stack b rest d = (p, i) :: r).
    { intros Hbp. unfold next_stack. rewrite Hbp.
      destruct (contains p d) eqn:Hc; simpl; [now left | right; eauto]. }
    destruct Hk as [Hk|Hk].
    + apply Nat.eqb_eq in Hk; subst k.
      destruct (Hnew Hp) as [H|H]; [left; rewrite H; apply orb_true_r | now right].
    + destruct (inv_closed _ _ I _ _ Hk Hp) as [H|(i & r & H)].
      * left; rewrite H; apply orb_true_r.
      * inversion H; subst. left. now rewrite Nat.eqb_refl.
  - intros k [Hk|(ins & Hk)].
    + rewrite contains_setitem in Hk. apply orb_true_iff in Hk.
      destruct Hk as [Hk|Hk].
      * apply Nat.eqb_eq in Hk; subst k.
        apply (inv_reach _ _ I). right. exists inst. now left.
      * apply (inv_reach _ _ I). now left.
    + destruct (Hsub _ Hk) as [H|(j & E & Hj & _)].
      * apply (inv_reach _ _ I). right. exists ins. now right.
      * inversion E; subst. apply reach_parent with (k := b); [|assumption].
        apply (inv_reach _ _ I). right. exists inst. now left.
  - intros s Hs. rewrite contains_setitem.
    destruct (inv_seeds _ _ I _ Hs) as [H|(ins & [H|H])].
    + left; rewrite H; apply orb_true_r.
    + inversion H; subst. left. now rewrite Nat.eqb_refl.
    + right. exists ins. auto.
  - intros p c Hpc. rewrite contains_setitem.
    destruct (Hsub _ Hpc) as [H|(j & E & Hj & _)].
    + destruct (inv_stack_inst _ _ I p c) as [H1 H2]; [now right|].
      split; [rewrite H1; apply orb_true_r | assumption].
    + inversion E; subst. split; [now rewrite Nat.eqb_refl | assumption].
  - intros k c Hkc. rewrite contains_setitem.
    destruct (In_setitem _ _ _ _ _ Hkc) as [[E1 E2]|H].
    + subst k inst. destruct (inv_stack_inst _ _ I b c) as [H1 H2]; [now left|].
      split; [rewrite H1; apply orb_true_r | assumption].
    + destruct (inv_dict_inst _ _ I _ _ H) as [H1 H2].
      split; [rewrite H1; apply orb_true_r | assumption].
Qed.

(** The loop ends within the fuel it is given, without an exception, and the
    invariant holds of the dictionary it leaves. *)
Lemma walk_ok (fuel : nat) (st : stack) (d : dict (option nat)) :
  walk_inv st d -> (length st + missing d <= fuel)%nat ->
  exists d', walk bones (map name bones) fuel st d = Ok d' /\ walk_inv [] d'.
Proof.
  revert st d; induction fuel as [|fuel IH]; intros [|[b inst] rest] d I Hm.
  - exists d; split; [reflexivity | assumption].
  - simpl in Hm; lia.
  - exists d; split; [reflexivity | assumption].
  - assert (Hb : (b < length bones)%nat)
      by (apply (inv_stack_lt _ _ I) with (inst := inst); now left).
    destruct (nth_error bones b) as [bone|] eqn:Hn;
      [|apply nth_error_None in Hn; lia].
    rewrite (walk_step fuel b inst rest d bone Hn).
    apply IH; [apply walk_preserves; assumption|].
    assert (M := walk_measure _ _ _ _ I). lia.
Qed.

(** At the end the visited bones are the seeds and their ancestors. *)
Lemma walk_inv_reach (d : dict (option nat)) (k : nat) :
  walk_inv [] d -> (contains k d = true <-> reach k).
Proof.
  intros I; split.
  - intros H. apply (inv_reach _ _ I). now left.
  - induction 1 as [s Hs|k p Hk IH Hp].
    + destruct (inv_seeds _ _ I _ Hs) as [H|(i & [])]; assumption.
    + destruct (inv_closed _ _ I _ _ IH Hp) as [H|(i & r & H)]; [assumption | discriminate].
Qed.

End Walk.

(** ** The explicitly included bones *)

(** The test of lines 105-107 for one bone. *)
Definition is_seed (bone_filter_mode : string) (bone_collection_indices : list Z)
    (bone_collections : list BoneCollection) (bone : Bone) : bool :=
  match mapM (index BoneCollection_eqb bone_collections) (collections bone) with
  | Ok this_bone_collection_indices =>
      String.eqb bone_filter_mode "ALL"
      || (Z.eqb (len (collections bone)) 0 && existsb (Z.eqb (-1)) bone_collection_indices)
      || existsb (fun i => existsb (fun j => Z.eqb i (Z.of_nat j)) this_bone_collection_indices)
                 bone_collection_indices
  | _ => false
  end.

Definition seed_index (bones : list Bone) (mode : string) (idxs : list Z)
    (colls : list BoneCollection) (s : nat) : Prop :=
  exists b, nth_error bones s = Some b /\ is_seed mode idxs colls b = true.

Lemma collection_indices_ok (a : Armature) (b : Bone) :
  collections_known a -> In b (bones a) ->
  exists this, mapM (index BoneCollection_eqb (collections_all a)) (collections b) = Ok this.
Proof.
  intros Hk Hb.
  exists (map (fun c => match find_index (BoneCollection_eqb c) (collections_all a) 0 with
                        | Some i => i | None => O end) (collections b)).
  apply mapM_map. intros c Hc. unfold index.
  specialize (Hk b c Hb Hc). apply in_map_iff in Hk. destruct Hk as (c' & E & Hc').
  destruct (find_index_exists (BoneCollection_eqb c) (collections_all a) c' Hc') as (j & ->);
    [|reflexivity].
  unfold BoneCollection_eqb. rewrite E. apply String.eqb_refl.
Qed.

Lemma seed_loop_ok (mode : string) (idxs : list Z) (colls : list BoneCollection)
      (items : list (nat * Bone)) (acc : stack) :
  (forall i b, In (i, b) items ->
               exists this, mapM (index BoneCollection_eqb colls) (collections b) = Ok this) ->
  seed_loop mode idxs (existsb (Z.eqb (-1)) idxs) colls items acc =
  Ok (rev (map (fun ib => (fst ib, @None nat))
               (filter (fun ib => is_seed mode idxs colls (snd ib)) items)) ++ acc).
Proof.
  revert acc; induction items as [|[i b] items IH]; intros acc H; simpl; [reflexivity|].
  destruct (H i b (or_introl eq_refl)) as (this & E).
  unfold is_seed at 1. rewrite E. simpl.
  assert (IH' := fun acc' => IH acc' (fun i' b' Hin => H i' b' (or_intror Hin))).
  match goal with |- context [if ?c then _ else _] => destruct c end.
  - rewrite IH'. simpl. rewrite <- app_assoc. reflexivity.
  - apply IH'.
Qed.

(** ** From the visited bones to the result *)

Definition bone_name_at (bones : list Bone) (i : nat) : string :=
  match nth_error bones i with
  | Some b => name b
  | None => ""
  end.

Definition is_root_at (bones : list Bone) (i : nat) : bool :=
  match nth_error bones i with
  | Some b => match parent b with None => true | Some _ => false end
  | None => false
  end.

(** What lines 122-155 return for the increasing list [ks] of visited indices. *)
Definition finish_spec (bones : list Bone) (ks : list nat) : result (list string) :=
  let root_bone_names := map (bone_name_at bones) (filter (is_root_at bones) ks) in
  if Z.ltb 1 (len root_bone_names)
  then Raise (RuntimeError (multiple_roots_message (len root_bone_names) root_bone_names))
  else Ok (map (bone_name_at bones) ks).

Section Finish.

Variable bones : list Bone.
Hypothesis Hwf : wf_hierarchy bones.

Lemma bone_names_NoDup (ks : list nat) :
  NoDup ks -> (forall k, In k ks -> (k < length bones)%nat) ->
  NoDup (map (bone_name_at bones) ks).
Proof.
  intros Hnd Hlt. apply NoDup_map_NoDup_ForallPairs; [|assumption].
  intros x y Hx Hy E. unfold bone_name_at in E.
  destruct (nth_error bones x) as [a|] eqn:Ha;
    [|apply nth_error_None in Ha; specialize (Hlt x Hx); lia].
  destruct (nth_error bones y) as [b|] eqn:Hb;
    [|apply nth_error_None in Hb; specialize (Hlt y Hy); lia].
  eapply name_index_unique; eauto.
Qed.

(** The instigator chain of the diagnostics ends. *)
Lemma instigator_trace_ok (sorted : list (nat * option nat)) :
  NoDup (map fst sorted) ->
  (forall k inst, In (k, inst) sorted -> (k < length bones)%nat) ->
  (forall k c, In (k, Some c) sorted ->
               In c (map fst sorted) /\ parent_bone_index bones c = Some k) ->
  forall fuel k inst b,
    In (k, inst) sorted -> nth_error bones k = Some b ->
    (length bones <= depth b + fuel)%nat ->
    exists s,
      instigator_trace (map (fun x => bone_name_at bones (fst x)) sorted)
        (map (fun x => option_map (bone_name_at bones) (snd x)) sorted)
        fuel (bone_name_at bones k) = Ok s.
Proof.
  intros Hnd Hlt Hinst.
  assert (Hnames : NoDup (map (fun x => bone_name_at bones (fst x)) sorted)).
  { rewrite <- map_map. apply bone_names_NoDup; [assumption|].
    intros k Hk. apply in_map_iff in Hk. destruct Hk as ([k' i] & <- & Hk).
    eapply Hlt; eauto. }
  induction fuel as [|fuel IH]; intros k inst b Hin Hb Hd.
  - assert (D := depth_lt bones Hwf b (nth_error_In _ _ Hb)). lia.
  - simpl. destruct (In_nth_error _ _ Hin) as [i Hi].
    unfold index.
    rewrite (find_index_name _ i (bone_name_at bones k) Hnames);
      [|rewrite nth_error_map, Hi; reflexivity].
    simpl. unfold getitem. rewrite nth_error_map, Hi. simpl.
    destruct inst as [c|]; simpl; [|eauto].
    destruct (Hinst k c Hin) as [Hc Hp].
    apply in_map_iff in Hc. destruct Hc as ([c' inst'] & E & Hc). simpl in E; subst c'.
    destruct (parent_bone_index_inv bones Hwf c k Hp) as (bc & p & Hbc & Hpar & Hk).
    apply (IH c inst' bc Hc Hbc).
    rewrite (depth_parent bc p Hpar).
    assert (p = b) by congruence. subst p. lia.
Qed.

Variable seeds : nat -> Prop.

Lemma finish_eq (d : dict (option nat)) :
  walk_inv bones seeds [] d ->
  finish bones d = finish_spec bones (visited_indices d (length bones)).
Proof.
  intros I. unfold finish, finish_spec.
  assert (P : Permutation (sort_by_key d) d) by apply sort_by_key_perm.
  assert (Hk : forall k inst, In (k, inst) (sort_by_key d) -> (k < length bones)%nat).
  { intros k inst H. apply (Permutation_in _ P) in H.
    apply (inv_keys_lt _ _ _ _ I), contains_In.
    change k with (fst (k, inst)). now apply in_map. }
  assert (Hi : forall k c, In (k, Some c) (sort_by_key d) ->
              In c (map fst (sort_by_key d)) /\ parent_bone_index bones c = Some k).
  { intros k c H. apply (Permutation_in _ P) in H.
    destruct (inv_dict_inst _ _ _ _ I k c H) as [H1 H2]. split; [|assumption].
    apply (Permutation_in _ (Permutation_map fst (Permutation_sym P))).
    now apply contains_In. }
  assert (Hnd : NoDup (map fst (sort_by_key d))).
  { eapply Permutation_NoDup; [apply Permutation_map, Permutation_sym, P|].
    apply (inv_nodup _ _ _ _ I). }
  rewrite (mapM_map _ (fun x => option_map (bone_name_at bones) (snd x))).
  2:{ intros [k [c|]] H; simpl; [|reflexivity].
      destruct (Hi k c H) as [Hc _]. apply in_map_iff in Hc.
      destruct Hc as ([c' i'] & E & Hc). simpl in E; subst c'.
      apply Hk in Hc. unfold bone_name_at.
      destruct (nth_error bones c) as [bc|] eqn:Hbc;
        [|apply nth_error_None in Hbc; lia].
      now rewrite (getitem_Ok _ _ _ Hbc). }
  simpl.
  rewrite (mapM_map _ (fun x => bone_name_at bones (fst x))).
  2:{ intros [k i] H; simpl. apply Hk in H. unfold bone_name_at.
      destruct (nth_error bones k) as [bk|] eqn:Hbk;
        [|apply nth_error_None in Hbk; lia].
      now rewrite (getitem_Ok _ _ _ Hbk). }
  simpl.
  rewrite (mapM_map _ (fun i => nth i bones bone_root)).
  2:{ intros k H. apply in_map_iff in H. destruct H as ([k' i] & E & H).
      simpl in E; subst k'. apply Hk in H.
      apply getitem_Ok, nth_error_nth'. assumption. }
  simpl.
  assert (Eks := sorted_keys_visited d (length bones) (inv_nodup _ _ _ _ I)
                   (inv_keys_lt _ _ _ _ I)).
  set (ks := visited_indices d (length bones)) in *.
  rewrite Eks.
  assert (Hks : forall k, In k ks -> (k < length bones)%nat).
  { intros k H. apply filter_In in H. destruct H as [H _]. apply in_seq in H. lia. }
  rewrite filter_map_swap, map_map.
  assert (E1 : filter (fun a => match parent (nth a bones bone_root) with
                                | Some _ => false | None => true end) ks
               = filter (is_root_at bones) ks).
  { apply filter_ext_in. intros k H. unfold is_root_at.
    rewrite (nth_error_nth' bones bone_root (Hks k H)). reflexivity. }
  rewrite E1.
  assert (E2 : map (fun x => name (nth x bones bone_root)) (filter (is_root_at bones) ks)
               = map (bone_name_at bones) (filter (is_root_at bones) ks)).
  { apply map_ext_in. intros k H. apply filter_In in H. destruct H as [H _].
    unfold bone_name_at. rewrite (nth_error_nth' bones bone_root (Hks k H)). reflexivity. }
  rewrite E2.
  assert (E3 : len (map (fun x => nth x bones bone_root) (filter (is_root_at bones) ks))
               = len (map (bone_name_at bones) (filter (is_root_at bones) ks)))
    by (unfold len; now rewrite !length_map).
  rewrite E3.
  destruct (Z.ltb 1 (len (map (bone_name_at bones) (filter (is_root_at bones) ks))));
    [|rewrite <- map_map, Eks; reflexivity].
  assert (T : exists l,
            mapM (instigator_trace (map (fun x => bone_name_at bones (fst x)) (sort_by_key d))
                    (map (fun x => option_map (bone_name_at bones) (snd x)) (sort_by_key d))
                    (length bones))
                 (map (bone_name_at bones) (filter (is_root_at bones) ks)) = Ok l).
  { assert (G : forall l, (forall k, In k l -> In k ks /\ is_root_at bones k = true) ->
              exists r,
                mapM (instigator_trace
                        (map (fun x => bone_name_at bones (fst x)) (sort_by_key d))
                        (map (fun x => option_map (bone_name_at bones) (snd x)) (sort_by_key d))
                        (length bones))
                     (map (bone_name_at bones) l) = Ok r).
    { induction l as [|k l IHl]; intros Hl; simpl; [eauto|].
      destruct (Hl k (or_introl eq_refl)) as [Hkin Hroot].
      assert (Hkin' : In k (map fst (sort_by_key d))) by (rewrite Eks; assumption).
      apply in_map_iff in Hkin'. destruct Hkin' as ([k' i] & E & Hkin').
      simpl in E; subst k'.
      destruct (nth_error bones k) as [bk|] eqn:Hbk;
        [|apply nth_error_None in Hbk; specialize (Hks k Hkin); lia].
      destruct (instigator_trace_ok (sort_by_key d) Hnd Hk Hi (length bones) k i bk
                  Hkin' Hbk) as (s & ->); [lia|].
      destruct (IHl (fun k' H' => Hl k' (or_intror H'))) as (r & ->). eauto. }
    apply G. intros k H. apply filter_In in H. exact H. }
  destruct T as (l & ->). reflexivity.
Qed.

End Finish.

(** ** The selector as a whole *)

Lemma reach_ext (bones : list Bone) (S1 S2 : nat -> Prop) :
  (forall s, S1 s -> S2 s) -> forall k, reach bones S1 k -> reach bones S2 k.
Proof.
  intros H k R. induction R as [s Hs|k p _ IH Hp].
  - apply reach_seed; auto.
  - eapply reach_parent; eauto.
Qed.

Lemma walk_inv_init (bones : list Bone) (S0 : nat -> Prop) (st : stack) :
  (forall i inst, In (i, inst) st -> (i < length bones)%nat /\ inst = None) ->
  (forall s, S0 s <-> exists inst, In (s, inst) st) ->
  walk_inv bones S0 st [].
Proof.
  intros Hst HS. constructor; simpl; try discriminate; try contradiction.
  - intros i inst H. apply (Hst i inst H).
  - constructor.
  - intros k [H|H]; [discriminate|]. apply reach_seed, HS, H.
  - intros s H. right. apply HS, H.
  - intros p c H. destruct (Hst p (Some c) H) as [_ E]. discriminate.
Qed.

Lemma wf_lookup (bones : list Bone) :
  wf_hierarchy bones ->
  forall i b p, nth_error bones i = Some b -> parent b = Some p ->
                parent_bone_index bones i <> None.
Proof.
  intros Hwf i b p Hi Hp.
  destruct (parent_bone_index_parent bones Hwf i b p Hi Hp) as (j & -> & _). discriminate.
Qed.

(** From a stack of valid indices the function returns what [finish_spec] gives for
    the stack's indices and their ancestors. *)
Lemma export_from_stack_spec (bones : list Bone) (S0 : nat -> Prop) (st : stack) :
  wf_hierarchy bones ->
  (forall i inst, In (i, inst) st -> (i < length bones)%nat /\ inst = None) ->
  (forall s, S0 s <-> exists inst, In (s, inst) st) ->
  exists d, walk_inv bones S0 [] d /\
            export_from_stack bones st = finish_spec bones (visited_indices d (length bones)).
Proof.
  intros Hwf Hst HS. unfold export_from_stack.
  destruct (walk_ok bones (wf_lookup bones Hwf) S0 (length st + length bones) st [])
    as (d & Hw & I).
  - apply walk_inv_init; assumption.
  - unfold missing.
    assert (L := List.filter_length_le (fun i => negb (contains i (@nil (nat * option nat))))
                   (seq 0 (length bones))).
    rewrite length_seq in L. lia.
  - exists d. split; [assumption|]. rewrite Hw. simpl.
    apply finish_eq with (seeds := S0); assumption.
Qed.

Lemma get_export_bone_names_spec (obj : Object) (mode : string) (idxs : list Z) :
  wf_armature_object obj ->
  exists d,
    walk_inv (bones (data obj))
      (seed_index (bones (data obj)) mode idxs (collections_all (data obj))) [] d /\
    get_export_bone_names (Some obj) mode idxs =
    finish_spec (bones (data obj)) (visited_indices d (length (bones (data obj)))).
Proof.
  intros (Ht & Hwf & Hc). unfold get_export_bone_names. rewrite Ht. simpl.
  rewrite seed_loop_ok.
  2:{ intros i b H. apply In_enumerate in H.
      apply collection_indices_ok; [assumption | eapply nth_error_In; eauto]. }
  simpl. rewrite app_nil_r.
  apply export_from_stack_spec; [assumption| |].
  - intros i inst H. apply in_rev, in_map_iff in H.
    destruct H as ([i' b] & E & H). inversion E; subst.
    apply filter_In in H. destruct H as [H _]. apply In_enumerate in H.
    split; [|reflexivity]. apply nth_error_Some. simpl; congruence.
  - intros s. unfold seed_index. split.
    + intros (b & Hb & Hs). exists None. apply -> in_rev.
      apply in_map_iff. exists (s, b). split; [reflexivity|].
      apply filter_In. split; [apply In_enumerate; assumption | assumption].
    + intros (inst & H). apply in_rev, in_map_iff in H.
      destruct H as ([i' b] & E & H). inversion E; subst.
      apply filter_In in H. destruct H as [H Hs]. apply In_enumerate in H. eauto.
Qed.

(** ** What the selected names look like *)

(** A bone of the hierarchy whose name is returned. *)
Definition exported (bones : list Bone) (names : list string) (b : Bone) : Prop :=
  In b bones /\ In (name b) names.

(** [b] is joined to [r] by parent links that stay among the returned names. *)
Inductive linked (names : list string) (r : Bone) : Bone -> Prop :=
| linked_root : linked names r r
| linked_child (b p : Bone) :
    parent b = Some p -> In (name p) names -> linked names r p -> linked names r b.

(** The returned names form one tree: one bone without parent, to which the parent
    links join every other. *)
Definition single_tree (bones : list Bone) (names : list string) : Prop :=
  exists r, exported bones names r /\ parent r = None /\
            (forall b, exported bones names b -> parent b = None -> b = r) /\
            (forall b, exported bones names b -> linked names r b).

(** [a] is a parent, grandparent, ... of [b]. *)
Inductive proper_ancestor (a : Bone) : Bone -> Prop :=
| proper_parent (b : Bone) : parent b = Some a -> proper_ancestor a b
| proper_step (b p : Bone) :
    parent b = Some p -> proper_ancestor a p -> proper_ancestor a b.

(** [x] stands before [y] in [l]. *)
Definition precedes (l : list string) (x y : string) : Prop :=
  exists i j, (i < j)%nat /\ nth_error l i = Some x /\ nth_error l j = Some y.

Lemma sorted_lt_positions (l : list nat) (x y : nat) :
  StronglySorted lt l -> In x l -> In y l -> (x < y)%nat ->
  exists i j, (i < j)%nat /\ nth_error l i = Some x /\ nth_error l j = Some y.
Proof.
  induction l as [|a l IH]; intros Hs Hx Hy Hlt; [contradiction|].
  inversion Hs as [|? ? Hs' Ha]; subst. rewrite Forall_forall in Ha.
  destruct Hx as [->|Hx], Hy as [->|Hy].
  - lia.
  - destruct (In_nth_error _ _ Hy) as [j Hj]. exists O, (S j). repeat split; [lia|assumption].
  - specialize (Ha _ Hx). lia.
  - destruct (IH Hs' Hx Hy Hlt) as (i & j & Hij & Hi & Hj).
    exists (S i), (S j). repeat split; [lia|assumption|assumption].
Qed.

Section Selected.

Variable bones : list Bone.
Hypothesis Hwf : wf_hierarchy bones.
Variable seeds : nat -> Prop.
Variable d : dict (option nat).
Hypothesis I : walk_inv bones seeds [] d.

Local Abbreviation ks := (visited_indices d (length bones)).
Local Abbreviation names := (map (bone_name_at bones) (visited_indices d (length bones))).

Lemma ks_reach (k : nat) : In k ks <-> reach bones seeds k.
Proof.
  unfold visited_indices. rewrite filter_In, in_seq, (walk_inv_reach bones seeds d k I).
  split; [tauto|]. intros R. split; [|assumption].
  apply (walk_inv_reach bones seeds d k I) in R.
  apply (inv_keys_lt _ _ _ _ I) in R. lia.
Qed.

Lemma ks_lt (k : nat) : In k ks -> (k < length bones)%nat.
Proof. unfold visited_indices. rewrite filter_In, in_seq. lia. Qed.

Lemma ks_sorted : StronglySorted lt ks.
Proof. apply filter_sorted_lt, seq_sorted_lt. Qed.

Lemma index_exported (i : nat) (b : Bone) :
  nth_error bones i = Some b -> In i ks -> In (name b) names.
Proof.
  intros Hi Hk. apply in_map_iff. exists i. split; [|assumption].
  unfold bone_name_at. now rewrite Hi.
Qed.

Lemma exported_index (b : Bone) :
  exported bones names b -> exists i, nth_error bones i = Some b /\ In i ks.
Proof.
  intros [Hb Hn]. destruct (In_nth_error _ _ Hb) as [i Hi]. exists i. split; [assumption|].
  apply in_map_iff in Hn. destruct Hn as (k & E & Hk).
  unfold bone_name_at in E.
  destruct (nth_error bones k) as [b'|] eqn:Hk';
    [|apply nth_error_None in Hk'; apply ks_lt in Hk; lia].
  rewrite (name_index_unique bones Hwf i k b b' Hi Hk' (eq_sym E)). assumption.
Qed.

Lemma ks_closed (i : nat) (b p : Bone) :
  nth_error bones i = Some b -> In i ks -> parent b = Some p ->
  exists j, nth_error bones j = Some p /\ In j ks.
Proof.
  intros Hi Hk Hp.
  destruct (parent_bone_index_parent bones Hwf i b p Hi Hp) as (j & Hj & Hn).
  exists j. split; [assumption|].
  apply ks_reach. eapply reach_parent; [apply ks_reach; eassumption | assumption].
Qed.

(** Ancestor closure of the returned names. *)
Lemma exported_parent (b p : Bone) :
  exported bones names b -> parent b = Some p -> exported bones names p.
Proof.
  intros Hb Hp. destruct (exported_index b Hb) as (i & Hi & Hk).
  destruct (ks_closed i b p Hi Hk Hp) as (j & Hj & Hkj).
  split; [eapply nth_error_In; eauto | eapply index_exported; eauto].
Qed.

(** Every visited bone hangs below a visited bone without parent. *)
Lemma linked_to_root (n : nat) :
  forall b i, depth b = n -> nth_error bones i = Some b -> In i ks ->
  exists r j, nth_error bones j = Some r /\ In j ks /\ parent r = None /\ linked names r b.
Proof.
  induction n as [|n IH]; intros b i Hd Hi Hk.
  - exists b, i. repeat split; auto; [|constructor].
    destruct (parent b) as [p|] eqn:Hp; [|reflexivity].
    rewrite (depth_parent b p Hp) in Hd. discriminate.
  - destruct (parent b) as [p|] eqn:Hp.
    + destruct (ks_closed i b p Hi Hk Hp) as (j & Hj & Hkj).
      rewrite (depth_parent b p Hp) in Hd.
      destruct (IH p j (eq_add_S _ _ Hd) Hj Hkj) as (r & jr & Hr & Hkr & Hpr & L).
      exists r, jr. repeat split; auto.
      eapply linked_child; eauto. eapply index_exported; eauto.
    + exists b, i. repeat split; auto. constructor.
Qed.

Lemma root_in_filter (j : nat) (r : Bone) :
  nth_error bones j = Some r -> In j ks -> parent r = None ->
  In j (filter (is_root_at bones) ks).
Proof.
  intros Hj Hk Hp. apply filter_In. split; [assumption|].
  unfold is_root_at. now rewrite Hj, Hp.
Qed.

(** With at most one visited bone without parent, and some visited bone, the
    returned names form one tree. *)
Lemma at_most_one_root_tree :
  (length (filter (is_root_at bones) ks) <= 1)%nat -> ks <> [] ->
  single_tree bones names.
Proof.
  intros Hlen Hne.
  destruct ks as [|k0 ks'] eqn:Eks; [congruence|]. rewrite <- Eks in *. clear Hne.
  assert (Hk0 : In k0 ks) by (rewrite Eks; now left).
  destruct (nth_error bones k0) as [b0|] eqn:Hb0;
    [|apply nth_error_None in Hb0; apply ks_lt in Hk0; lia].
  destruct (linked_to_root (depth b0) b0 k0 eq_refl Hb0 Hk0) as (r & j & Hr & Hkr & Hpr & _).
  assert (Hone : forall j', In j' (filter (is_root_at bones) ks) -> j' = j).
  { assert (Hj := root_in_filter j r Hr Hkr Hpr).
    destruct (filter (is_root_at bones) ks) as [|x [|y l]]; simpl in *;
      [contradiction | | lia].
    intros j' [<-|[]]. destruct Hj as [<-|[]]. reflexivity. }
  exists r. split; [|split; [assumption|split]].
  - split; [eapply nth_error_In; eauto | eapply index_exported; eauto].
  - intros b Hb Hp. destruct (exported_index b Hb) as (i & Hi & Hk).
    assert (i = j) by (apply Hone; eapply root_in_filter; eauto).
    subst i. congruence.
  - intros b Hb. destruct (exported_index b Hb) as (i & Hi & Hk).
    destruct (linked_to_root (depth b) b i eq_refl Hi Hk) as (r' & j' & Hr' & Hkr' & Hpr' & L).
    assert (j' = j) by (apply Hone; eapply root_in_filter; eauto).
    subst j'. assert (r' = r) by congruence. subst r'. assumption.
Qed.

(** Under [parent_first], an ancestor has a smaller index and is visited. *)
Lemma ancestor_index (a b : Bone) :
  parent_first bones -> proper_ancestor a b ->
  forall i, nth_error bones i = Some b -> In i ks ->
  exists j, (j < i)%nat /\ nth_error bones j = Some a /\ In j ks.
Proof.
  intros Hpf A. induction A as [b Hp|b p Hp A IH]; intros i Hi Hk.
  - destruct (ks_closed i b a Hi Hk Hp) as (j & Hj & Hkj).
    exists j. repeat split; auto. exact (Hpf i j b a Hi Hp Hj).
  - destruct (ks_closed i b p Hi Hk Hp) as (j & Hj & Hkj).
    destruct (IH j Hj Hkj) as (j' & Hlt & Hj' & Hkj').
    exists j'. repeat split; auto. assert (L := Hpf i j b p Hi Hp Hj). lia.
Qed.

Lemma ancestor_precedes (a b : Bone) :
  parent_first bones -> exported bones names b -> proper_ancestor a b ->
  precedes names (name a) (name b).
Proof.
  intros Hpf Hb A. destruct (exported_index b Hb) as (i & Hi & Hk).
  destruct (ancestor_index a b Hpf A i Hi Hk) as (j & Hlt & Hj & Hkj).
  destruct (sorted_lt_positions ks j i ks_sorted Hkj Hk Hlt) as (pj & pi & Hp & Hpj & Hpi).
  exists pj, pi. split; [assumption|].
  rewrite !nth_error_map, Hpj, Hpi. simpl. unfold bone_name_at. now rewrite Hi, Hj.
Qed.

End Selected.

Lemma finish_spec_Ok (bones : list Bone) (ks : list nat) (names : list string) :
  finish_spec bones ks = Ok names ->
  names = map (bone_name_at bones) ks /\ (length (filter (is_root_at bones) ks) <= 1)%nat.
Proof.
  unfold finish_spec, len. rewrite length_map.
  destruct (Z.ltb_spec 1 (Z.of_nat (length (filter (is_root_at bones) ks)))) as [H|H];
    intros E; inversion E. split; [reflexivity | lia].
Qed.

Lemma visited_indices_ext (bones : list Bone) (S0 : nat -> Prop) (d d' : dict (option nat)) :
  walk_inv bones S0 [] d -> walk_inv bones S0 [] d' ->
  visited_indices d (length bones) = visited_indices d' (length bones).
Proof.
  intros I I'. apply filter_ext. intros k.
  assert (H := walk_inv_reach bones S0 d k I).
  assert (H' := walk_inv_reach bones S0 d' k I').
  destruct (contains k d), (contains k d'); try reflexivity.
  - symmetry. apply H', H. reflexivity.
  - apply H, H'. reflexivity.
Qed.

(** *** The sample armatures are well formed *)

Lemma chain_object_wf : wf_armature_object chain_object.
Proof.
  split; [reflexivity|split; [split|]].
  - simpl. repeat constructor; simpl; intuition discriminate.
  - simpl. intros b p [<-|[<-|[<-|[]]]] H; inversion H; subst; auto.
  - intros b c [<-|[<-|[<-|[]]]] Hc; simpl in Hc; simpl; intuition (subst; auto).
Qed.

Lemma forest_object_wf : wf_armature_object forest_object.
Proof.
  split; [reflexivity|split; [split|]].
  - simpl. repeat constructor; simpl; intuition discriminate.
  - simpl. intros b p [<-|[<-|[]]] H; inversion H.
  - intros b c [<-|[<-|[]]] Hc; simpl in Hc; simpl; intuition (subst; auto).
Qed.

Lemma chain_parent_first : parent_first (bones (data chain_object)).
Proof.
  intros i j b p Hi Hp Hj. simpl in Hi, Hj.
  destruct i as [|[|[|i]]]; simpl in Hi; inversion Hi; subst; clear Hi;
    try (destruct i; discriminate); inversion Hp; subst; clear Hp;
    destruct j as [|[|[|j]]]; simpl in Hj; inversion Hj; try lia;
    destruct j; discriminate.
Qed.

(** ** The bone selector: results *)

(** A visited bone is there because some bone is explicitly included. *)
Lemma reach_has_seed (bones : list Bone) (seeds : nat -> Prop) (k : nat) :
  reach bones seeds k -> exists s, seeds s.
Proof. intros R. induction R as [s H|k p R IH Hp]; eauto. Qed.

(** C1 (as amended). For a well-formed armature the selector returns the empty list
    exactly when no bone is explicitly included (as for an empty hierarchy); when
    some bone is, it returns names whose parent links form a single tree with
    exactly one root, or fails with the multiple-roots error, whose message carries
    the number and the names of the visited bones without parent. *)
Theorem selector_empty_tree_or_multiple_roots (obj : Object) (mode : string) (idxs : list Z) :
  wf_armature_object obj ->
  let bs := bones (data obj) in
  let seeds := seed_index bs mode idxs (collections_all (data obj)) in
  let r := get_export_bone_names (Some obj) mode idxs in
  (bs = [] -> r = Ok []) /\
  (r = Ok [] <-> forall k, ~ seeds k) /\
  ((r = Ok [] /\ forall k, ~ seeds k) \/
   (exists names, r = Ok names /\ single_tree bs names /\ exists k, seeds k) \/
   (exists roots,
       r = Raise (RuntimeError (multiple_roots_message (len roots) (map name roots))) /\
       (1 < len roots)%Z /\ (exists k, seeds k) /\
       forall x, In x roots <->
                 parent x = None /\ exists k, nth_error bs k = Some x /\ reach bs seeds k)).
Proof.
  intros Hobj bs seeds r.
  destruct (get_export_bone_names_spec obj mode idxs Hobj) as (d & I & E).
  fold bs seeds r in I, E.
  destruct Hobj as (_ & Hwf & _). fold bs in Hwf.
  assert (Hnone : (forall k, ~ seeds k) -> visited_indices d (length bs) = []).
  { intros Hs. destruct (visited_indices d (length bs)) as [|k0 ks'] eqn:Eks; [reflexivity|].
    exfalso. assert (R : reach bs seeds k0).
    { apply (ks_reach bs seeds d I k0). rewrite Eks. left. reflexivity. }
    destruct (reach_has_seed bs seeds k0 R) as (s0 & Hs0). exact (Hs s0 Hs0). }
  assert (Hsome : forall k0, In k0 (visited_indices d (length bs)) -> exists k, seeds k).
  { intros k0 Hk0. apply (reach_has_seed bs seeds k0).
    apply (ks_reach bs seeds d I k0). exact Hk0. }
  split; [|split].
  - intros Hbs. rewrite E, Hbs. reflexivity.
  - rewrite E. split.
    + unfold finish_spec.
      destruct (Z.ltb 1 (len (map (bone_name_at bs)
                                (filter (is_root_at bs) (visited_indices d (length bs))))));
        [discriminate|].
      intros H k Hk. inversion H as [Hm]. apply map_eq_nil in Hm.
      assert (R : In k (visited_indices d (length bs)))
        by (apply (ks_reach bs seeds d I k), reach_seed, Hk).
      rewrite Hm in R. contradiction.
    + intros Hs. rewrite (Hnone Hs). reflexivity.
  - rewrite E. unfold finish_spec.
    set (ks := visited_indices d (length bs)).
    set (roots := filter (is_root_at bs) ks).
    destruct (Z.ltb_spec 1 (len (map (bone_name_at bs) roots))) as [Hgt|Hle].
    + right; right. exists (map (fun i => nth i bs bone_root) roots).
      assert (Hlt : forall k, In k roots -> (k < length bs)%nat).
      { intros k Hk. apply filter_In in Hk. destruct Hk as [Hk _].
        apply (ks_lt bs d k Hk). }
      assert (En : map name (map (fun i => nth i bs bone_root) roots)
                   = map (bone_name_at bs) roots).
      { rewrite map_map. apply map_ext_in. intros k Hk. unfold bone_name_at.
        now rewrite (nth_error_nth' bs bone_root (Hlt k Hk)). }
      assert (El : len (map (fun i => nth i bs bone_root) roots)
                   = len (map (bone_name_at bs) roots))
        by (unfold len; now rewrite !length_map).
      rewrite En, El. split; [reflexivity|split; [assumption|split]].
      { destruct roots as [|k0 roots'] eqn:Er; [simpl in Hgt; unfold len in Hgt; simpl in Hgt; lia|].
        apply (Hsome k0). fold ks.
        assert (Hin : In k0 (filter (is_root_at bs) ks)).
        { fold roots. rewrite Er. left. reflexivity. }
        apply filter_In in Hin. exact (proj1 Hin). }
      intros x. rewrite in_map_iff. split.
      * intros (k & <- & Hk). assert (Hk' := Hk). apply filter_In in Hk'.
        destruct Hk' as [Hks Hroot]. unfold is_root_at in Hroot.
        rewrite (nth_error_nth' bs bone_root (Hlt k Hk)) in Hroot.
        split; [destruct (parent (nth k bs bone_root)); [discriminate|reflexivity]|].
        exists k. split; [apply nth_error_nth'; auto|].
        apply (ks_reach bs seeds d I k), Hks.
      * intros (Hp & k & Hk & R). exists k. split; [eapply nth_error_nth; eauto|].
        apply (root_in_filter bs d k x Hk); [|assumption].
        apply (ks_reach bs seeds d I k), R.
    + destruct ks as [|k0 ks'] eqn:Eks.
      * left. split; [reflexivity|]. intros k Hk.
        assert (R : In k (visited_indices d (length bs)))
          by (apply (ks_reach bs seeds d I k), reach_seed, Hk).
        fold ks in R. rewrite Eks in R. contradiction.
      * right; left. exists (map (bone_name_at bs) (k0 :: ks')). split; [reflexivity|].
        split; [|apply (Hsome k0); fold ks; rewrite Eks; left; reflexivity].
        rewrite <- Eks. apply (at_most_one_root_tree bs Hwf seeds d I).
        -- fold ks. rewrite Eks. fold roots.
           unfold len in Hle. rewrite length_map in Hle. lia.
        -- fold ks. rewrite Eks. discriminate.
Qed.

Lemma selector_empty_tree_or_multiple_roots_witness :
  single_tree (bones (data chain_object)) ["root"; "mid"; "tip"].
Proof.
  destruct (selector_empty_tree_or_multiple_roots chain_object "ALL" [] chain_object_wf)
    as [_ [_ [[H _]|[(names & H & T & _)|(roots & H & _)]]]].
  - vm_compute in H. discriminate H.
  - vm_compute in H. inversion H; subst. exact T.
  - vm_compute in H. discriminate H.
Defined.

(** C1, as stated, fails: with no bone explicitly included, a hierarchy that is not
    empty gives the empty list, which has no root, and no error. *)
Lemma selector_no_selection_counterexample :
  get_export_bone_names (Some chain_object) "BONE_COLLECTIONS" [] = Ok [] /\
  bones (data chain_object) <> [] /\
  ~ single_tree (bones (data chain_object)) [].
Proof.
  split; [reflexivity|split; [discriminate|]].
  intros (r & [_ []] & _).
Qed.

(** C2. Ancestor closure: the source parent of every bone whose name is returned
    is returned as well. *)
Theorem selector_ancestor_closure (obj : Object) (mode : string) (idxs : list Z)
        (names : list string) :
  wf_armature_object obj ->
  get_export_bone_names (Some obj) mode idxs = Ok names ->
  forall b p, In b (bones (data obj)) -> In (name b) names -> parent b = Some p ->
              In p (bones (data obj)) /\ In (name p) names.
Proof.
  intros Hobj E b p Hb Hn Hp.
  destruct (get_export_bone_names_spec obj mode idxs Hobj) as (d & I & E').
  rewrite E' in E. apply finish_spec_Ok in E. destruct E as [-> _].
  destruct Hobj as (_ & Hwf & _).
  apply (exported_parent (bones (data obj)) Hwf _ d I b p); [split|]; assumption.
Qed.

Lemma selector_ancestor_closure_witness :
  In bone_mid (bones (data chain_object)) /\ In "mid" ["root"; "mid"; "tip"].
Proof.
  apply (selector_ancestor_closure chain_object "BONE_COLLECTIONS" [1%Z]
           ["root"; "mid"; "tip"] chain_object_wf eq_refl bone_tip bone_mid).
  - simpl; auto.
  - simpl; auto.
  - reflexivity.
Defined.

(** C8. The returned names are those of the visited bones in increasing hierarchy
    index, the visited bones being the explicitly included ones and their ancestors;
    so the result does not depend on the order in which the worklist is visited: from
    any rearrangement of the worklist the function returns the same. Where parents
    come before their children in the hierarchy, every ancestor of a returned bone
    stands before it in the returned list. *)
Theorem selector_sorted_order_independent (obj : Object) (mode : string) (idxs : list Z) :
  wf_armature_object obj ->
  let bs := bones (data obj) in
  let seeds := seed_index bs mode idxs (collections_all (data obj)) in
  (forall st st',
      seed_loop mode idxs (existsb (Z.eqb (-1)) idxs) (collections_all (data obj))
                (enumerate bs) [] = Ok st ->
      Permutation st st' ->
      export_from_stack bs st' = get_export_bone_names (Some obj) mode idxs) /\
  (forall names,
      get_export_bone_names (Some obj) mode idxs = Ok names ->
      (exists ks, StronglySorted lt ks /\ names = map (bone_name_at bs) ks /\
                  forall k, In k ks <-> reach bs seeds k) /\
      (parent_first bs ->
       forall a b, exported bs names b -> proper_ancestor a b ->
                   precedes names (name a) (name b))).
Proof.
  intros Hobj bs seeds.
  destruct (get_export_bone_names_spec obj mode idxs Hobj) as (d & I & E).
  fold bs seeds in I, E.
  destruct Hobj as (Ht & Hwf & Hc). fold bs in Hwf.
  split.
  - intros st st' Hst P.
    rewrite seed_loop_ok in Hst.
    2:{ intros i b H. apply In_enumerate in H.
        apply collection_indices_ok; [assumption | eapply nth_error_In; eauto]. }
    inversion Hst as [Est]; clear Hst. rewrite app_nil_r in Est.
    assert (Hin : forall i inst, In (i, inst) st <->
                  inst = None /\ exists b, nth_error bs i = Some b /\
                                  is_seed mode idxs (collections_all (data obj)) b = true).
    { intros i inst. rewrite <- Est, <- in_rev, in_map_iff. split.
      - intros ([i' b] & Eq & H). inversion Eq; subst.
        apply filter_In in H. destruct H as [H Hs]. apply In_enumerate in H. eauto.
      - intros (-> & b & Hb & Hs). exists (i, b). split; [reflexivity|].
        apply filter_In. split; [apply In_enumerate|]; assumption. }
    destruct (export_from_stack_spec bs seeds st' Hwf) as (d' & I' & E').
    + intros i inst H. apply (Permutation_in _ (Permutation_sym P)), Hin in H.
      destruct H as (-> & b & Hb & _). split; [|reflexivity].
      apply nth_error_Some. congruence.
    + intros s. unfold seeds, seed_index. split.
      * intros H. exists None. apply (Permutation_in _ P), Hin. auto.
      * intros (inst & H). apply (Permutation_in _ (Permutation_sym P)), Hin in H.
        apply H.
    + rewrite E, E'. f_equal. apply visited_indices_ext with (S0 := seeds); assumption.
  - intros names Hn. rewrite E in Hn. apply finish_spec_Ok in Hn. destruct Hn as [-> _].
    split.
    + exists (visited_indices d (length bs)). split; [apply ks_sorted|split; [reflexivity|]].
      intros k. apply (ks_reach bs seeds d I k).
    + intros Hpf a b Hb A. apply (ancestor_precedes bs Hwf seeds d I a b Hpf Hb A).
Qed.

Lemma selector_sorted_order_independent_witness :
  export_from_stack (bones (data chain_object)) [(0%nat, None); (2%nat, None); (1%nat, None)]
  = Ok ["root"; "mid"; "tip"] /\
  precedes ["root"; "mid"; "tip"] "root" "tip".
Proof.
  destruct (selector_sorted_order_independent chain_object "ALL" [] chain_object_wf)
    as [Hperm Hsorted].
  split.
  - rewrite (Hperm [(2%nat, None); (1%nat, None); (0%nat, None)]
               [(0%nat, None); (2%nat, None); (1%nat, None)] eq_refl).
    + reflexivity.
    + apply perm_trans with [(2%nat, @None nat); (0%nat, None); (1%nat, None)].
      * apply perm_skip, perm_swap.
      * apply perm_swap.
  - destruct (Hsorted ["root"; "mid"; "tip"] eq_refl) as [_ Hprec].
    apply (Hprec chain_parent_first bone_root bone_tip).
    + split; simpl; auto.
    + apply proper_step with bone_mid; [reflexivity|]. apply proper_parent. reflexivity.
Defined.

(** ** The bone transformer *)

(** The position at which line 196 finds the parent of a bone among [bones]. *)
Definition parent_position (bones : list Bone) (bone : Bone) : option nat :=
  match parent bone with
  | Some p => find_index (Bone_eqb p) bones 0
  | None => None
  end.

(** The fields that [children_count += 1] leaves alone. *)
Definition same_but_count (a b : PsxBone) : Prop :=
  psx_name a = psx_name b /\ flags a = flags b /\ parent_index a = parent_index b /\
  location a = location b /\ rotation a = rotation b.

Lemma increment_children_count_Ok (l l' : list PsxBone) (j : nat) :
  increment_children_count l j = Ok l' ->
  (j < length l)%nat /\ length l' = length l /\
  forall k x, nth_error l k = Some x ->
    exists x', nth_error l' k = Some x' /\ same_but_count x x' /\
               children_count x' =
               if Nat.eqb k j then c_int32 (children_count x + 1) else children_count x.
Proof.
  revert l' j; induction l as [|b l IH]; intros l' j H; simpl in H; [discriminate|].
  destruct j as [|j].
  - inversion H; subst; clear H. simpl. split; [lia|split; [reflexivity|]].
    intros [|k] x Hx; simpl in *.
    + inversion Hx; subst. eexists; split; [reflexivity|].
      split; [repeat split|reflexivity].
    + exists x. split; [assumption|]. split; [repeat split|reflexivity].
  - destruct (increment_children_count l j) as [l1| |] eqn:E; simpl in H; inversion H; subst.
    destruct (IH l1 j E) as (Hj & Hlen & Hnth).
    simpl. split; [lia|split; [lia|]].
    intros [|k] x Hx; simpl in *.
    + inversion Hx; subst. exists x. split; [reflexivity|].
      split; [repeat split|reflexivity].
    + apply (Hnth k x Hx).
Qed.

Lemma increment_children_count_lt (l : list PsxBone) (j : nat) :
  (j < length l)%nat -> exists l', increment_children_count l j = Ok l'.
Proof.
  revert j; induction l as [|b l IH]; intros j Hj; simpl in *; [lia|].
  destruct j as [|j]; [eauto|].
  destruct (IH j) as (l' & ->); [lia|]. simpl. eauto.
Qed.

Section TransformerFacts.

Variable encode_windows_1252 : string -> option (list byte).
Variable get_coordinate_system_transform : string -> string -> Matrix4.
Variable Matrix3_to_quaternion : Matrix3 -> Quaternion.
Variable Matrix4_to_quaternion : Matrix4 -> Quaternion.
Variable decompose : Matrix4 -> Vector * Quaternion * Vector.
Variable bones : list Bone.
Variable armature_object_matrix_world : Matrix4.
Variable forward_axis up_axis : string.

Local Abbreviation transform space :=
  (local_transform get_coordinate_system_transform Matrix3_to_quaternion
     Matrix4_to_quaternion space armature_object_matrix_world forward_axis up_axis).
Local Abbreviation scaled scale :=
  (scaled_location decompose armature_object_matrix_world scale).
Local Abbreviation step space scale :=
  (convert_bone encode_windows_1252 get_coordinate_system_transform
     Matrix3_to_quaternion Matrix4_to_quaternion decompose bones space
     armature_object_matrix_world scale forward_axis up_axis).
Local Abbreviation loop space scale :=
  (convert_loop encode_windows_1252 get_coordinate_system_transform
     Matrix3_to_quaternion Matrix4_to_quaternion decompose bones space
     armature_object_matrix_world scale forward_axis up_axis).

(** The record appended for a bone. *)
Definition new_psx_bone (space : string) (scale : R) (bone : Bone)
    (name_bytes : list byte) (tr : Vector * Quaternion) : PsxBone :=
  mkPsxBone name_bytes 0 0
    (c_int32 (match parent_position bones bone with
              | Some j => Z.of_nat j
              | None => 0
              end))
    (scaled scale (fst tr)) (snd tr).

(** One turn of the loop that does not raise. *)
Lemma convert_bone_Ok (space : string) (scale : R) (bone : Bone) (acc acc' : list PsxBone) :
  step space scale bone acc = Ok acc' ->
  exists name_bytes tr acc1,
    encode_windows_1252 (name bone) = Some name_bytes /\
    transform space bone = Ok tr /\
    match parent_position bones bone with
    | Some j => increment_children_count acc j = Ok acc1
    | None => acc1 = acc
    end /\
    acc' = acc1 ++ [new_psx_bone space scale bone name_bytes tr].
Proof.
  unfold convert_bone, new_psx_bone, parent_position. intros H.
  destruct (encode_windows_1252 (name bone)) as [nb|]; simpl in H; [|discriminate].
  destruct (Nat.ltb 64 (length nb)); simpl in H; [discriminate|].
  destruct (match parent bone with
            | Some p => find_index (Bone_eqb p) bones 0
            | None => None
            end) as [j|] eqn:Ej; simpl in H.
  - destruct (increment_children_count acc j) as [acc1| |] eqn:Ei; simpl in H;
      try discriminate.
    destruct (transform space bone) as [tr| |] eqn:Et; simpl in H; try discriminate.
    inversion H; subst. exists nb, tr, acc1. repeat split; auto.
  - destruct (transform space bone) as [tr| |] eqn:Et; simpl in H; try discriminate.
    inversion H; subst. exists nb, tr, acc. repeat split; auto.
Qed.

(** What a run that does not raise leaves for each bone, and for each record that
    was there before. *)
Lemma convert_loop_Ok (space : string) (scale : R) (todo : list Bone) :
  forall acc psx,
    loop space scale todo acc = Ok psx ->
    length psx = (length acc + length todo)%nat /\
    (forall k x, nth_error acc k = Some x ->
                 exists x', nth_error psx k = Some x' /\ same_but_count x x') /\
    (forall i bone, nth_error todo i = Some bone ->
       exists name_bytes tr x,
         encode_windows_1252 (name bone) = Some name_bytes /\
         transform space bone = Ok tr /\
         nth_error psx (length acc + i) = Some x /\
         same_but_count (new_psx_bone space scale bone name_bytes tr) x).
Proof.
  induction todo as [|bone todo IH]; intros acc psx H; simpl in H.
  - inversion H; subst. split; [simpl; lia|split].
    + intros k x Hx. exists x. split; [assumption | repeat split].
    + intros i b Hi. destruct i; discriminate.
  - destruct (step space scale bone acc) as [acc'| |] eqn:Es; simpl in H; try discriminate.
    destruct (convert_bone_Ok space scale bone acc acc' Es)
      as (nb & tr & acc1 & Henc & Htr & Hinc & ->).
    destruct (IH _ _ H) as (Hlen & Hold & Hnew).
    assert (Hacc1 : length acc1 = length acc /\
              forall k x, nth_error acc k = Some x ->
                exists x', nth_error acc1 k = Some x' /\ same_but_count x x').
    { destruct (parent_position bones bone) as [j|].
      - destruct (increment_children_count_Ok _ _ _ Hinc) as (_ & Hl & Hn).
        split; [assumption|]. intros k x Hx.
        destruct (Hn k x Hx) as (x' & Hx' & Hs & _). eauto.
      - subst acc1. split; [reflexivity|]. intros k x Hx. exists x.
        split; [assumption | repeat split]. }
    destruct Hacc1 as [Hl1 Hn1].
    rewrite length_app in Hlen. simpl in Hlen.
    split; [simpl; lia|split].
    + intros k x Hx. destruct (Hn1 k x Hx) as (x1 & Hx1 & S1).
      destruct (Hold k x1) as (x' & Hx' & S').
      { rewrite nth_error_app1; [assumption|]. apply nth_error_Some. congruence. }
      exists x'. split; [assumption|].
      unfold same_but_count in *. intuition congruence.
    + intros [|i] b Hb; simpl in Hb.
      * inversion Hb; subst b.
        destruct (Hold (length acc) (new_psx_bone space scale bone nb tr))
          as (x' & Hx' & S').
        { rewrite nth_error_app2 by lia. rewrite Hl1, Nat.sub_diag. reflexivity. }
        exists nb, tr, x'. rewrite Nat.add_0_r. auto.
      * destruct (Hnew i b Hb) as (nb' & tr' & x & He & Ht & Hx & S').
        exists nb', tr', x. repeat split; auto; try apply S'.
        rewrite length_app, Hl1 in Hx. simpl in Hx.
        replace (length acc + S i)%nat with (length acc + 1 + i)%nat by lia. assumption.
Qed.

End TransformerFacts.

(** *** Sample conversions *)

Definition identity_quaternion : Quaternion := mkQuaternion 1 0 0 0.

(** The sample names are ASCII, which encodes to itself. The samples use the
    default axes, forward X and up Z, whose transform is the identity, and bone
    matrices without rotation, whose quaternion is the identity quaternion. The
    sample world matrices are made of a translation and a scaling along the axes by
    positive factors: such a matrix decomposes into its last column, no rotation,
    and its diagonal. *)
Definition sample_encode (s : string) : option (list byte) := Some (list_byte_of_string s).
Definition sample_transform (_ _ : string) : Matrix4 := Matrix_Identity4.
Definition sample_to_quaternion3 (_ : Matrix3) : Quaternion := identity_quaternion.
Definition sample_to_quaternion4 (_ : Matrix4) : Quaternion := identity_quaternion.
Definition sample_decompose (m : Matrix4) : Vector * Quaternion * Vector :=
  (mkVector (c3 (row0 m)) (c3 (row1 m)) (c3 (row2 m)), identity_quaternion,
   mkVector (c0 (row0 m)) (c1 (row1 m)) (c2 (row2 m))).

Definition sample_convert (bones : list Bone) (export_space : string) (scale : R)
    : result (list PsxBone) :=
  convert_blender_bones_to_psx_bones sample_encode sample_transform sample_to_quaternion3
    sample_to_quaternion4 sample_decompose bones export_space Matrix_Identity4 scale "X" "Z".

(** A child of [bone_root] whose head is one unit along X. *)
Definition bone_child : Bone :=
  mkBone "child" (Some bone_root) (mkVector 1 0 0) (mkVector 2 0 0) identity3 [] 6.

(** *** Scaling *)

Lemma scale_matrix_mul (scale : R) (v : Vector) :
  Matrix4_mul_Vector (scale_matrix scale) v
  = mkVector (scale * vx v) (scale * vy v) (scale * vz v).
Proof.
  unfold Matrix4_mul_Vector, scale_matrix, Matrix_Scale4, row_dot; simpl.
  f_equal; ring.
Qed.

Lemma scaled_location_eq (decompose : Matrix4 -> Vector * Quaternion * Vector)
      (world : Matrix4) (scale : R) (v : Vector) :
  scaled_location decompose world scale v
  = mkVector (scale * vx v * vx (snd (decompose world)))
             (scale * vy v * vy (snd (decompose world)))
             (scale * vz v * vz (snd (decompose world))).
Proof. unfold scaled_location. rewrite scale_matrix_mul. reflexivity. Qed.

Lemma Quaternion_mul_Vector_zero (q : Quaternion) :
  Quaternion_mul_Vector q zero_vector = zero_vector.
Proof.
  unfold Quaternion_mul_Vector, Quaternion_mul, conjugated, zero_vector; simpl.
  f_equal; ring.
Qed.

(** *** When the conversion returns *)

Definition encodable (encode : string -> option (list byte)) (b : Bone) : bool :=
  match encode (name b) with
  | Some name_bytes => Nat.leb (length name_bytes) 64
  | None => false
  end.

(** Every bone stands after the position of its parent. *)
Definition parents_before (bones : list Bone) : bool :=
  forallb (fun ib : nat * Bone =>
             match parent_position bones (snd ib) with
             | Some j => Nat.ltb j (fst ib)
             | None => true
             end) (enumerate bones).

Definition valid_export_space (export_space : string) : bool :=
  String.eqb export_space "WORLD" || String.eqb export_space "ARMATURE".

Definition is_parentless (b : Bone) : bool :=
  match parent b with
  | None => true
  | Some _ => false
  end.

Section TransformerRuns.

Variable encode_windows_1252 : string -> option (list byte).
Variable get_coordinate_system_transform : string -> string -> Matrix4.
Variable Matrix3_to_quaternion : Matrix3 -> Quaternion.
Variable Matrix4_to_quaternion : Matrix4 -> Quaternion.
Variable decompose : Matrix4 -> Vector * Quaternion * Vector.
Variable bones : list Bone.
Variable armature_object_matrix_world : Matrix4.
Variable forward_axis up_axis : string.

Local Abbreviation transform space :=
  (local_transform get_coordinate_system_transform Matrix3_to_quaternion
     Matrix4_to_quaternion space armature_object_matrix_world forward_axis up_axis).
Local Abbreviation step space scale :=
  (convert_bone encode_windows_1252 get_coordinate_system_transform
     Matrix3_to_quaternion Matrix4_to_quaternion decompose bones space
     armature_object_matrix_world scale forward_axis up_axis).
Local Abbreviation loop space scale :=
  (convert_loop encode_windows_1252 get_coordinate_system_transform
     Matrix3_to_quaternion Matrix4_to_quaternion decompose bones space
     armature_object_matrix_world scale forward_axis up_axis).

Lemma local_transform_total (space : string) (bone : Bone) :
  valid_export_space space || negb (is_parentless bone) = true ->
  exists tr, transform space bone = Ok tr.
Proof.
  unfold local_transform, get_armature_local_matrix, valid_export_space, is_parentless.
  destruct (parent bone) as [p|]; [eauto|].
  destruct (String.eqb space "WORLD"); [simpl; eauto|].
  destruct (String.eqb space "ARMATURE"); [simpl; eauto|discriminate].
Qed.

Lemma convert_bone_total (space : string) (scale : R) (bone : Bone) (acc : list PsxBone) :
  encodable encode_windows_1252 bone = true ->
  valid_export_space space || negb (is_parentless bone) = true ->
  (forall j, parent_position bones bone = Some j -> (j < length acc)%nat) ->
  exists acc', step space scale bone acc = Ok acc' /\ length acc' = S (length acc).
Proof.
  unfold encodable, convert_bone. intros He Hs Hj.
  destruct (encode_windows_1252 (name bone)) as [nb|]; [|discriminate]. simpl.
  apply Nat.leb_le in He.
  destruct (Nat.ltb_spec 64 (length nb)) as [L|_]; [lia|]. simpl.
  destruct (local_transform_total space bone Hs) as (tr & Ht).
  fold (parent_position bones bone).
  destruct (parent_position bones bone) as [j|].
  - destruct (increment_children_count_lt acc j (Hj j eq_refl)) as (acc1 & Hi).
    rewrite Hi. simpl. rewrite Ht. simpl. eexists; split; [reflexivity|].
    apply increment_children_count_Ok in Hi. rewrite length_app. simpl. lia.
  - simpl. rewrite Ht. simpl. eexists; split; [reflexivity|].
    rewrite length_app. simpl. lia.
Qed.

Lemma convert_loop_total (space : string) (scale : R) (todo : list Bone) :
  forall acc,
    forallb (encodable encode_windows_1252) todo = true ->
    forallb (fun b => valid_export_space space || negb (is_parentless b)) todo = true ->
    (forall i b j, nth_error todo i = Some b -> parent_position bones b = Some j ->
                   (j < length acc + i)%nat) ->
    exists psx, loop space scale todo acc = Ok psx.
Proof.
  induction todo as [|bone todo IH]; intros acc He Hs Hj; simpl; [eauto|].
  simpl in He, Hs. apply andb_true_iff in He, Hs. destruct He as [He He'], Hs as [Hs Hs'].
  destruct (convert_bone_total space scale bone acc He Hs) as (acc' & -> & Hl).
  { intros j H. specialize (Hj O bone j eq_refl H). lia. }
  simpl. apply IH; auto.
  intros i b j Hb H. specialize (Hj (S i) b j Hb H). lia.
Qed.

End TransformerRuns.

(** The conversion returns when the names can be stored, the export space is one of
    the two, and every parent in the list stands before its children. *)
Lemma convert_total (encode : string -> option (list byte))
      (cst : string -> string -> Matrix4) (q3 : Matrix3 -> Quaternion)
      (q4 : Matrix4 -> Quaternion) (dec : Matrix4 -> Vector * Quaternion * Vector)
      (bones : list Bone) (space : string) (world : Matrix4) (scale : R) (f u : string) :
  forallb (encodable encode) bones = true ->
  forallb (fun b => valid_export_space space || negb (is_parentless b)) bones = true ->
  parents_before bones = true ->
  exists psx,
    convert_blender_bones_to_psx_bones encode cst q3 q4 dec bones space world scale f u
    = Ok psx.
Proof.
  intros He Hs Hp. apply convert_loop_total; auto.
  intros i b j Hb H. simpl. unfold parents_before in Hp.
  rewrite forallb_forall in Hp. specialize (Hp (i, b) (proj2 (In_enumerate bones i b) Hb)).
  simpl in Hp. rewrite H in Hp. apply Nat.ltb_lt in Hp. assumption.
Qed.

(** ** The bone transformer: results *)

(** C6 (as amended). For a bone whose parent is present, the location before scaling
    is [(parent_tail - parent_head) + child_head], the parent's head and tail being
    rotated by the inverse of the parent's rotation and the child's head not; the
    exported location is this vector times the uniform scale and, axis by axis, times
    the scale of the armature object. The exported rotation is the conjugate of the
    bone's own rotation: no axis remap enters. *)
Theorem transformer_non_root_bone (encode : string -> option (list byte))
      (cst : string -> string -> Matrix4) (q3 : Matrix3 -> Quaternion)
      (q4 : Matrix4 -> Quaternion) (dec : Matrix4 -> Vector * Quaternion * Vector)
      (bones : list Bone) (space : string) (world : Matrix4) (scale : R) (f u : string)
      (psx : list PsxBone) (i : nat) (bone p : Bone) :
  convert_blender_bones_to_psx_bones encode cst q3 q4 dec bones space world scale f u
  = Ok psx ->
  nth_error bones i = Some bone -> parent bone = Some p ->
  let inverse_parent_rotation := inverted (q3 (matrix p)) in
  let parent_head := Quaternion_mul_Vector inverse_parent_rotation (head p) in
  let parent_tail := Quaternion_mul_Vector inverse_parent_rotation (tail p) in
  let offset := Vector_add (Vector_sub parent_tail parent_head) (head bone) in
  let object_scale := snd (dec world) in
  exists x,
    nth_error psx i = Some x /\
    location x = mkVector (scale * vx offset * vx object_scale)
                          (scale * vy offset * vy object_scale)
                          (scale * vz offset * vz object_scale) /\
    rotation x = conjugated (q3 (matrix bone)).
Proof.
  intros H Hi Hp. simpl.
  destruct (convert_loop_Ok encode cst q3 q4 dec bones world f u space scale bones [] psx H)
    as (_ & _ & Hnew).
  destruct (Hnew i bone Hi) as (nb & tr & x & _ & Ht & Hx & S).
  exists x. split; [exact Hx|].
  unfold local_transform in Ht. rewrite Hp in Ht. inversion Ht; subst tr; clear Ht.
  destruct S as (_ & _ & _ & Hloc & Hrot). simpl in Hloc, Hrot.
  rewrite <- Hloc, <- Hrot, scaled_location_eq. split; reflexivity.
Qed.

Lemma transformer_non_root_bone_witness :
  exists x, nth_error
              (match sample_convert [bone_root; bone_child] "ARMATURE" 2 with
               | Ok psx => psx
               | _ => []
               end) 1 = Some x /\
            rotation x = conjugated identity_quaternion.
Proof.
  destruct (convert_total sample_encode sample_transform sample_to_quaternion3
              sample_to_quaternion4 sample_decompose [bone_root; bone_child] "ARMATURE"
              Matrix_Identity4 2 "X" "Z" eq_refl eq_refl eq_refl) as (psx & E).
  unfold sample_convert. rewrite E.
  destruct (transformer_non_root_bone sample_encode sample_transform sample_to_quaternion3
              sample_to_quaternion4 sample_decompose [bone_root; bone_child] "ARMATURE"
              Matrix_Identity4 2 "X" "Z" psx 1 bone_child bone_root E eq_refl eq_refl)
    as (x & Hx & _ & Hr).
  exists x. split; [exact Hx | exact Hr].
Defined.

(** C6, as stated, fails: with [scale = 2] the exported location of the child is
    twice [(parent_tail - parent_head) + child_head]. *)
Lemma transformer_non_root_bone_counterexample :
  exists psx x,
    sample_convert [bone_root; bone_child] "ARMATURE" 2 = Ok psx /\
    nth_error psx 1 = Some x /\
    location x = mkVector 2 0 0 /\
    (let q := inverted (sample_to_quaternion3 (matrix bone_root)) in
     Vector_add (Vector_sub (Quaternion_mul_Vector q (tail bone_root))
                            (Quaternion_mul_Vector q (head bone_root)))
                (head bone_child)) = mkVector 1 0 0 /\
    vx (location x) <> 1%R.
Proof.
  eexists. eexists. split; [|split; [|split; [|split]]].
  - unfold sample_convert, convert_blender_bones_to_psx_bones. simpl.
    unfold convert_bone. simpl. unfold local_transform. simpl. reflexivity.
  - reflexivity.
  - simpl. rewrite !Quaternion_mul_Vector_zero, scaled_location_eq. simpl. f_equal; ring.
  - simpl. rewrite !Quaternion_mul_Vector_zero. unfold Vector_add, Vector_sub; simpl.
    f_equal; ring.
  - cbn [location nth_error]. rewrite !Quaternion_mul_Vector_zero, scaled_location_eq.
    simpl. lra.
Qed.

(** *** Doubling the scale *)

Definition doubled_vector (v : Vector) : Vector :=
  mkVector (2 * vx v) (2 * vy v) (2 * vz v).

Definition magnitude (v : Vector) : R :=
  sqrt (vx v * vx v + vy v * vy v + vz v * vz v).

(** The same record but for a location twice as large. *)
Definition doubled (a b : PsxBone) : Prop :=
  psx_name b = psx_name a /\ flags b = flags a /\ children_count b = children_count a /\
  parent_index b = parent_index a /\ rotation b = rotation a /\
  location b = doubled_vector (location a).

(** Two runs end alike: both return, with results related by [P], or both raise the
    same exception. *)
Definition alike {A : Type} (P : A -> A -> Prop) (r1 r2 : result A) : Prop :=
  match r1, r2 with
  | Ok a, Ok b => P a b
  | Raise e1, Raise e2 => e1 = e2
  | _, _ => False
  end.

Lemma magnitude_doubled (v : Vector) : magnitude (doubled_vector v) = (2 * magnitude v)%R.
Proof.
  unfold magnitude, doubled_vector; simpl.
  replace (2 * vx v * (2 * vx v) + 2 * vy v * (2 * vy v) + 2 * vz v * (2 * vz v))%R
    with ((2 * 2) * (vx v * vx v + vy v * vy v + vz v * vz v))%R by ring.
  rewrite sqrt_mult; [|lra|nra].
  rewrite sqrt_square; [reflexivity|lra].
Qed.

Lemma increment_children_count_doubled (l1 l2 : list PsxBone) (j : nat) :
  Forall2 doubled l1 l2 ->
  alike (Forall2 doubled) (increment_children_count l1 j) (increment_children_count l2 j).
Proof.
  intros F. revert j. induction F as [|a b l1 l2 Hab F IH]; intros j; simpl; [reflexivity|].
  destruct j as [|j]; simpl.
  - constructor; [|assumption].
    destruct Hab as (H1 & H2 & H3 & H4 & H5 & H6).
    unfold doubled, set_children_count; simpl. rewrite H3. auto 10.
  - specialize (IH j).
    destruct (increment_children_count l1 j), (increment_children_count l2 j);
      simpl in *; try contradiction; auto.
Qed.

Section Doubling.

Variable encode_windows_1252 : string -> option (list byte).
Variable get_coordinate_system_transform : string -> string -> Matrix4.
Variable Matrix3_to_quaternion : Matrix3 -> Quaternion.
Variable Matrix4_to_quaternion : Matrix4 -> Quaternion.
Variable decompose : Matrix4 -> Vector * Quaternion * Vector.
Variable bones : list Bone.
Variable export_space : string.
Variable armature_object_matrix_world : Matrix4.
Variable forward_axis up_axis : string.

Local Abbreviation step scale :=
  (convert_bone encode_windows_1252 get_coordinate_system_transform
     Matrix3_to_quaternion Matrix4_to_quaternion decompose bones export_space
     armature_object_matrix_world scale forward_axis up_axis).
Local Abbreviation loop scale :=
  (convert_loop encode_windows_1252 get_coordinate_system_transform
     Matrix3_to_quaternion Matrix4_to_quaternion decompose bones export_space
     armature_object_matrix_world scale forward_axis up_axis).

Lemma scaled_location_doubled (s : R) (v : Vector) :
  scaled_location decompose armature_object_matrix_world (2 * s) v
  = doubled_vector (scaled_location decompose armature_object_matrix_world s v).
Proof.
  rewrite !scaled_location_eq. unfold doubled_vector; simpl. f_equal; ring.
Qed.

Lemma local_transform_cases (bone : Bone) :
  (exists tr, local_transform get_coordinate_system_transform Matrix3_to_quaternion
                Matrix4_to_quaternion export_space armature_object_matrix_world
                forward_axis up_axis bone = Ok tr) \/
  (exists e, local_transform get_coordinate_system_transform Matrix3_to_quaternion
               Matrix4_to_quaternion export_space armature_object_matrix_world
               forward_axis up_axis bone = Raise e).
Proof.
  unfold local_transform, get_armature_local_matrix.
  destruct (parent bone); [left; eauto|].
  destruct (String.eqb export_space "WORLD"); [left; simpl; eauto|].
  destruct (String.eqb export_space "ARMATURE"); [left; simpl; eauto|].
  right; simpl; eauto.
Qed.

Lemma convert_bone_doubled (s : R) (bone : Bone) (acc1 acc2 : list PsxBone) :
  Forall2 doubled acc1 acc2 ->
  alike (Forall2 doubled) (step s bone acc1) (step (2 * s) bone acc2).
Proof.
  intros F. unfold convert_bone.
  destruct (encode_windows_1252 (name bone)) as [nb|]; simpl; [|reflexivity].
  destruct (Nat.ltb 64 (length nb)); simpl; [reflexivity|].
  assert (Happ : forall a1 a2 x1 x2, Forall2 doubled a1 a2 -> doubled x1 x2 ->
                   Forall2 doubled (a1 ++ [x1]) (a2 ++ [x2])).
  { intros a1 a2 x1 x2 Fa Hx. apply Forall2_app; [assumption|]. constructor; auto. }
  destruct (match parent bone with
            | Some p => find_index (Bone_eqb p) bones 0
            | None => None
            end) as [j|]; simpl.
  - assert (Hi := increment_children_count_doubled acc1 acc2 j F).
    destruct (increment_children_count acc1 j) as [a1|e1|],
             (increment_children_count acc2 j) as [a2|e2|];
      simpl in *; try contradiction; auto.
    destruct (local_transform_cases bone) as [(tr & ->)|(e & ->)]; simpl; auto.
    apply Happ; [assumption|].
    unfold doubled; simpl. rewrite scaled_location_doubled. auto 10.
  - destruct (local_transform_cases bone) as [(tr & ->)|(e & ->)]; simpl; auto.
    apply Happ; [assumption|].
    unfold doubled; simpl. rewrite scaled_location_doubled. auto 10.
Qed.

Lemma convert_loop_doubled (s : R) (todo : list Bone) :
  forall acc1 acc2,
    Forall2 doubled acc1 acc2 ->
    alike (Forall2 doubled) (loop s todo acc1) (loop (2 * s) todo acc2).
Proof.
  induction todo as [|bone todo IH]; intros acc1 acc2 F; simpl; [assumption|].
  assert (Hs := convert_bone_doubled s bone acc1 acc2 F).
  destruct (step s bone acc1) as [a1|e1|], (step (2 * s) bone acc2) as [a2|e2|];
    simpl in *; try contradiction; auto.
Qed.

End Doubling.

(** C9. With everything else fixed, running the transformer with scale [2 * s]
    instead of [s] ends the same way; when it returns, every bone's location is
    exactly twice what it was, so its magnitude doubles, and every rotation (with
    name, flags, child count and parent index) is unchanged. *)
Theorem transformer_scale_doubling (encode : string -> option (list byte))
      (cst : string -> string -> Matrix4) (q3 : Matrix3 -> Quaternion)
      (q4 : Matrix4 -> Quaternion) (dec : Matrix4 -> Vector * Quaternion * Vector)
      (bones : list Bone) (space : string) (world : Matrix4) (s : R) (f u : string) :
  alike
    (Forall2 (fun a b =>
                location b = doubled_vector (location a) /\
                magnitude (location b) = (2 * magnitude (location a))%R /\
                rotation b = rotation a /\
                psx_name b = psx_name a /\ flags b = flags a /\
                children_count b = children_count a /\ parent_index b = parent_index a))
    (convert_blender_bones_to_psx_bones encode cst q3 q4 dec bones space world s f u)
    (convert_blender_bones_to_psx_bones encode cst q3 q4 dec bones space world (2 * s) f u).
Proof.
  unfold convert_blender_bones_to_psx_bones.
  assert (H := convert_loop_doubled encode cst q3 q4 dec bones space world f u s bones
                 [] [] (Forall2_nil _)).
  destruct (convert_loop encode cst q3 q4 dec bones space world s f u bones []) as [l1|e1|],
           (convert_loop encode cst q3 q4 dec bones space world (2 * s) f u bones [])
             as [l2|e2|]; simpl in *; try contradiction; auto.
  eapply Forall2_impl; [|exact H].
  intros a b (H1 & H2 & H3 & H4 & H5 & H6).
  rewrite H6, magnitude_doubled. auto 10.
Qed.

(** The doubling is not vacuous: the chain with a child off the origin is converted
    at both scales. *)
Example transformer_scale_doubling_run :
  exists l1 l2,
    sample_convert [bone_root; bone_child] "WORLD" 1 = Ok l1 /\
    sample_convert [bone_root; bone_child] "WORLD" (2 * 1) = Ok l2 /\
    map (fun b => vx (location b)) l1 = [0; 1]%R /\
    map (fun b => vx (location b)) l2 = [0; 2]%R.
Proof.
  eexists. eexists. split; [|split; [|split]].
  - unfold sample_convert, convert_blender_bones_to_psx_bones. simpl.
    unfold convert_bone. simpl. unfold local_transform. simpl. reflexivity.
  - unfold sample_convert, convert_blender_bones_to_psx_bones. simpl.
    unfold convert_bone. simpl. unfold local_transform. simpl. reflexivity.
  - cbn [map location]. rewrite !Quaternion_mul_Vector_zero, !scaled_location_eq.
    unfold row_dot, Matrix4_mul_Vector, Matrix_Identity4, zero_vector; simpl.
    unfold row_dot; simpl. repeat apply f_equal2; try reflexivity; ring.
  - cbn [map location]. rewrite !Quaternion_mul_Vector_zero, !scaled_location_eq.
    unfold row_dot, Matrix4_mul_Vector, Matrix_Identity4, zero_vector; simpl.
    unfold row_dot; simpl. repeat apply f_equal2; try reflexivity; ring.
Qed.

(** *** Parent indices and child counts *)

Lemma c_int32_small (z : Z) : (0 <= z < 2 ^ 31)%Z -> c_int32 z = z.
Proof.
  intros H. unfold c_int32. rewrite Z.mod_small; lia.
Qed.

(** [c] finds its parent at position [j] of [bones]. *)
Definition child_at (bones : list Bone) (j : nat) (c : Bone) : bool :=
  match parent_position bones c with
  | Some k => Nat.eqb k j
  | None => false
  end.

(** [bone] is the parent of [c]: the parent of [c] and [bone] are one bone. *)
Definition is_child_of (bone c : Bone) : bool :=
  match parent c with
  | Some p => Bone_eqb p bone
  | None => false
  end.

(** In a list that holds no bone twice, the first bone equal to [p] is the only
    one. *)
Lemma find_index_bone (bones : list Bone) (i : nat) (bone p : Bone) :
  NoDup (map as_pointer bones) -> nth_error bones i = Some bone ->
  Bone_eqb p bone = true -> find_index (Bone_eqb p) bones 0 = Some i.
Proof.
  intros Hnd Hi E. apply (find_index_first (Bone_eqb p) bones i bone Hi E).
  intros k b Hk Hb. destruct (Bone_eqb p b) eqn:E'; [|reflexivity].
  unfold Bone_eqb in E, E'. apply Z.eqb_eq in E, E'.
  assert (k = i); [|lia].
  apply (proj1 (NoDup_nth_error (map as_pointer bones)) Hnd).
  - rewrite length_map. apply nth_error_Some. congruence.
  - rewrite !nth_error_map, Hi, Hb. simpl. congruence.
Qed.

Lemma child_at_is_child_of (bones : list Bone) (i : nat) (bone c : Bone) :
  NoDup (map as_pointer bones) -> nth_error bones i = Some bone ->
  child_at bones i c = is_child_of bone c.
Proof.
  intros Hnd Hi. unfold child_at, is_child_of, parent_position.
  destruct (parent c) as [p|]; [|reflexivity].
  destruct (Bone_eqb p bone) eqn:E.
  - rewrite (find_index_bone bones i bone p Hnd Hi E). apply Nat.eqb_refl.
  - destruct (find_index (Bone_eqb p) bones 0) as [k|] eqn:F; [|reflexivity].
    destruct (Nat.eqb_spec k i) as [->|]; [|reflexivity].
    destruct (find_index_Some _ _ _ F) as (b & Hb & Hp & _). congruence.
Qed.

Section ChildCounts.

Variable encode_windows_1252 : string -> option (list byte).
Variable get_coordinate_system_transform : string -> string -> Matrix4.
Variable Matrix3_to_quaternion : Matrix3 -> Quaternion.
Variable Matrix4_to_quaternion : Matrix4 -> Quaternion.
Variable decompose : Matrix4 -> Vector * Quaternion * Vector.
Variable bones : list Bone.
Variable export_space : string.
Variable armature_object_matrix_world : Matrix4.
Variable scale : R.
Variable forward_axis up_axis : string.

Local Abbreviation step :=
  (convert_bone encode_windows_1252 get_coordinate_system_transform
     Matrix3_to_quaternion Matrix4_to_quaternion decompose bones export_space
     armature_object_matrix_world scale forward_axis up_axis).
Local Abbreviation loop :=
  (convert_loop encode_windows_1252 get_coordinate_system_transform
     Matrix3_to_quaternion Matrix4_to_quaternion decompose bones export_space
     armature_object_matrix_world scale forward_axis up_axis).

Definition count_before (acc : list PsxBone) (k : nat) : Z :=
  match nth_error acc k with
  | Some x => children_count x
  | None => 0
  end.

(** Each record ends with the count it had plus one for each bone converted since
    that found its parent at the record's position. *)
Lemma convert_loop_children (todo : list Bone) :
  forall acc psx,
    loop todo acc = Ok psx ->
    (Z.of_nat (length todo) < 2 ^ 31)%Z ->
    (forall k x, nth_error acc k = Some x ->
                 (0 <= children_count x /\
                  children_count x + Z.of_nat (length todo) < 2 ^ 31)%Z) ->
    forall k x', nth_error psx k = Some x' ->
      children_count x'
      = (count_before acc k + Z.of_nat (length (filter (child_at bones k) todo)))%Z.
Proof.
  induction todo as [|bone todo IH]; intros acc psx H Hlen Hacc k x' Hx'; simpl in H.
  - inversion H; subst. unfold count_before. rewrite Hx'. simpl. lia.
  - destruct (step bone acc) as [acc'| |] eqn:Es; simpl in H; try discriminate.
    destruct (convert_bone_Ok _ _ _ _ _ _ _ _ _ _ _ _ _ _ Es)
      as (nb & tr & acc1 & _ & _ & Hinc & ->).
    simpl length in Hlen, Hacc.
    assert (Hstep : length acc1 = length acc /\
              (forall j, parent_position bones bone = Some j -> (j < length acc)%nat) /\
              forall k, (k < length acc)%nat ->
                (0 <= count_before acc1 k /\
                 count_before acc1 k + Z.of_nat (length todo) < 2 ^ 31)%Z /\
                count_before acc1 k
                = (count_before acc k + if child_at bones k bone then 1 else 0)%Z).
    { unfold child_at. destruct (parent_position bones bone) as [j|].
      - destruct (increment_children_count_Ok _ _ _ Hinc) as (Hj & Hl & Hn).
        split; [assumption|split; [intros j' E; inversion E; subst; assumption|]].
        intros k0 Hk0. unfold count_before.
        destruct (nth_error acc k0) as [x|] eqn:Hx;
          [|apply nth_error_None in Hx; lia].
        destruct (Hn k0 x Hx) as (x1 & -> & _ & Hc). rewrite Hc.
        destruct (Hacc k0 x Hx) as [H0 H1].
        rewrite (Nat.eqb_sym j k0).
        destruct (Nat.eqb k0 j); [rewrite c_int32_small|]; lia.
      - subst acc1. split; [reflexivity|split; [discriminate|]].
        intros k0 Hk0. unfold count_before.
        destruct (nth_error acc k0) as [x|] eqn:Hx;
          [|apply nth_error_None in Hx; lia].
        destruct (Hacc k0 x Hx). lia. }
    destruct Hstep as (Hl1 & Hpos & Hcnt).
    rewrite (IH _ _ H) with (k := k) (x' := x'); [| lia | | assumption].
    + simpl filter.
      assert (Hfar : (length acc <= k)%nat -> child_at bones k bone = false).
      { intros Hk. unfold child_at.
        destruct (parent_position bones bone) as [j|] eqn:Ej; [|reflexivity].
        specialize (Hpos j eq_refl). apply Nat.eqb_neq. lia. }
      destruct (Nat.lt_ge_cases k (length acc)) as [Hk|Hk].
      * destruct (Hcnt k Hk) as [_ Ec].
        unfold count_before in *. rewrite nth_error_app1 by lia. rewrite Ec.
        destruct (child_at bones k bone); simpl length; lia.
      * rewrite (Hfar Hk). unfold count_before.
        assert (nth_error acc k = None) as -> by (apply nth_error_None; lia).
        destruct (Nat.eq_dec k (length acc)) as [->|Hne].
        -- rewrite nth_error_app2 by lia. rewrite Hl1, Nat.sub_diag. reflexivity.
        -- assert (nth_error (acc1 ++ [new_psx_bone decompose bones
                     armature_object_matrix_world export_space scale bone nb tr]) k = None)
             as ->; [|reflexivity].
           apply nth_error_None. rewrite length_app. simpl. lia.
    + intros k0 x Hx.
      destruct (Nat.lt_ge_cases k0 (length acc)) as [Hk|Hk].
      * destruct (Hcnt k0 Hk) as [Hb _]. unfold count_before in Hb.
        rewrite nth_error_app1 in Hx by lia. rewrite Hx in Hb. lia.
      * rewrite nth_error_app2 in Hx by lia. rewrite Hl1 in Hx.
        destruct (k0 - length acc)%nat as [|m]; simpl in Hx;
          [|destruct m; discriminate].
        inversion Hx; subst x. simpl. lia.
Qed.

End ChildCounts.

(** C10. When the conversion returns, a bone whose parent is not an element of the
    input list (as every bone without parent) has [parent_index = 0], and the
    [children_count] of every exported bone is the number of input bones whose
    parent it is: a bone that only shares the index 0 adds nothing to the count of
    bone 0, nor does a bone whose parent is another bone of the same name. Being the
    parent and being an element are meant of the bone objects, as [bones.index]
    compares them; no bone is listed twice, and the list is shorter than 2^31, the
    range of the count field. *)
Theorem transformer_children_count (encode : string -> option (list byte))
      (cst : string -> string -> Matrix4) (q3 : Matrix3 -> Quaternion)
      (q4 : Matrix4 -> Quaternion) (dec : Matrix4 -> Vector * Quaternion * Vector)
      (bones : list Bone) (space : string) (world : Matrix4) (scale : R) (f u : string)
      (psx : list PsxBone) :
  NoDup (map as_pointer bones) -> (len bones < 2 ^ 31)%Z ->
  convert_blender_bones_to_psx_bones encode cst q3 q4 dec bones space world scale f u
  = Ok psx ->
  length psx = length bones /\
  forall i bone x, nth_error bones i = Some bone -> nth_error psx i = Some x ->
    ((forall p, parent bone = Some p -> forall b, In b bones -> Bone_eqb p b = false) ->
     parent_index x = 0%Z) /\
    children_count x = Z.of_nat (length (filter (is_child_of bone) bones)).
Proof.
  intros Hnd Hlen H. unfold convert_blender_bones_to_psx_bones in H.
  destruct (convert_loop_Ok encode cst q3 q4 dec bones world f u space scale bones [] psx H)
    as (Hl & _ & Hnew).
  split; [simpl in Hl; exact Hl|].
  intros i bone x Hi Hx. split.
  - intros Habsent.
    destruct (Hnew i bone Hi) as (nb & tr & x' & _ & _ & Hx' & S).
    simpl in Hx'. rewrite Hx in Hx'. inversion Hx'; subst x'.
    destruct S as (_ & _ & Hpi & _). rewrite <- Hpi. simpl.
    unfold parent_position. destruct (parent bone) as [p|] eqn:Hp; [|reflexivity].
    destruct (find_index (Bone_eqb p) bones 0) as [j|] eqn:F; [|reflexivity].
    exfalso. destruct (find_index_Some _ _ _ F) as (b & Hb & Hpb & _).
    rewrite (Habsent p eq_refl b (nth_error_In _ _ Hb)) in Hpb. discriminate.
  - rewrite (convert_loop_children encode cst q3 q4 dec bones space world scale f u
               bones [] psx H Hlen) with (k := i) (x' := x); [| |assumption].
    + unfold count_before.
      rewrite (filter_ext (child_at bones i) (is_child_of bone))
        by (intros c; apply child_at_is_child_of; assumption).
      destruct i; reflexivity.
    + intros k y Hy. destruct k; discriminate.
Qed.

Lemma transformer_children_count_witness :
  match sample_convert (bones (data chain_object)) "WORLD" 1 with
  | Ok psx => map children_count psx = [1; 1; 0]%Z /\ map parent_index psx = [0; 0; 1]%Z
  | _ => False
  end.
Proof.
  destruct (convert_total sample_encode sample_transform sample_to_quaternion3
              sample_to_quaternion4 sample_decompose (bones (data chain_object)) "WORLD"
              Matrix_Identity4 1 "X" "Z" eq_refl eq_refl eq_refl) as (psx & E).
  unfold sample_convert. rewrite E.
  assert (Hnd : NoDup (map as_pointer (bones (data chain_object))))
    by (simpl; repeat constructor; simpl; intuition discriminate).
  destruct (transformer_children_count sample_encode sample_transform sample_to_quaternion3
              sample_to_quaternion4 sample_decompose (bones (data chain_object)) "WORLD"
              Matrix_Identity4 1 "X" "Z" psx Hnd eq_refl E) as (Hl & Hc).
  destruct psx as [|x0 [|x1 [|x2 [|x3 psx]]]]; simpl in Hl; try discriminate.
  destruct (Hc 0%nat bone_root x0 eq_refl eq_refl) as [Hp0 Hc0].
  destruct (Hc 1%nat bone_mid x1 eq_refl eq_refl) as [_ Hc1].
  destruct (Hc 2%nat bone_tip x2 eq_refl eq_refl) as [_ Hc2].
  simpl. rewrite Hc0, Hc1, Hc2, Hp0 by discriminate.
  vm_compute in E. inversion E; subst. split; reflexivity.
Defined.

(** Another bone named "root", of another armature, and a child of it. *)
Definition bone_other_root : Bone := sample_bone 7 "root" None [].
Definition bone_stray : Bone :=
  mkBone "stray" (Some bone_other_root) (mkVector 1 0 0) (mkVector 2 0 0) identity3 [] 8.

(** A bone whose parent is not in the list, but has the name of a listed bone: the
    listed bone is not counted as its parent. *)
Example transformer_parent_of_same_name :
  match sample_convert [bone_root; bone_stray] "WORLD" 1 with
  | Ok psx => map children_count psx = [0; 0]%Z /\ map parent_index psx = [0; 0]%Z
  | _ => False
  end.
Proof.
  destruct (convert_total sample_encode sample_transform sample_to_quaternion3
              sample_to_quaternion4 sample_decompose [bone_root; bone_stray] "WORLD"
              Matrix_Identity4 1 "X" "Z" eq_refl eq_refl eq_refl) as (psx & E).
  unfold sample_convert. rewrite E.
  vm_compute in E. inversion E; subst. split; reflexivity.
Qed.

(** *** Configuration values *)

Definition invalid_export_space_error (export_space : string) : exn :=
  ValueError [Lit "Invalid export space: "; Str export_space].

Lemma increment_children_count_Raise (l : list PsxBone) (j : nat) (e : exn) :
  increment_children_count l j = Raise e -> e = IndexError [Lit "list index out of range"].
Proof.
  revert j; induction l as [|b l IH]; intros j H; simpl in H.
  - inversion H; reflexivity.
  - destruct j as [|j]; [discriminate|].
    destruct (increment_children_count l j) eqn:E; simpl in H; try discriminate.
    inversion H; subst. eapply IH; eauto.
Qed.

Lemma increment_children_count_returns (l : list PsxBone) (j : nat) :
  increment_children_count l j <> Diverge.
Proof.
  revert j; induction l as [|b l IH]; intros j; simpl; [discriminate|].
  destruct j as [|j]; [discriminate|].
  specialize (IH j). destruct (increment_children_count l j); simpl; congruence.
Qed.

Lemma seed_loop_mode (m1 m2 : string) (idxs : list Z) (u : bool)
      (colls : list BoneCollection) (items : list (nat * Bone)) :
  String.eqb m1 "ALL" = String.eqb m2 "ALL" ->
  forall acc, seed_loop m1 idxs u colls items acc = seed_loop m2 idxs u colls items acc.
Proof.
  intros E. induction items as [|[i b] items IH]; intros acc; simpl; [reflexivity|].
  destruct (mapM (index BoneCollection_eqb colls) (collections b)); simpl; try reflexivity.
  rewrite E, !IH. reflexivity.
Qed.

Section ExportSpace.

Variable encode_windows_1252 : string -> option (list byte).
Variable get_coordinate_system_transform : string -> string -> Matrix4.
Variable Matrix3_to_quaternion : Matrix3 -> Quaternion.
Variable Matrix4_to_quaternion : Matrix4 -> Quaternion.
Variable decompose : Matrix4 -> Vector * Quaternion * Vector.
Variable bones : list Bone.
Variable armature_object_matrix_world : Matrix4.
Variable scale : R.
Variable forward_axis up_axis : string.

Local Abbreviation transform space :=
  (local_transform get_coordinate_system_transform Matrix3_to_quaternion
     Matrix4_to_quaternion space armature_object_matrix_world forward_axis up_axis).
Local Abbreviation step space :=
  (convert_bone encode_windows_1252 get_coordinate_system_transform
     Matrix3_to_quaternion Matrix4_to_quaternion decompose bones space
     armature_object_matrix_world scale forward_axis up_axis).
Local Abbreviation loop space :=
  (convert_loop encode_windows_1252 get_coordinate_system_transform
     Matrix3_to_quaternion Matrix4_to_quaternion decompose bones space
     armature_object_matrix_world scale forward_axis up_axis).

Lemma local_transform_with_parent (s1 s2 : string) (bone : Bone) :
  is_parentless bone = false -> transform s1 bone = transform s2 bone.
Proof.
  unfold local_transform, is_parentless. destruct (parent bone); [reflexivity|discriminate].
Qed.

Lemma local_transform_invalid (space : string) (bone : Bone) :
  valid_export_space space = false -> is_parentless bone = true ->
  transform space bone = Raise (invalid_export_space_error space).
Proof.
  unfold local_transform, get_armature_local_matrix, valid_export_space, is_parentless.
  intros Hv Hp. destruct (parent bone); [discriminate|].
  apply orb_false_iff in Hv. destruct Hv as [-> ->]. reflexivity.
Qed.

Lemma convert_bone_with_parent (s1 s2 : string) (bone : Bone) (acc : list PsxBone) :
  is_parentless bone = false -> step s1 bone acc = step s2 bone acc.
Proof.
  intros Hp. unfold convert_bone.
  rewrite (local_transform_with_parent s1 s2 bone Hp). reflexivity.
Qed.

Lemma convert_loop_with_parents (s1 s2 : string) (todo : list Bone) :
  existsb is_parentless todo = false ->
  forall acc, loop s1 todo acc = loop s2 todo acc.
Proof.
  induction todo as [|bone todo IH]; intros H acc; simpl; [reflexivity|].
  simpl in H. apply orb_false_iff in H. destruct H as [Hb Ht].
  rewrite (convert_bone_with_parent s1 s2 bone acc Hb).
  destruct (step s2 bone acc); simpl; auto.
Qed.

Lemma convert_bone_returns (space : string) (bone : Bone) (acc : list PsxBone) :
  step space bone acc <> Diverge.
Proof.
  unfold convert_bone.
  destruct (encode_windows_1252 (name bone)) as [nb|]; simpl; [|discriminate].
  destruct (Nat.ltb 64 (length nb)); simpl; [discriminate|].
  assert (T : forall k : Vector * Quaternion -> result (list PsxBone),
            (forall tr, k tr <> Diverge) -> bind (transform space bone) k <> Diverge).
  { intros k Hk. unfold local_transform, get_armature_local_matrix.
    destruct (parent bone); simpl; [apply Hk|].
    destruct (String.eqb space "WORLD"); simpl; [apply Hk|].
    destruct (String.eqb space "ARMATURE"); simpl; [apply Hk|discriminate]. }
  destruct (match parent bone with
            | Some p => find_index (Bone_eqb p) bones 0
            | None => None
            end) as [j|]; simpl.
  - assert (Hi := increment_children_count_returns acc j).
    destruct (increment_children_count acc j); simpl; try congruence.
    apply T. discriminate.
  - apply T. discriminate.
Qed.

Lemma convert_loop_returns (space : string) (todo : list Bone) :
  forall acc, loop space todo acc <> Diverge.
Proof.
  induction todo as [|bone todo IH]; intros acc; simpl; [discriminate|].
  assert (Hs := convert_bone_returns space bone acc).
  destruct (step space bone acc); simpl; [apply IH|discriminate|congruence].
Qed.

Lemma convert_bone_invalid_space (space : string) (bone : Bone) (acc : list PsxBone) :
  step space bone acc = Raise (invalid_export_space_error space) ->
  is_parentless bone = true.
Proof.
  unfold convert_bone, is_parentless, invalid_export_space_error. intros H.
  destruct (encode_windows_1252 (name bone)) as [nb|]; simpl in H; [|discriminate].
  destruct (Nat.ltb 64 (length nb)); simpl in H; [discriminate|].
  unfold local_transform in H.
  destruct (parent bone) as [p|]; [|reflexivity].
  destruct (find_index (Bone_eqb p) bones 0) as [j|]; simpl in H; [|discriminate].
  destruct (increment_children_count acc j) eqn:Ei; simpl in H; try discriminate.
  apply increment_children_count_Raise in Ei. congruence.
Qed.

Lemma convert_loop_invalid_space (space : string) (todo : list Bone) :
  forall acc, loop space todo acc = Raise (invalid_export_space_error space) ->
              existsb is_parentless todo = true.
Proof.
  induction todo as [|bone todo IH]; intros acc H; simpl in H; [discriminate|].
  simpl. apply orb_true_iff.
  destruct (step space bone acc) eqn:Es; simpl in H.
  - right. eapply IH; eauto.
  - left. inversion H; subst. eapply convert_bone_invalid_space; eauto.
  - discriminate.
Qed.

Lemma convert_loop_rejects (space : string) (todo : list Bone) (acc : list PsxBone) :
  valid_export_space space = false -> existsb is_parentless todo = true ->
  exists e, loop space todo acc = Raise e.
Proof.
  intros Hv Hp. destruct (loop space todo acc) as [psx|e|] eqn:E; [|eauto|].
  - exfalso.
    destruct (convert_loop_Ok encode_windows_1252 get_coordinate_system_transform
                Matrix3_to_quaternion Matrix4_to_quaternion decompose bones
                armature_object_matrix_world forward_axis up_axis space scale
                todo acc psx E) as (_ & _ & Hnew).
    apply existsb_exists in Hp. destruct Hp as (b & Hb & Hpb).
    destruct (In_nth_error _ _ Hb) as [i Hi].
    destruct (Hnew i b Hi) as (nb & tr & x & _ & Ht & _).
    rewrite (local_transform_invalid space b Hv Hpb) in Ht. discriminate.
  - exfalso. exact (convert_loop_returns space todo acc E).
Qed.

End ExportSpace.

(** C7 (as amended). Neither value is checked before the work starts. The selector
    rejects no [bone_filter_mode]: every mode other than 'ALL' is treated as
    'BONE_COLLECTIONS'. The transformer looks at [export_space] only when it reaches
    a bone without parent: for a value other than 'WORLD' and 'ARMATURE' it then fails
    (some run fails in any case once the list has such a bone), and a list without
    such a bone is converted as for 'WORLD'; the invalid-export-space error is raised
    only if the list has a bone without parent, and it is what a list gets whose first
    bone has no parent and a name that can be stored. *)
Theorem configuration_values_checked_late :
  (forall obj mode idxs,
      get_export_bone_names obj mode idxs
      = get_export_bone_names obj
          (if String.eqb mode "ALL" then "ALL" else "BONE_COLLECTIONS") idxs) /\
  (forall encode cst q3 q4 dec bones space world scale f u,
      valid_export_space space = false ->
      let r := convert_blender_bones_to_psx_bones encode cst q3 q4 dec bones space world
                 scale f u in
      (existsb is_parentless bones = false ->
       r = convert_blender_bones_to_psx_bones encode cst q3 q4 dec bones "WORLD" world
             scale f u) /\
      (existsb is_parentless bones = true -> exists e, r = Raise e) /\
      (r = Raise (invalid_export_space_error space) ->
       existsb is_parentless bones = true) /\
      (forall b rest, bones = b :: rest -> is_parentless b = true ->
                      encodable encode b = true ->
                      r = Raise (invalid_export_space_error space))).
Proof.
  split.
  - intros [obj|] mode idxs; [|reflexivity]. unfold get_export_bone_names.
    destruct (negb (String.eqb (type obj) "ARMATURE")); [reflexivity|].
    rewrite (seed_loop_mode mode (if String.eqb mode "ALL" then "ALL" else "BONE_COLLECTIONS"));
      [reflexivity|].
    destruct (String.eqb mode "ALL") eqn:E; reflexivity.
  - intros encode cst q3 q4 dec bones space world scale f u Hv r. subst r.
    unfold convert_blender_bones_to_psx_bones. repeat split.
    + intros Hp. apply convert_loop_with_parents; assumption.
    + intros Hp. apply convert_loop_rejects; assumption.
    + apply convert_loop_invalid_space.
    + intros b rest -> Hb He. simpl. unfold convert_bone.
      unfold encodable in He.
      destruct (encode (name b)) as [nb|]; [|discriminate]. simpl.
      apply Nat.leb_le in He.
      destruct (Nat.ltb_spec 64 (length nb)) as [L|_]; [lia|]. simpl.
      rewrite (local_transform_invalid cst q3 q4 world f u space b Hv Hb).
      unfold is_parentless in Hb. destruct (parent b); [discriminate|]. reflexivity.
Qed.

Lemma configuration_values_checked_late_witness :
  get_export_bone_names (Some chain_object) "FOO" [0%Z]
  = get_export_bone_names (Some chain_object) "BONE_COLLECTIONS" [0%Z] /\
  sample_convert [bone_child] "FOO" 1 = sample_convert [bone_child] "WORLD" 1 /\
  exists e, sample_convert [bone_root; bone_child] "FOO" 1 = Raise e.
Proof.
  destruct configuration_values_checked_late as [Hmode Hspace].
  split; [exact (Hmode (Some chain_object) "FOO" [0%Z])|].
  destruct (Hspace sample_encode sample_transform sample_to_quaternion3
              sample_to_quaternion4 sample_decompose [bone_child] "FOO" Matrix_Identity4
              1%R "X" "Z" eq_refl) as (H1 & _ & _ & _).
  destruct (Hspace sample_encode sample_transform sample_to_quaternion3
              sample_to_quaternion4 sample_decompose [bone_root; bone_child] "FOO"
              Matrix_Identity4 1%R "X" "Z" eq_refl) as (_ & H2 & _ & _).
  split; [exact (H1 eq_refl) | exact (H2 eq_refl)].
Defined.

(** C7, as stated, fails: an unknown filter mode is served as the bone-collections
    mode, and an unknown export space is accepted as long as no bone without parent
    is converted. *)
Lemma configuration_values_counterexample :
  get_export_bone_names (Some chain_object) "FOO" [0%Z] = Ok ["root"; "mid"] /\
  get_export_bone_names (Some chain_object) "BONE_COLLECTIONS" [0%Z] = Ok ["root"; "mid"] /\
  sample_convert [] "FOO" 1 = Ok [] /\
  exists psx, sample_convert [bone_child] "FOO" 1 = Ok psx.
Proof.
  split; [reflexivity|split; [reflexivity|split; [reflexivity|]]].
  eexists. unfold sample_convert, convert_blender_bones_to_psx_bones. simpl.
  unfold convert_bone. simpl. unfold local_transform. simpl. reflexivity.
Qed.

(** ** The section writer *)

Import Exporter.

(** The bytes of one section: the 28-byte header, then the packed records. *)
Definition section_image (name : string) (size count : nat) (payload : list byte) : list byte :=
  SectionHeader_bytes
    (mkSectionHeader (list_byte_of_string name) (c_int32 (Z.of_nat size))
                     (c_int32 (Z.of_nat count)))
  ++ payload.

(** The records of a list, packed one after the other. *)
Definition packed {T : Type} `{Structure T} (data : list T) : list byte :=
  concat (map to_bytes data).

Lemma packed_length {T : Type} `{Structure T} (data : list T) :
  length (packed data) = (sizeof * length data)%nat.
Proof.
  unfold packed. induction data as [|a data IH]; simpl; [lia|].
  rewrite length_app, to_bytes_length, IH. lia.
Qed.

Lemma write_each_run {T : Type} `{Structure T} (data : list T) (fp : list byte) :
  write_each data fp = (fp ++ packed data, Ok tt).
Proof.
  unfold packed. revert fp; induction data as [|a data IH]; intros fp; simpl.
  - unfold io_ret. now rewrite app_nil_r.
  - unfold io_bind, write. rewrite IH, <- app_assoc. reflexivity.
Qed.

Lemma write_section_data {T : Type} `{Structure T} (name : string) (size : nat)
      (data : list T) (fp : list byte) :
  (length (list_byte_of_string name) <= 20)%nat ->
  _write_section (list_byte_of_string name) (Some size) (Some data) fp
  = (fp ++ section_image name size (length data) (packed data), Ok tt).
Proof.
  intros Hn. unfold _write_section, io_bind, section_image.
  destruct (Nat.ltb_spec 20 (length (list_byte_of_string name))) as [L|_]; [lia|].
  unfold io_ret, write. simpl. rewrite write_each_run, <- app_assoc. reflexivity.
Qed.

Lemma write_section_empty (name : string) (fp : list byte) :
  (length (list_byte_of_string name) <= 20)%nat ->
  _write_section (T := SectionHeader) (list_byte_of_string name) None None fp
  = (fp ++ section_image name 0 0 [], Ok tt).
Proof.
  intros Hn. unfold _write_section, io_bind, section_image.
  destruct (Nat.ltb_spec 20 (length (list_byte_of_string name))) as [L|_]; [lia|].
  unfold io_ret, write. simpl. rewrite app_nil_r. reflexivity.
Qed.

Section WriterFacts.

Context {Face Material Weight : Type}.
Context {Vector3_Structure : Structure Vector}.
Context {Wedge16_Structure : Structure Wedge}.
Context {Face_Structure : Structure Face}.
Context {Material_Structure : Structure Material}.
Context {Bone_Structure : Structure PsxBone}.
Context {Weight_Structure : Structure Weight}.

Variable c_float : R -> R.
Variable os : FileSystem -> string -> list byte -> io_outcome.

Local Abbreviation Psk := (@Psk Face Material Weight).

(** The seven sections of a file, in order: name, record size, record count and
    packed records. *)
Definition file_sections (psk : Psk) : list (string * nat * nat * list byte) :=
  [ ("ACTRHEAD", O, O, []);
    ("PNTS0000", @sizeof _ Vector3_Structure, length (points psk), packed (points psk));
    ("VTXW0000", @sizeof _ Wedge16_Structure, length (wedges psk),
     packed (reencode_wedges c_float (wedges psk)));
    ("FACE0000", @sizeof _ Face_Structure, length (faces psk), packed (faces psk));
    ("MATT0000", @sizeof _ Material_Structure, length (materials psk),
     packed (materials psk));
    ("REFSKELT", @sizeof _ Bone_Structure, length (Exporter.bones psk),
     packed (Exporter.bones psk));
    ("RAWWEIGHTS", @sizeof _ Weight_Structure, length (weights psk),
     packed (weights psk)) ].

Definition section_of (s : string * nat * nat * list byte) : list byte :=
  match s with
  | (name, size, count, payload) => section_image name size count payload
  end.

(** One of the conditions of lines 31-40 holds. *)
Definition capacity_exceeded (psk : Psk) : Prop :=
  (len (wedges psk) > 65536 \/ len (points psk) > 4294967296 \/
   len (materials psk) > 256 \/ len (Exporter.bones psk) > 256 \/
   len (Exporter.bones psk) = 0)%Z.

Lemma write_psk_run (psk : Psk) :
  write_psk c_float psk [] = (concat (map section_of (file_sections psk)), Ok tt).
Proof.
  unfold write_psk, io_bind.
  rewrite write_section_empty by (simpl; lia).
  rewrite write_section_data by (simpl; lia).
  rewrite write_section_data by (simpl; lia).
  rewrite write_section_data by (simpl; lia).
  rewrite write_section_data by (simpl; lia).
  rewrite write_section_data by (simpl; lia).
  rewrite write_section_data by (simpl; lia).
  unfold file_sections, reencode_wedges. cbn [map concat section_of app].
  rewrite length_map, app_nil_r, <- !app_assoc. reflexivity.
Qed.

Lemma export_psk_rejects (psk : Psk) (path : string) (fs : FileSystem) :
  capacity_exceeded psk ->
  exists m, export_psk c_float os psk path fs = (fs, Raise (RuntimeError m)).
Proof.
  unfold capacity_exceeded, export_psk, MAX_WEDGE_COUNT, MAX_POINT_COUNT,
    MAX_MATERIAL_COUNT, MAX_BONE_COUNT. intros H.
  destruct (Z.ltb_spec 65536 (len (wedges psk))); [eauto|].
  destruct (Z.ltb_spec 4294967296 (len (points psk))); [eauto|].
  destruct (Z.ltb_spec 256 (len (materials psk))); [eauto|].
  destruct (Z.ltb_spec 256 (len (Exporter.bones psk))); [eauto|].
  destruct (Z.eqb_spec (len (Exporter.bones psk)) 0); [eauto|].
  exfalso. lia.
Qed.

(** The bytes of the whole file. *)
Definition file_image (psk : Psk) : list byte :=
  concat (map section_of (file_sections psk)).

(** Past the capacity checks, the outcome is that of opening the file and writing
    the seven sections. *)
Lemma export_psk_passes (psk : Psk) (path : string) (fs : FileSystem) :
  ~ capacity_exceeded psk ->
  export_psk c_float os psk path fs
  = match os fs path (file_image psk) with
    | OpenRaises e => (fs, Raise (OSError e))
    | WriteRaises landed e =>
        (store fs path (firstn landed (file_image psk)), Raise (OSError e))
    | Completes => (store fs path (file_image psk), Ok tt)
    end.
Proof.
  unfold capacity_exceeded, export_psk, MAX_WEDGE_COUNT, MAX_POINT_COUNT,
    MAX_MATERIAL_COUNT, MAX_BONE_COUNT. intros H.
  destruct (Z.ltb_spec 65536 (len (wedges psk))); [exfalso; lia|].
  destruct (Z.ltb_spec 4294967296 (len (points psk))); [exfalso; lia|].
  destruct (Z.ltb_spec 256 (len (materials psk))); [exfalso; lia|].
  destruct (Z.ltb_spec 256 (len (Exporter.bones psk))); [exfalso; lia|].
  destruct (Z.eqb_spec (len (Exporter.bones psk)) 0); [exfalso; lia|].
  rewrite write_psk_run. reflexivity.
Qed.

Lemma export_psk_accepts (psk : Psk) (path : string) (fs : FileSystem) :
  ~ capacity_exceeded psk -> os fs path (file_image psk) = Completes ->
  export_psk c_float os psk path fs
  = (store fs path (concat (map section_of (file_sections psk))), Ok tt).
Proof.
  intros C Hos. rewrite (export_psk_passes psk path fs C), Hos. reflexivity.
Qed.

(** When the writer returns, no capacity check has failed and nothing has gone
    wrong with the file. *)
Lemma export_psk_Ok (psk : Psk) (path : string) (fs : FileSystem) :
  snd (export_psk c_float os psk path fs) = Ok tt ->
  ~ capacity_exceeded psk /\ os fs path (file_image psk) = Completes.
Proof.
  intros Hok. assert (C : ~ capacity_exceeded psk).
  { intros C. destruct (export_psk_rejects psk path fs C) as (m & E).
    rewrite E in Hok. discriminate. }
  split; [exact C|]. rewrite (export_psk_passes psk path fs C) in Hok.
  destruct (os fs path (file_image psk)); [reflexivity|discriminate|discriminate].
Qed.

Lemma capacity_exceeded_dec (psk : Psk) : capacity_exceeded psk \/ ~ capacity_exceeded psk.
Proof. unfold capacity_exceeded. lia. Qed.

(** C4. [export_psk] raises a capacity error exactly when the wedge count is over
    65536, the point count over 4294967296, the material or the bone count over
    256, or there is no bone; the error comes before the file is opened, so the
    file system is as it was, whatever would become of opening the file. With none
    of these no capacity error is raised: the call goes on to open the file, and
    then it returns exactly when opening and writing succeed, and raises what the
    operating system raises otherwise. *)
Theorem export_psk_capacity_errors (psk : Psk) (path : string) (fs : FileSystem) :
  ((exists m, snd (export_psk c_float os psk path fs) = Raise (RuntimeError m)) <->
   capacity_exceeded psk) /\
  (capacity_exceeded psk -> fst (export_psk c_float os psk path fs) = fs) /\
  ((exists e, snd (export_psk c_float os psk path fs) = Raise e) <->
   capacity_exceeded psk \/ os fs path (file_image psk) <> Completes) /\
  (snd (export_psk c_float os psk path fs) = Ok tt <->
   ~ capacity_exceeded psk /\ os fs path (file_image psk) = Completes).
Proof.
  destruct (capacity_exceeded_dec psk) as [C|C].
  - destruct (export_psk_rejects psk path fs C) as (m & E). rewrite E. simpl.
    split; [|split; [|split]].
    + split; [intros _; exact C|intros _; exists m; reflexivity].
    + reflexivity.
    + split; [intros _; left; exact C|intros _; eexists; reflexivity].
    + split; [discriminate|intros [H _]; contradiction].
  - rewrite (export_psk_passes psk path fs C).
    destruct (os fs path (file_image psk)) as [|e|landed e]; simpl.
    + split; [|split; [|split]].
      * split; [intros (m & H); discriminate|intros H; contradiction].
      * intros H; contradiction.
      * split; [intros (e & H); discriminate|intros [H|H]; contradiction].
      * split; [intros _; split; [exact C|reflexivity]|reflexivity].
    + split; [|split; [|split]].
      * split; [intros (m & H); discriminate|intros H; contradiction].
      * intros H; contradiction.
      * split; [intros _; right; discriminate|intros _; eexists; reflexivity].
      * split; [discriminate|intros [_ H]; discriminate].
    + split; [|split; [|split]].
      * split; [intros (m & H); discriminate|intros H; contradiction].
      * intros H; contradiction.
      * split; [intros _; right; discriminate|intros _; eexists; reflexivity].
      * split; [discriminate|intros [_ H]; discriminate].
Qed.

Definition section_length (s : string * nat * nat * list byte) : nat :=
  match s with
  | (_, size, count, _) => (28 + size * count)%nat
  end.

(** C5. When [export_psk] returns, the file holds exactly the seven sections
    ACTRHEAD, PNTS0000, VTXW0000, FACE0000, MATT0000, REFSKELT, RAWWEIGHTS in this
    order and nothing between them; each is a 28-byte header (the name in 20 bytes,
    the record size and the record count in 4 bytes each) followed by
    [data_size * data_count] bytes of packed records; ACTRHEAD has size 0 and count
    0; the length of the file is the sum of [28 + data_size * data_count]. *)
Theorem export_psk_file_layout (psk : Psk) (path : string) (fs : FileSystem) :
  snd (export_psk c_float os psk path fs) = Ok tt ->
  let sections := file_sections psk in
  fst (export_psk c_float os psk path fs) path = Some (concat (map section_of sections)) /\
  map (fun s => fst (fst (fst s))) sections
  = ["ACTRHEAD"; "PNTS0000"; "VTXW0000"; "FACE0000"; "MATT0000"; "REFSKELT";
     "RAWWEIGHTS"] /\
  Forall (fun s =>
            match s with
            | (name, size, count, payload) =>
                section_of s
                = to_bytes (mkSectionHeader (list_byte_of_string name)
                              (c_int32 (Z.of_nat size)) (c_int32 (Z.of_nat count)))
                  ++ payload /\
                length (to_bytes (mkSectionHeader (list_byte_of_string name)
                                    (c_int32 (Z.of_nat size)) (c_int32 (Z.of_nat count))))
                = 28%nat /\
                length payload = (size * count)%nat
            end) sections /\
  nth_error sections 0 = Some ("ACTRHEAD", O, O, []) /\
  length (concat (map section_of sections)) = list_sum (map section_length sections).
Proof.
  intros Hok sections.
  destruct (export_psk_Ok psk path fs Hok) as [C Hos].
  rewrite (export_psk_accepts psk path fs C Hos). simpl fst.
  assert (HF : Forall (fun s =>
            match s with
            | (name, size, count, payload) =>
                section_of s
                = to_bytes (mkSectionHeader (list_byte_of_string name)
                              (c_int32 (Z.of_nat size)) (c_int32 (Z.of_nat count)))
                  ++ payload /\
                length (to_bytes (mkSectionHeader (list_byte_of_string name)
                                    (c_int32 (Z.of_nat size)) (c_int32 (Z.of_nat count))))
                = 28%nat /\
                length payload = (size * count)%nat
            end) sections).
  { unfold sections, file_sections.
    repeat constructor; try apply SectionHeader_bytes_length; try apply packed_length.
    rewrite packed_length. unfold reencode_wedges. now rewrite length_map. }
  split; [|split; [reflexivity|split; [exact HF|split; [reflexivity|]]]].
  - unfold store. now rewrite String.eqb_refl.
  - clear - HF. induction HF as [|[[[n sz] c] p] l (E & Hh & Hp) _ IH]; [reflexivity|].
    cbn [map concat section_length]. rewrite length_app, IH, E, length_app, Hh, Hp.
    reflexivity.
Qed.

End WriterFacts.

(** *** The wedges as 16-bit records *)

Section WedgeFacts.

Context {Face Material Weight : Type}.
Context {Vector3_Structure : Structure Vector}.
Context {Wedge16_Structure : Structure Wedge}.
Context {Face_Structure : Structure Face}.
Context {Material_Structure : Structure Material}.
Context {Bone_Structure : Structure PsxBone}.
Context {Weight_Structure : Structure Weight}.

Variable c_float : R -> R.

Local Abbreviation Psk := (@Psk Face Material Weight).

Lemma reencode_point_index (w : Wedge) :
  point_index (reencode_wedge c_float w) = (point_index w mod 2 ^ 16)%Z.
Proof. reflexivity. Qed.

Lemma map_point_index_unchanged (ws : list Wedge) :
  map point_index (reencode_wedges c_float ws) = map point_index ws <->
  Forall (fun w => (0 <= point_index w < 65536)%Z) ws.
Proof.
  unfold reencode_wedges. induction ws as [|w ws IH]; cbn [map].
  - split; constructor.
  - rewrite reencode_point_index. split.
    + intros H. inversion H as [[Hw Hws]]. constructor; [|apply IH; assumption].
      rewrite <- Hw. apply Z.mod_pos_bound. lia.
    + intros H. inversion H as [|? ? Hw Hws]; subst.
      rewrite Z.mod_small by lia. f_equal. apply IH; assumption.
Qed.

(** C3 (as amended). The VTXW0000 section holds the wedges as 16-bit records, and
    each point index is written reduced modulo 65536: the indices are written
    unchanged exactly when each of them is below 65536. The capacity checks bound
    the number of wedges and let the number of points reach 2^32, so they do not
    enforce this; it is enforced when, besides, there are at most 65536 points and
    every point index is below the number of points. *)
Theorem wedge_point_index_written_modulo (psk : Psk) :
  nth_error (file_sections c_float psk) 2
  = Some ("VTXW0000", @sizeof _ Wedge16_Structure, length (wedges psk),
          packed (reencode_wedges c_float (wedges psk))) /\
  map point_index (reencode_wedges c_float (wedges psk))
  = map (fun w => (point_index w mod 2 ^ 16)%Z) (wedges psk) /\
  (map point_index (reencode_wedges c_float (wedges psk)) = map point_index (wedges psk) <->
   Forall (fun w => (0 <= point_index w < 65536)%Z) (wedges psk)) /\
  ((len (points psk) <= 65536)%Z ->
   Forall (fun w => (0 <= point_index w < len (points psk))%Z) (wedges psk) ->
   map point_index (reencode_wedges c_float (wedges psk)) = map point_index (wedges psk)).
Proof.
  split; [reflexivity|split; [|split]].
  - unfold reencode_wedges. rewrite map_map. reflexivity.
  - apply map_point_index_unchanged.
  - intros Hp Hw. apply map_point_index_unchanged.
    eapply Forall_impl; [|exact Hw]. simpl. intros w H. lia.
Qed.

End WedgeFacts.

(** *** Sample containers *)

(** A record class of [n] bytes whose bytes are left blank. *)
Definition blank_structure (T : Type) (n : nat) : Structure T :=
  {| sizeof := n;
     to_bytes := fun _ => repeat x00 n;
     to_bytes_length := fun _ => repeat_length x00 n |}.

Definition sample_psk (points : list Vector) (wedges : list Wedge) (bones : list PsxBone)
    : @Psk unit unit unit :=
  mkPsk points wedges [tt] [tt] bones [tt].

(** The narrowing of a float that single precision holds exactly, as the 0 of the
    sample wedges. *)
Definition exact_float (x : R) : R := x.

(** An operating system on which nothing fails, and one that finds no directory for
    the file. *)
Definition sound_os (_ : FileSystem) (_ : string) (_ : list byte) : io_outcome :=
  Completes.
Definition no_directory_os (_ : FileSystem) (_ : string) (_ : list byte) : io_outcome :=
  OpenRaises [Lit "No such file or directory"].

Definition sample_export (psk : @Psk unit unit unit) : FileSystem * result unit :=
  @export_psk unit unit unit (blank_structure Vector 12) (blank_structure Wedge 16)
    (blank_structure unit 12) (blank_structure unit 88) (blank_structure PsxBone 120)
    (blank_structure unit 12) exact_float sound_os psk "out.psk" (fun _ => None).

(** One bone, one point, one wedge, one face, one material, one weight. *)
Definition minimal_psk : @Psk unit unit unit :=
  sample_psk [zero_vector] [mkWedge 0 0 0 0] [bone_class].

(** 65537 points, and one wedge at the last of them. *)
Definition wide_psk : @Psk unit unit unit :=
  sample_psk (repeat zero_vector (Z.to_nat 65537)) [mkWedge 65536 0 0 0] [bone_class].

Lemma export_psk_file_layout_witness :
  option_map (@length byte) (fst (sample_export minimal_psk) "out.psk") = Some 456%nat.
Proof.
  destruct (@export_psk_file_layout unit unit unit (blank_structure Vector 12)
              (blank_structure Wedge 16) (blank_structure unit 12) (blank_structure unit 88)
              (blank_structure PsxBone 120) (blank_structure unit 12)
              exact_float sound_os minimal_psk "out.psk" (fun _ => None) eq_refl)
    as (Hfile & _ & _ & _ & Hlen).
  unfold sample_export. rewrite Hfile. unfold option_map.
  apply (f_equal (@Some nat)). etransitivity; [exact Hlen | reflexivity].
Defined.

Lemma wedge_point_index_written_modulo_witness :
  map point_index (reencode_wedges exact_float (wedges minimal_psk))
  = map point_index (wedges minimal_psk).
Proof.
  destruct (@wedge_point_index_written_modulo unit unit unit (blank_structure Vector 12)
              (blank_structure Wedge 16) (blank_structure unit 12) (blank_structure unit 88)
              (blank_structure PsxBone 120) (blank_structure unit 12) exact_float
              minimal_psk)
    as (_ & _ & _ & H).
  apply H.
  - unfold len. simpl. lia.
  - repeat constructor; unfold len; simpl; lia.
Defined.

Lemma wide_psk_within_capacity : ~ capacity_exceeded wide_psk.
Proof.
  unfold capacity_exceeded, wide_psk, sample_psk, len.
  cbn [points wedges materials Exporter.bones length].
  rewrite repeat_length. lia.
Qed.

(** C3, as stated, fails: a container with 65537 points and a wedge at point 65536
    passes the capacity checks, and the wedge is written with point index 0. *)
Lemma wedge_point_index_counterexample :
  snd (sample_export wide_psk) = Ok tt /\
  Forall (fun w => (0 <= point_index w < len (points wide_psk))%Z) (wedges wide_psk) /\
  map point_index (wedges wide_psk) = [65536%Z] /\
  map point_index (reencode_wedges exact_float (wedges wide_psk)) = [0%Z].
Proof.
  split; [|split; [|split; reflexivity]].
  - unfold sample_export.
    rewrite export_psk_accepts by (try apply wide_psk_within_capacity; reflexivity).
    reflexivity.
  - constructor; [|constructor]. unfold wide_psk, sample_psk, len.
    cbn [points wedges point_index hd]. rewrite repeat_length. lia.
Qed.

(** The writer turns down the three inputs named for it: 65537 wedges, no bone,
    257 materials; nothing is written. *)
Example export_psk_rejections :
  (forall (psk : @Psk unit unit unit),
      length (wedges psk) = Z.to_nat 65537 \/ length (Exporter.bones psk) = O \/
      length (materials psk) = 257%nat ->
      exists m, fst (sample_export psk) = (fun _ => None) /\
                snd (sample_export psk) = Raise (RuntimeError m)).
Proof.
  intros psk H. unfold sample_export.
  destruct (@export_psk_rejects unit unit unit (blank_structure Vector 12)
              (blank_structure Wedge 16) (blank_structure unit 12) (blank_structure unit 88)
              (blank_structure PsxBone 120) (blank_structure unit 12)
              exact_float sound_os psk "out.psk" (fun _ => None)) as (m & E).
  - unfold capacity_exceeded, len. destruct H as [H|[H|H]]; rewrite H; lia.
  - exists m. rewrite E. split; reflexivity.
Qed.


(** * Further properties of the export core *)

(** ** The bone selector: all bones, larger selections, shape of the result *)

Lemma visited_indices_all (d : dict (option nat)) (n : nat) :
  (forall k, (k < n)%nat -> contains k d = true) -> visited_indices d n = seq 0 n.
Proof.
  intros H. unfold visited_indices.
  apply forallb_filter_id, forallb_forall.
  intros k Hk. apply in_seq in Hk. apply H. lia.
Qed.

Lemma seq_lookup {A : Type} (l : list A) :
  map (nth_error l) (seq 0 (length l)) = map Some l.
Proof.
  induction l as [|a l IH]; simpl; [reflexivity|].
  rewrite <- seq_shift, map_map. f_equal. rewrite <- IH. apply map_ext. reflexivity.
Qed.

Lemma names_at_all (bones : list Bone) :
  map (bone_name_at bones) (seq 0 (length bones)) = map name bones.
Proof.
  unfold bone_name_at.
  rewrite <- (map_map (nth_error bones)
                (fun o => match o with Some b => name b | None => "" end)).
  rewrite seq_lookup, map_map. reflexivity.
Qed.

Lemma root_names_at_all (bones : list Bone) :
  map (bone_name_at bones) (filter (is_root_at bones) (seq 0 (length bones)))
  = map name (filter is_parentless bones).
Proof.
  unfold bone_name_at, is_root_at.
  rewrite <- (map_map (nth_error bones)
                (fun o => match o with Some b => name b | None => "" end)).
  change (fun i => match nth_error bones i with
                   | Some b => match parent b with None => true | Some _ => false end
                   | None => false
                   end)
    with (fun i => (fun o : option Bone =>
                      match o with
                      | Some b => match parent b with None => true | Some _ => false end
                      | None => false
                      end) (nth_error bones i)).
  rewrite <- filter_map_swap, seq_lookup, filter_map_swap, map_map. reflexivity.
Qed.

Lemma existsb_incl {A : Type} (f : A -> bool) (l l' : list A) :
  incl l l' -> existsb f l = true -> existsb f l' = true.
Proof.
  intros Hi H. apply existsb_exists in H. destruct H as (x & Hx & Hf).
  apply existsb_exists. exists x. split; [apply Hi; assumption | assumption].
Qed.

Lemma is_seed_incl (mode : string) (idxs idxs' : list Z) (colls : list BoneCollection)
      (b : Bone) :
  incl idxs idxs' -> is_seed mode idxs colls b = true -> is_seed mode idxs' colls b = true.
Proof.
  intros Hi. unfold is_seed.
  destruct (mapM (index BoneCollection_eqb colls) (collections b)); try discriminate.
  rewrite !orb_true_iff, !andb_true_iff.
  intros [[H|[H1 H2]]|H]; eauto using existsb_incl.
Qed.

(** A visited bone is an explicitly included bone or an ancestor of one. *)
Lemma reach_ancestor (bones : list Bone) (seeds : nat -> Prop) (k : nat) :
  wf_hierarchy bones -> (forall s, seeds s -> (s < length bones)%nat) ->
  reach bones seeds k ->
  exists s a b, seeds s /\ nth_error bones s = Some b /\ nth_error bones k = Some a /\
                ancestor_or_self a b.
Proof.
  intros Hwf Hs R. induction R as [s H|k p R IH Hp].
  - destruct (nth_error bones s) as [b|] eqn:E;
      [|apply nth_error_None in E; apply Hs in H; lia].
    exists s, b, b. repeat split; auto. constructor.
  - destruct IH as (s & a & b & Hseed & Hb & Ha & Hanc).
    destruct (parent_bone_index_inv bones Hwf k p Hp) as (a' & q & Ha' & Hq & Hpq).
    assert (a' = a) by congruence. subst a'.
    exists s, q, b. repeat split; auto.
    clear - Hanc Hq. induction Hanc as [|b p' Hp' _ IH].
    + eapply ancestor_parent; [eassumption | constructor].
    + eapply ancestor_parent; [eassumption | apply IH; assumption].
Qed.

(** In 'ALL' mode, whatever collections are selected, a well-formed armature with at
    most one bone without parent gives all its bone names in hierarchy order, and one
    with several gives the multiple-roots error that lists them all. *)
Theorem selector_all_mode (obj : Object) (idxs : list Z) :
  wf_armature_object obj ->
  let bs := Blender.bones (data obj) in
  let roots := filter is_parentless bs in
  get_export_bone_names (Some obj) "ALL" idxs
  = if Z.ltb 1 (len roots)
    then Raise (RuntimeError (multiple_roots_message (len roots) (map name roots)))
    else Ok (map name bs).
Proof.
  intros Hobj bs roots.
  destruct (get_export_bone_names_spec obj "ALL" idxs Hobj) as (d & I & E).
  fold bs in I, E. rewrite E.
  destruct Hobj as (_ & Hwf & Hc).
  rewrite (visited_indices_all d (length bs)).
  - unfold finish_spec. rewrite root_names_at_all, names_at_all.
    fold roots. unfold len. rewrite length_map. reflexivity.
  - intros k Hk. apply (walk_inv_reach bs _ d k I), reach_seed.
    destruct (nth_error bs k) as [b|] eqn:Hb; [|apply nth_error_None in Hb; lia].
    exists b. split; [assumption|]. unfold is_seed.
    destruct (collection_indices_ok (data obj) b Hc (nth_error_In _ _ Hb)) as (this & ->).
    reflexivity.
Qed.

Lemma selector_all_mode_witness :
  get_export_bone_names (Some forest_object) "ALL" [] =
  Raise (RuntimeError (multiple_roots_message 2 ["A"; "B"])).
Proof.
  exact (selector_all_mode forest_object [] forest_object_wf).
Defined.

(** Selecting more collections never loses a bone: when both selections are
    exported, every name returned for the smaller one is returned for the larger. *)
Theorem selector_monotone (obj : Object) (mode : string) (idxs idxs' : list Z)
        (names names' : list string) :
  wf_armature_object obj -> incl idxs idxs' ->
  get_export_bone_names (Some obj) mode idxs = Ok names ->
  get_export_bone_names (Some obj) mode idxs' = Ok names' ->
  incl names names'.
Proof.
  intros Hobj Hi E E'.
  destruct (get_export_bone_names_spec obj mode idxs Hobj) as (d & I & Ed).
  destruct (get_export_bone_names_spec obj mode idxs' Hobj) as (d' & I' & Ed').
  rewrite Ed in E. rewrite Ed' in E'.
  apply finish_spec_Ok in E, E'. destruct E as [-> _], E' as [-> _].
  intros n Hn. apply in_map_iff in Hn. destruct Hn as (k & <- & Hk).
  apply in_map. apply (ks_reach _ _ d' I' k).
  apply (ks_reach _ _ d I k) in Hk.
  revert Hk. apply reach_ext. intros s (b & Hb & Hs).
  exists b. split; [assumption|]. eapply is_seed_incl; eauto.
Qed.

Lemma selector_monotone_witness : incl ["root"; "mid"] ["root"; "mid"; "tip"].
Proof.
  apply (selector_monotone chain_object "BONE_COLLECTIONS" [0%Z] [0%Z; 1%Z]
           ["root"; "mid"] ["root"; "mid"; "tip"] chain_object_wf).
  - intros x [<-|[]]. now left.
  - reflexivity.
  - reflexivity.
Defined.

(** The returned names are distinct names of bones of the armature; they include
    every explicitly included bone, and nothing but such bones and their ancestors. *)
Theorem selector_result_shape (obj : Object) (mode : string) (idxs : list Z)
        (names : list string) :
  wf_armature_object obj ->
  get_export_bone_names (Some obj) mode idxs = Ok names ->
  let bs := Blender.bones (data obj) in
  let colls := collections_all (data obj) in
  NoDup names /\ incl names (map name bs) /\
  (forall b, In b bs -> is_seed mode idxs colls b = true -> In (name b) names) /\
  (forall a, In a bs -> In (name a) names ->
             exists b, In b bs /\ is_seed mode idxs colls b = true /\ ancestor_or_self a b).
Proof.
  intros Hobj E bs colls.
  destruct (get_export_bone_names_spec obj mode idxs Hobj) as (d & I & Ed).
  fold bs colls in I, Ed. rewrite Ed in E. apply finish_spec_Ok in E. destruct E as [-> _].
  destruct Hobj as (_ & Hwf & _). fold bs in Hwf.
  split; [|split; [|split]].
  - apply bone_names_NoDup; [assumption| |apply ks_lt].
    apply NoDup_filter, seq_NoDup.
  - intros n Hn. apply in_map_iff in Hn. destruct Hn as (k & <- & Hk).
    apply ks_lt in Hk. unfold bone_name_at.
    destruct (nth_error bs k) as [b|] eqn:Hb; [|apply nth_error_None in Hb; lia].
    apply in_map. eapply nth_error_In; eauto.
  - intros b Hb Hs. destruct (In_nth_error _ _ Hb) as [k Hk].
    apply (index_exported bs d k b Hk).
    apply (ks_reach bs _ d I k), reach_seed. exists b. auto.
  - intros a Ha Hn.
    destruct (exported_index bs Hwf d a (conj Ha Hn)) as (k & Hk & Hks).
    apply (ks_reach bs _ d I k) in Hks.
    destruct (reach_ancestor bs (seed_index bs mode idxs colls) k Hwf) as (s & a' & b & (b' & Hb' & Hseed) & Hb & Ha' & Hanc);
      [|exact Hks|].
    + intros s (b & Hb & _). apply nth_error_Some. congruence.
    + assert (b' = b) by congruence. assert (a' = a) by congruence. subst.
      exists b. repeat split; auto. eapply nth_error_In; eauto.
Qed.

Lemma selector_result_shape_witness :
  NoDup ["root"; "mid"] /\ incl ["root"; "mid"] ["root"; "mid"; "tip"].
Proof.
  destruct (selector_result_shape chain_object "BONE_COLLECTIONS" [0%Z] ["root"; "mid"]
              chain_object_wf eq_refl) as (H1 & H2 & _).
  split; [exact H1 | exact H2].
Defined.

(** ** shared/helpers.py: the other helpers *)

Module HelpersMore.

(** An entry of the bone collection list of the export panel, with the fields
    [populate_bone_collection_list] assigns: [name], [index], [count], [is_selected]. *)
Record ListItem : Type := mkListItem {
  item_name : string;
  item_index : Z;
  item_count : Z;
  is_selected : bool
}.

(** Lines 49-50: position and selection of the first entry whose index is -1. *)
Definition find_unassigned (bone_collection_list : list ListItem) : Z * bool :=
  match filter (fun ig : nat * ListItem => Z.eqb (item_index (snd ig)) (-1))
               (enumerate bone_collection_list) with
  | (i, g) :: _ => (Z.of_nat i, is_selected g)
  | [] => ((-1)%Z, false)
  end.

(** [populate_bone_collection_list] (lines 32-74). The list is changed in place: the
    function gives the list as it is left. [armature_object] is the object, if any,
    with its [data], if any; [bone_count c] stands for [len(c.bones)]. *)
Definition populate_bone_collection_list (bone_count : BoneCollection -> Z)
    (armature_object : option (option Armature)) (bone_collection_list : list ListItem)
    : list ListItem :=
  let has_selected_collections := existsb is_selected bone_collection_list in
  match armature_object with
  | None => bone_collection_list
  | Some armature_data =>
      let preserved :=
        if has_selected_collections then
          let unassigned := find_unassigned bone_collection_list in
          (snd unassigned,
           map (fun ig : nat * ListItem => item_name (snd ig))
               (filter (fun ig : nat * ListItem =>
                          negb (Z.eqb (Z.of_nat (fst ig)) (fst unassigned))
                          && is_selected (snd ig))
                       (enumerate bone_collection_list)))
        else (true, []) in
      let unassigned_collection_is_selected := fst preserved in
      let selected_assigned_collection_names := snd preserved in
      match armature_data with
      | None => []
      | Some armature =>
          mkListItem "Unassigned" (-1)
            (len (filter (fun bone => Z.eqb (len (collections bone)) 0)
                         (Blender.bones armature)))
            unassigned_collection_is_selected
          :: map (fun ic : nat * BoneCollection =>
                    mkListItem (collection_name (snd ic)) (Z.of_nat (fst ic))
                      (bone_count (snd ic))
                      (if has_selected_collections
                       then existsb (String.eqb (collection_name (snd ic)))
                                    selected_assigned_collection_names
                       else true))
                 (enumerate (collections_all armature))
      end
  end.

(** [[x.index for x in bone_collection_list if x.is_selected]]: the indices handed
    to [get_export_bone_names] (as in psk/exporter.py, line 226). *)
Definition selected_indices (bone_collection_list : list ListItem) : list Z :=
  map item_index (filter is_selected bone_collection_list).

End HelpersMore.

Import HelpersMore.

Lemma enumerate_cons {A : Type} (a : A) (l : list A) :
  enumerate (a :: l) = (O, a) :: map (fun ig => (S (fst ig), snd ig)) (enumerate l).
Proof.
  unfold enumerate. simpl. f_equal. rewrite <- seq_shift.
  generalize (seq 0 (length l)). clear a.
  induction l as [|b l IH]; intros [|n ns]; simpl; try reflexivity.
  now rewrite IH.
Qed.

Lemma map_snd_combine' {A B : Type} (l : list B) :
  forall ns : list A, length ns = length l -> map snd (combine ns l) = l.
Proof.
  induction l as [|b l IH]; intros [|n ns] H; simpl in *; try discriminate; [reflexivity|].
  rewrite IH by lia. reflexivity.
Qed.

Lemma map_fst_combine' {A B : Type} (l : list B) :
  forall ns : list A, length ns = length l -> map fst (combine ns l) = ns.
Proof.
  induction l as [|b l IH]; intros [|n ns] H; simpl in *; try discriminate; [reflexivity|].
  rewrite IH by lia. reflexivity.
Qed.

Lemma enumerate_length {A : Type} (l : list A) : length (enumerate l) = length l.
Proof. unfold enumerate. rewrite length_combine, length_seq. lia. Qed.

Lemma map_snd_enumerate {A : Type} (l : list A) : map snd (enumerate l) = l.
Proof.
  unfold enumerate. apply map_snd_combine'. now rewrite length_seq.
Qed.

Lemma map_fst_enumerate {A : Type} (l : list A) :
  map fst (enumerate l) = seq 0 (length l).
Proof.
  unfold enumerate. apply map_fst_combine'. now rewrite length_seq.
Qed.

Lemma filter_snd_combine {A B C : Type} (f : B -> C) (p : B -> bool) (l : list B) :
  forall ns : list A, length ns = length l ->
    map (fun ig : A * B => f (snd ig)) (filter (fun ig : A * B => p (snd ig)) (combine ns l))
    = map f (filter p l).
Proof.
  induction l as [|b l IH]; intros [|n ns] H; simpl in *; try discriminate; [reflexivity|].
  destruct (p b); simpl; rewrite IH by lia; reflexivity.
Qed.

Lemma filter_snd_enumerate {B C : Type} (f : B -> C) (p : B -> bool) (l : list B) :
  map (fun ig : nat * B => f (snd ig)) (filter (fun ig : nat * B => p (snd ig)) (enumerate l))
  = map f (filter p l).
Proof. apply filter_snd_combine. apply length_seq. Qed.

(** The entry made for a collection, with the selection rule [sel] on names. *)
Definition collection_item (bone_count : BoneCollection -> Z) (sel : string -> bool)
    (ic : nat * BoneCollection) : ListItem :=
  mkListItem (collection_name (snd ic)) (Z.of_nat (fst ic)) (bone_count (snd ic))
             (sel (collection_name (snd ic))).

Lemma find_unassigned_head (u : ListItem) (l : list ListItem) :
  item_index u = (-1)%Z -> find_unassigned (u :: l) = (0%Z, is_selected u).
Proof.
  intros H. unfold find_unassigned. rewrite enumerate_cons. simpl. rewrite H. reflexivity.
Qed.

(** The names kept from a list that starts with the unassigned entry: those of the
    selected entries after it. *)
Lemma selected_names_after_head (u : ListItem) (l : list ListItem) :
  map (fun ig : nat * ListItem => item_name (snd ig))
      (filter (fun ig : nat * ListItem =>
                 negb (Z.eqb (Z.of_nat (fst ig)) 0) && is_selected (snd ig))
              (enumerate (u :: l)))
  = map item_name (filter is_selected l).
Proof.
  rewrite enumerate_cons. simpl.
  rewrite filter_map_swap, map_map. simpl.
  rewrite <- (filter_snd_enumerate item_name is_selected l).
  reflexivity.
Qed.

(** The result for an armature: the unassigned entry, then the collections in
    order, each selected by one rule on its name. *)
Lemma populate_shape (bone_count : BoneCollection -> Z) (a : Armature) (l : list ListItem) :
  exists (u : bool) (sel : string -> bool),
    populate_bone_collection_list bone_count (Some (Some a)) l
    = mkListItem "Unassigned" (-1)
        (len (filter (fun bone => Z.eqb (len (collections bone)) 0) (Blender.bones a))) u
      :: map (collection_item bone_count sel) (enumerate (collections_all a)) /\
    (existsb is_selected l = false -> u = true /\ forall n, sel n = true).
Proof.
  unfold populate_bone_collection_list.
  destruct (existsb is_selected l) eqn:E.
  - eexists. exists (fun n => existsb (String.eqb n)
      (map (fun ig : nat * ListItem => item_name (snd ig))
         (filter (fun ig : nat * ListItem =>
                    negb (Z.eqb (Z.of_nat (fst ig)) (fst (find_unassigned l)))
                    && is_selected (snd ig)) (enumerate l)))).
    split; [reflexivity | discriminate].
  - exists true, (fun _ => true). split; [reflexivity | auto].
Qed.

(** The entries carry the indices -1, 0, 1, ... and the names of the collections in
    the armature's order, whatever the list held before; without an object the list
    is left alone, and an object without armature data leaves it empty. *)
Theorem populate_bone_collection_list_layout (bone_count : BoneCollection -> Z)
        (a : Armature) (l : list ListItem) :
  populate_bone_collection_list bone_count None l = l /\
  populate_bone_collection_list bone_count (Some None) l = [] /\
  let l' := populate_bone_collection_list bone_count (Some (Some a)) l in
  map item_index l' = (-1)%Z :: map Z.of_nat (seq 0 (length (collections_all a))) /\
  map item_name l' = "Unassigned" :: map collection_name (collections_all a) /\
  map item_count l'
  = Z.of_nat (length (filter (fun b => match collections b with [] => true | _ => false end)
                             (Blender.bones a)))
    :: map bone_count (collections_all a).
Proof.
  split; [reflexivity|split; [reflexivity|]].
  destruct (populate_shape bone_count a l) as (u & sel & -> & _).
  cbn [map item_index item_name item_count]. rewrite !map_map.
  unfold collection_item. cbn [item_index item_name item_count].
  split; [|split].
  - f_equal. rewrite <- map_fst_enumerate, map_map. reflexivity.
  - f_equal. rewrite <- (map_map snd collection_name), map_snd_enumerate. reflexivity.
  - f_equal.
    + unfold len. do 2 f_equal. apply filter_ext. intros b.
      destruct (collections b); reflexivity.
    + rewrite <- (map_map snd bone_count), map_snd_enumerate. reflexivity.
Qed.

Lemma nth_error_enumerate {A : Type} (l : list A) (i : nat) :
  nth_error (enumerate l) i = option_map (pair i) (nth_error l i).
Proof.
  unfold enumerate.
  assert (G : forall s, nth_error (combine (seq s (length l)) l) i
                        = option_map (pair (s + i)%nat) (nth_error l i)).
  { revert i. induction l as [|a l IH]; intros i s; simpl.
    - destruct i; reflexivity.
    - destruct i as [|i]; simpl.
      + now rewrite Nat.add_0_r.
      + rewrite IH. now rewrite Nat.add_succ_r. }
  apply G.
Qed.

Lemma populate_on_shaped (bone_count : BoneCollection -> Z) (a : Armature)
      (u : ListItem) (rest : list ListItem) :
  item_index u = (-1)%Z -> existsb is_selected (u :: rest) = true ->
  populate_bone_collection_list bone_count (Some (Some a)) (u :: rest)
  = mkListItem "Unassigned" (-1)
      (len (filter (fun bone => Z.eqb (len (collections bone)) 0) (Blender.bones a)))
      (is_selected u)
    :: map (collection_item bone_count
              (fun n => existsb (String.eqb n) (map item_name (filter is_selected rest))))
           (enumerate (collections_all a)).
Proof.
  intros Hu Hs. unfold populate_bone_collection_list. rewrite Hs.
  rewrite (find_unassigned_head u rest Hu). cbn [fst snd].
  rewrite (selected_names_after_head u rest). reflexivity.
Qed.

(** A refresh keeps the selection by name. On a list that starts with the unassigned
    entry and has some entry selected, the unassigned entry keeps its state and a
    collection is selected afterwards exactly when a selected entry after the first
    bore its name. When no entry was selected, every entry is selected afterwards. *)
Theorem populate_bone_collection_list_selection (bone_count : BoneCollection -> Z)
        (a : Armature) :
  (forall l, existsb is_selected l = false ->
             forallb is_selected
               (populate_bone_collection_list bone_count (Some (Some a)) l) = true) /\
  (forall u rest, item_index u = (-1)%Z -> existsb is_selected (u :: rest) = true ->
     let l' := populate_bone_collection_list bone_count (Some (Some a)) (u :: rest) in
     option_map is_selected (nth_error l' 0) = Some (is_selected u) /\
     forall i c, nth_error (collections_all a) i = Some c ->
       exists g', nth_error l' (S i) = Some g' /\ item_name g' = collection_name c /\
                  (is_selected g' = true <->
                   exists g, In g rest /\ is_selected g = true /\
                             item_name g = collection_name c)).
Proof.
  split.
  - intros l Hl. destruct (populate_shape bone_count a l) as (u & sel & -> & H).
    destruct (H Hl) as [-> Hsel]. simpl. apply forallb_forall.
    intros g Hg. apply in_map_iff in Hg. destruct Hg as (ic & <- & _). apply Hsel.
  - intros u rest Hu Hs l'. unfold l'. rewrite (populate_on_shaped bone_count a u rest Hu Hs).
    split; [reflexivity|].
    intros i c Hc. cbn [nth_error].
    rewrite nth_error_map, nth_error_enumerate, Hc. simpl. eexists; split; [reflexivity|split; [reflexivity|]].
    unfold collection_item. cbn [is_selected snd]. rewrite existsb_exists. split.
    + intros (n & Hn & E). apply String.eqb_eq in E. subst n.
      apply in_map_iff in Hn. destruct Hn as (g & Eg & Hg).
      apply filter_In in Hg. exists g. tauto.
    + intros (g & Hg & Hsel & E). exists (item_name g). split.
      * apply in_map, filter_In. auto.
      * rewrite E. apply String.eqb_refl.
Qed.

(** A sample list: the unassigned entry not selected, "Arm" selected, and a
    selected entry "Old" of a collection that is gone. *)
Definition sample_list : list ListItem :=
  [mkListItem "Unassigned" (-1) 1 false; mkListItem "Arm" 0 1 true;
   mkListItem "Old" 1 4 true].

Definition sample_bone_count (_ : BoneCollection) : Z := 1.

Lemma populate_bone_collection_list_selection_witness :
  map is_selected
      (populate_bone_collection_list sample_bone_count (Some (Some (data chain_object)))
                                     sample_list)
  = [false; true; false] /\
  forallb is_selected
    (populate_bone_collection_list sample_bone_count (Some (Some (data chain_object))) [])
  = true.
Proof.
  destruct (populate_bone_collection_list_selection sample_bone_count (data chain_object))
    as [Hnone Hsome].
  split; [|exact (Hnone [] eq_refl)].
  destruct (Hsome (mkListItem "Unassigned" (-1) 1 false)
                  [mkListItem "Arm" 0 1 true; mkListItem "Old" 1 4 true]
                  eq_refl eq_refl) as [_ _].
  reflexivity.
Defined.

(** Refreshing twice is refreshing once, as long as the first refresh leaves some
    entry selected. *)
Theorem populate_bone_collection_list_idempotent (bone_count : BoneCollection -> Z)
        (a : Armature) (l : list ListItem) :
  let l1 := populate_bone_collection_list bone_count (Some (Some a)) l in
  existsb is_selected l1 = true ->
  populate_bone_collection_list bone_count (Some (Some a)) l1 = l1.
Proof.
  intros l1. unfold l1.
  destruct (populate_shape bone_count a l) as (u & sel & -> & _).
  intros Hs. rewrite populate_on_shaped; [|reflexivity|exact Hs].
  cbn [is_selected]. f_equal. apply map_ext_in. intros [i c] Hic.
  unfold collection_item. cbn [snd fst]. f_equal.
  apply eq_true_iff_eq. rewrite existsb_exists. split.
  - intros (n & Hn & E). apply String.eqb_eq in E. subst n.
    apply in_map_iff in Hn. destruct Hn as (g & Eg & Hg).
    apply filter_In in Hg. destruct Hg as [Hg Hsel].
    apply in_map_iff in Hg. destruct Hg as ([j c'] & <- & _).
    simpl in Eg, Hsel. rewrite <- Eg. exact Hsel.
  - intros Hsel. exists (collection_name c). split; [|apply String.eqb_refl].
    apply in_map_iff. exists (collection_item bone_count sel (i, c)).
    split; [reflexivity|]. apply filter_In. split; [|exact Hsel].
    apply in_map. exact Hic.
Qed.

Lemma populate_bone_collection_list_idempotent_witness :
  populate_bone_collection_list sample_bone_count (Some (Some (data chain_object)))
    (populate_bone_collection_list sample_bone_count (Some (Some (data chain_object)))
       sample_list)
  = populate_bone_collection_list sample_bone_count (Some (Some (data chain_object)))
      sample_list.
Proof.
  exact (populate_bone_collection_list_idempotent sample_bone_count (data chain_object)
           sample_list eq_refl).
Defined.

(** *** The default selection *)

Lemma get_export_bone_names_seed_ext (obj : Object) (m1 m2 : string) (i1 i2 : list Z) :
  wf_armature_object obj ->
  (forall b, In b (Blender.bones (data obj)) ->
             is_seed m1 i1 (collections_all (data obj)) b
             = is_seed m2 i2 (collections_all (data obj)) b) ->
  get_export_bone_names (Some obj) m1 i1 = get_export_bone_names (Some obj) m2 i2.
Proof.
  intros (Ht & Hwf & Hc) H. unfold get_export_bone_names. rewrite Ht. simpl.
  assert (K : forall i b, In (i, b) (enumerate (Blender.bones (data obj))) ->
            exists this, mapM (index BoneCollection_eqb (collections_all (data obj)))
                              (collections b) = Ok this).
  { intros i b Hb. apply In_enumerate in Hb.
    apply collection_indices_ok; [assumption | eapply nth_error_In; eauto]. }
  rewrite !seed_loop_ok by exact K.
  rewrite (filter_ext_in
             (fun ib => is_seed m1 i1 (collections_all (data obj)) (snd ib))
             (fun ib => is_seed m2 i2 (collections_all (data obj)) (snd ib)));
    [reflexivity|].
  intros [i b] Hb. apply In_enumerate in Hb. apply H. eapply nth_error_In; eauto.
Qed.

Lemma populate_indices (bone_count : BoneCollection -> Z) (a : Armature)
      (l : list ListItem) :
  map item_index (populate_bone_collection_list bone_count (Some (Some a)) l)
  = (-1)%Z :: map Z.of_nat (seq 0 (length (collections_all a))).
Proof.
  destruct (populate_shape bone_count a l) as (u & sel & -> & _).
  cbn [map item_index]. rewrite !map_map.
  unfold collection_item. cbn [item_index].
  f_equal. rewrite <- map_fst_enumerate, map_map. reflexivity.
Qed.

Lemma populate_all_selected (bone_count : BoneCollection -> Z) (a : Armature)
      (l : list ListItem) :
  existsb is_selected l = false ->
  forallb is_selected (populate_bone_collection_list bone_count (Some (Some a)) l) = true.
Proof.
  intros Hl. destruct (populate_shape bone_count a l) as (u & sel & -> & H).
  destruct (H Hl) as [-> Hsel]. simpl. apply forallb_forall.
  intros g Hg. apply in_map_iff in Hg. destruct Hg as (ic & <- & _). apply Hsel.
Qed.

(** With the default selection (the list refreshed when no entry was selected, as
    on a new list), the bone-collections mode exports what the mode 'ALL' exports:
    the selected indices are -1 and every collection index, so every bone is
    included. *)
Theorem default_selection_exports_all (bone_count : BoneCollection -> Z) (obj : Object)
        (mode : string) (l : list ListItem) :
  wf_armature_object obj -> existsb is_selected l = false ->
  let l' := populate_bone_collection_list bone_count (Some (Some (data obj))) l in
  selected_indices l'
  = (-1)%Z :: map Z.of_nat (seq 0 (length (collections_all (data obj)))) /\
  get_export_bone_names (Some obj) mode (selected_indices l')
  = get_export_bone_names (Some obj) "ALL" [].
Proof.
  intros Hobj Hl l'.
  assert (E : selected_indices l'
              = (-1)%Z :: map Z.of_nat (seq 0 (length (collections_all (data obj))))).
  { unfold selected_indices.
    assert (Hall := populate_all_selected bone_count (data obj) l Hl). fold l' in Hall.
    rewrite (forallb_filter_id is_selected l' Hall).
    exact (populate_indices bone_count (data obj) l). }
  split; [exact E|]. rewrite E.
  apply get_export_bone_names_seed_ext; [assumption|].
  intros b Hb. destruct Hobj as (_ & _ & Hc).
  destruct (collection_indices_ok (data obj) b Hc Hb) as (this & Hthis).
  transitivity true; [|symmetry; unfold is_seed; rewrite Hthis; reflexivity].
  unfold is_seed. rewrite Hthis.
  destruct (collections b) as [|c cs] eqn:Ecs.
  - apply orb_true_iff. left. apply orb_true_iff. right. reflexivity.
  - simpl in Hthis. unfold index in Hthis.
    destruct (find_index (BoneCollection_eqb c) (collections_all (data obj)) 0)
      as [j|] eqn:Ej; [|discriminate].
    destruct (mapM _ cs); try discriminate. inversion Hthis; subst this.
    apply find_index_ge in Ej.
    apply orb_true_iff. right.
    apply existsb_exists. exists (Z.of_nat j). split.
    + right. apply in_map, in_seq. lia.
    + simpl. rewrite Z.eqb_refl. reflexivity.
Qed.

Lemma default_selection_exports_all_witness :
  get_export_bone_names (Some chain_object) "BONE_COLLECTIONS" [(-1)%Z; 0%Z; 1%Z]
  = Ok ["root"; "mid"; "tip"].
Proof.
  destruct (default_selection_exports_all sample_bone_count chain_object "BONE_COLLECTIONS"
              [] chain_object_wf eq_refl) as [E H].
  rewrite E in H. exact H.
Defined.

(** ** NLA strips in a frame range, and the sRGB transfer function *)

Module HelpersAnimation.

Open Scope R_scope.

(** [bpy.types.NlaStrip], [bpy.types.NlaTrack] and [bpy.types.AnimData], with the
    fields [get_nla_strips_in_frame_range] reads. *)
Record NlaStrip : Type := mkNlaStrip { frame_start : R; frame_end : R }.

Record NlaTrack : Type := mkNlaTrack { mute : bool; strips : list NlaStrip }.

Record AnimData : Type := mkAnimData { nla_tracks : list NlaTrack }.

(** [x < y] and [x <= y] on floats. *)
Definition Rltb (x y : R) : bool := if Rlt_dec x y then true else false.
Definition Rleb (x y : R) : bool := if Rle_dec x y then true else false.

(** The test of lines 26-28. *)
Definition strip_in_range (frame_min frame_max : R) (strip : NlaStrip) : bool :=
  (Rltb (frame_start strip) frame_min && Rltb frame_max (frame_end strip))
  || (Rleb frame_min (frame_start strip) && Rltb (frame_start strip) frame_max)
  || (Rltb frame_min (frame_end strip) && Rleb (frame_end strip) frame_max).

(** [get_nla_strips_in_frame_range] (lines 19-29): the strips the generator yields,
    in the order it yields them. *)
Definition get_nla_strips_in_frame_range (animation_data : option AnimData)
    (frame_min frame_max : R) : list NlaStrip :=
  match animation_data with
  | None => []
  | Some animation_data =>
      flat_map (fun nla_track =>
                  if mute nla_track then []
                  else filter (strip_in_range frame_min frame_max) (strips nla_track))
               (nla_tracks animation_data)
  end.

Close Scope R_scope.

End HelpersAnimation.

Import HelpersAnimation.

Lemma Rltb_true (x y : R) : Rltb x y = true <-> (x < y)%R.
Proof. unfold Rltb. destruct (Rlt_dec x y); split; intros; try discriminate; tauto. Qed.

Lemma Rleb_true (x y : R) : Rleb x y = true <-> (x <= y)%R.
Proof. unfold Rleb. destruct (Rle_dec x y); split; intros; try discriminate; tauto. Qed.

Lemma strip_in_range_overlap (frame_min frame_max : R) (strip : NlaStrip) :
  (frame_min <= frame_max)%R -> (frame_start strip < frame_end strip)%R ->
  (strip_in_range frame_min frame_max strip = true <->
   (frame_start strip < frame_max /\ frame_min < frame_end strip)%R).
Proof.
  intros Hr Hs. unfold strip_in_range.
  rewrite !orb_true_iff, !andb_true_iff, !Rltb_true, !Rleb_true.
  split; [intros [[H|H]|H]; lra|].
  intros [H1 H2].
  destruct (Rlt_dec (frame_start strip) frame_min) as [L|L].
  - destruct (Rlt_dec frame_max (frame_end strip)); [left; left; lra | right; lra].
  - left; right; lra.
Qed.

(** Without animation data nothing is yielded. For a range with
    [frame_min <= frame_max] and strips that end after they start, the strips
    yielded are those of the tracks that are not muted which overlap the open range:
    they start before [frame_max] and end after [frame_min]; a strip that only
    touches the range at an end point is left out. *)
Theorem nla_strips_overlap_range (animation_data : AnimData) (frame_min frame_max : R) :
  (frame_min <= frame_max)%R ->
  (forall t s, In t (nla_tracks animation_data) -> In s (strips t) ->
               (frame_start s < frame_end s)%R) ->
  get_nla_strips_in_frame_range None frame_min frame_max = [] /\
  forall s,
    In s (get_nla_strips_in_frame_range (Some animation_data) frame_min frame_max) <->
    exists t, In t (nla_tracks animation_data) /\ mute t = false /\ In s (strips t) /\
              (frame_start s < frame_max /\ frame_min < frame_end s)%R.
Proof.
  intros Hr Hs. split; [reflexivity|].
  intros s. unfold get_nla_strips_in_frame_range. rewrite in_flat_map. split.
  - intros (t & Ht & H). destruct (mute t) eqn:Hm; [contradiction|].
    apply filter_In in H. destruct H as [Hin H].
    apply strip_in_range_overlap in H; [|exact Hr|exact (Hs t s Ht Hin)].
    exists t. auto.
  - intros (t & Ht & Hm & Hin & H). exists t. split; [assumption|].
    rewrite Hm. apply filter_In. split; [assumption|].
    apply strip_in_range_overlap; [exact Hr|exact (Hs t s Ht Hin)|exact H].
Qed.

Lemma nla_strips_overlap_range_witness :
  In (mkNlaStrip 5 15)
     (get_nla_strips_in_frame_range
        (Some (mkAnimData [mkNlaTrack true [mkNlaStrip 0 100];
                           mkNlaTrack false [mkNlaStrip 0 10; mkNlaStrip 5 15]]))
        10 20) /\
  ~ In (mkNlaStrip 0 10)
       (get_nla_strips_in_frame_range
          (Some (mkAnimData [mkNlaTrack true [mkNlaStrip 0 100];
                             mkNlaTrack false [mkNlaStrip 0 10; mkNlaStrip 5 15]]))
          10 20).
Proof.
  assert (Hr : (10 <= 20)%R) by lra.
  assert (Hs : forall t s,
             In t (nla_tracks (mkAnimData [mkNlaTrack true [mkNlaStrip 0 100];
                                           mkNlaTrack false [mkNlaStrip 0 10; mkNlaStrip 5 15]])) ->
             In s (strips t) -> (frame_start s < frame_end s)%R).
  { intros t s [<-|[<-|[]]] Hin; simpl in Hin;
      repeat (destruct Hin as [<-|Hin]; [simpl; lra|]); contradiction. }
  destruct (nla_strips_overlap_range _ 10 20 Hr Hs) as [_ H].
  split.
  - apply H. exists (mkNlaTrack false [mkNlaStrip 0 10; mkNlaStrip 5 15]).
    simpl. repeat split; auto; lra.
  - intros Hin. apply H in Hin. destruct Hin as (t & _ & _ & _ & _ & Hlt).
    simpl in Hlt. lra.
Defined.

(** ** The bone transformer: when it returns, and what the records hold *)

Section TransformerMore.

Variable encode_windows_1252 : string -> option (list byte).
Variable get_coordinate_system_transform : string -> string -> Matrix4.
Variable Matrix3_to_quaternion : Matrix3 -> Quaternion.
Variable Matrix4_to_quaternion : Matrix4 -> Quaternion.
Variable decompose : Matrix4 -> Vector * Quaternion * Vector.
Variable bones : list Bone.
Variable export_space : string.
Variable armature_object_matrix_world : Matrix4.
Variable scale : R.
Variable forward_axis up_axis : string.

Local Abbreviation transform :=
  (local_transform get_coordinate_system_transform Matrix3_to_quaternion
     Matrix4_to_quaternion export_space armature_object_matrix_world forward_axis up_axis).
Local Abbreviation step :=
  (convert_bone encode_windows_1252 get_coordinate_system_transform
     Matrix3_to_quaternion Matrix4_to_quaternion decompose bones export_space
     armature_object_matrix_world scale forward_axis up_axis).
Local Abbreviation loop :=
  (convert_loop encode_windows_1252 get_coordinate_system_transform
     Matrix3_to_quaternion Matrix4_to_quaternion decompose bones export_space
     armature_object_matrix_world scale forward_axis up_axis).

(** What a turn of the loop that does not raise tells about its bone. *)
Lemma convert_bone_needs (bone : Bone) (acc acc' : list PsxBone) :
  step bone acc = Ok acc' ->
  encodable encode_windows_1252 bone = true /\
  valid_export_space export_space || negb (is_parentless bone) = true /\
  (forall j, parent_position bones bone = Some j -> (j < length acc)%nat) /\
  length acc' = S (length acc) /\
  exists x name_bytes, acc' = removelast acc' ++ [x] /\
    encode_windows_1252 (name bone) = Some name_bytes /\ psx_name x = name_bytes /\
    flags x = 0%Z.
Proof.
  unfold convert_bone, encodable, parent_position. intros H.
  destruct (encode_windows_1252 (name bone)) as [nb|]; simpl in H; [|discriminate].
  destruct (Nat.ltb_spec 64 (length nb)) as [L|L]; simpl in H; [discriminate|].
  assert (Hv : forall tr, transform bone = Ok tr ->
                 valid_export_space export_space || negb (is_parentless bone) = true).
  { intros tr. unfold local_transform, get_armature_local_matrix, valid_export_space,
      is_parentless.
    destruct (parent bone); [intros _; apply orb_true_r|].
    destruct (String.eqb export_space "WORLD"); [reflexivity|].
    destruct (String.eqb export_space "ARMATURE"); [reflexivity|discriminate]. }
  destruct (match parent bone with
            | Some p => find_index (Bone_eqb p) bones 0
            | None => None
            end) as [j|] eqn:Ej; simpl in H.
  - destruct (increment_children_count acc j) as [acc1| |] eqn:Ei; simpl in H;
      try discriminate.
    destruct (transform bone) as [tr| |] eqn:Et; simpl in H; try discriminate.
    inversion H; subst acc'; clear H.
    apply increment_children_count_Ok in Ei. destruct Ei as (Hj & Hl & _).
    split; [apply Nat.leb_le; assumption|split; [eapply Hv; eauto|split; [|split]]].
    + intros j' E. inversion E; subst. assumption.
    + rewrite length_app. simpl. lia.
    + rewrite removelast_last. eexists. exists nb. repeat split.
  - destruct (transform bone) as [tr| |] eqn:Et; simpl in H; try discriminate.
    inversion H; subst acc'; clear H.
    split; [apply Nat.leb_le; assumption|split; [eapply Hv; eauto|split; [|split]]].
    + discriminate.
    + rewrite length_app. simpl. lia.
    + rewrite removelast_last. eexists. exists nb. repeat split.
Qed.

Lemma convert_loop_needs (todo : list Bone) :
  forall acc psx,
    loop todo acc = Ok psx ->
    forallb (encodable encode_windows_1252) todo = true /\
    forallb (fun b => valid_export_space export_space || negb (is_parentless b)) todo = true /\
    (forall i b j, nth_error todo i = Some b -> parent_position bones b = Some j ->
                   (j < length acc + i)%nat).
Proof.
  induction todo as [|bone todo IH]; intros acc psx H; simpl in H.
  - repeat split. intros [|i] b j Hb; discriminate.
  - destruct (step bone acc) as [acc'| |] eqn:Es; simpl in H; try discriminate.
    destruct (convert_bone_needs bone acc acc' Es) as (He & Hv & Hj & Hl & _).
    destruct (IH acc' psx H) as (He' & Hv' & Hj').
    simpl. rewrite He, Hv, He', Hv'. repeat split.
    intros [|i] b j Hb Hp; simpl in Hb.
    + inversion Hb; subst b. specialize (Hj j Hp). lia.
    + specialize (Hj' i b j Hb Hp). lia.
Qed.

End TransformerMore.

(** Once [get_coordinate_system_transform] has returned the matrix of the two axes
    (it is not among the sources and is given as the function [cst]), the conversion
    returns exactly when every name can be encoded in at most 64 bytes, the export
    space is 'WORLD' or 'ARMATURE' unless no bone lacks a parent, and every bone
    whose parent is an element of the list stands after it; otherwise it raises. In
    particular a child listed before its parent makes it fail, and a bone whose
    parent is not an element of the list does not, whatever the name of the
    parent. *)
Theorem transformer_returns_iff (encode : string -> option (list byte))
      (cst : string -> string -> Matrix4) (q3 : Matrix3 -> Quaternion)
      (q4 : Matrix4 -> Quaternion) (dec : Matrix4 -> Vector * Quaternion * Vector)
      (bones : list Bone) (space : string) (world : Matrix4) (scale : R) (f u : string) :
  ((exists psx,
       convert_blender_bones_to_psx_bones encode cst q3 q4 dec bones space world scale f u
       = Ok psx) <->
   forallb (encodable encode) bones
   && forallb (fun b => valid_export_space space || negb (is_parentless b)) bones
   && parents_before bones = true) /\
  ((exists e,
       convert_blender_bones_to_psx_bones encode cst q3 q4 dec bones space world scale f u
       = Raise e) <->
   forallb (encodable encode) bones
   && forallb (fun b => valid_export_space space || negb (is_parentless b)) bones
   && parents_before bones = false).
Proof.
  assert (K : (exists psx,
       convert_blender_bones_to_psx_bones encode cst q3 q4 dec bones space world scale f u
       = Ok psx) <->
   forallb (encodable encode) bones
   && forallb (fun b => valid_export_space space || negb (is_parentless b)) bones
   && parents_before bones = true).
  { rewrite !andb_true_iff. split.
    - intros (psx & H). unfold convert_blender_bones_to_psx_bones in H.
      destruct (convert_loop_needs encode cst q3 q4 dec bones space world scale f u
                  bones [] psx H) as (He & Hv & Hj).
      repeat split; auto. unfold parents_before. apply forallb_forall.
      intros [i b] Hib. apply In_enumerate in Hib. simpl.
      destruct (parent_position bones b) as [j|] eqn:Ej; [|reflexivity].
      apply Nat.ltb_lt. exact (Hj i b j Hib Ej).
    - intros [[He Hv] Hp]. apply convert_total; assumption. }
  split; [exact K|].
  assert (R := convert_loop_returns encode cst q3 q4 dec bones world scale f u space bones []).
  fold (convert_blender_bones_to_psx_bones encode cst q3 q4 dec bones space world scale f u)
    in R.
  destruct (convert_blender_bones_to_psx_bones encode cst q3 q4 dec bones space world
              scale f u) as [psx|e|] eqn:E.
  - split.
    + intros (e & He). discriminate.
    + intros Hf. assert (T := proj1 K (ex_intro _ psx eq_refl)). congruence.
  - split; [|eauto]. intros _.
    destruct (forallb (encodable encode) bones
              && forallb (fun b => valid_export_space space || negb (is_parentless b)) bones
              && parents_before bones) eqn:B; [|reflexivity].
    destruct (proj2 K eq_refl) as (psx & Hp). discriminate.
  - contradiction.
Qed.

(** A child listed before its parent: the conversion raises. *)
Lemma transformer_returns_iff_witness :
  exists e, sample_convert [bone_child; bone_root] "WORLD" 1 = Raise e.
Proof.
  apply (proj2 (transformer_returns_iff sample_encode sample_transform sample_to_quaternion3
                  sample_to_quaternion4 sample_decompose [bone_child; bone_root] "WORLD"
                  Matrix_Identity4 1 "X" "Z")).
  reflexivity.
Defined.

(** When the conversion returns, the records stand in the order of the bones; each
    has the encoded name of its bone (at most 64 bytes) and [flags = 0]; and a bone
    whose parent is in the list gets the position of that parent as [parent_index],
    a position before its own. No bone is listed twice and the list is shorter than
    2^31. *)
Theorem transformer_records (encode : string -> option (list byte))
      (cst : string -> string -> Matrix4) (q3 : Matrix3 -> Quaternion)
      (q4 : Matrix4 -> Quaternion) (dec : Matrix4 -> Vector * Quaternion * Vector)
      (bones : list Bone) (space : string) (world : Matrix4) (scale : R) (f u : string)
      (psx : list PsxBone) :
  NoDup (map as_pointer bones) -> (len bones < 2 ^ 31)%Z ->
  convert_blender_bones_to_psx_bones encode cst q3 q4 dec bones space world scale f u
  = Ok psx ->
  forall i bone, nth_error bones i = Some bone ->
    exists x, nth_error psx i = Some x /\
              encode (name bone) = Some (psx_name x) /\
              (length (psx_name x) <= 64)%nat /\ flags x = 0%Z /\
              forall j p b, parent bone = Some p -> nth_error bones j = Some b ->
                            Bone_eqb p b = true ->
                            parent_index x = Z.of_nat j /\ (j < i)%nat.
Proof.
  intros Hnd Hlen H i bone Hi. unfold convert_blender_bones_to_psx_bones in H.
  destruct (convert_loop_Ok encode cst q3 q4 dec bones world f u space scale bones [] psx H)
    as (_ & _ & Hnew).
  destruct (convert_loop_needs encode cst q3 q4 dec bones space world scale f u
              bones [] psx H) as (He & _ & Hj).
  destruct (Hnew i bone Hi) as (nb & tr & x & Hnb & _ & Hx & S).
  destruct S as (Hname & Hflags & Hpi & _). simpl in Hname, Hflags, Hpi, Hx.
  exists x. split; [exact Hx|].
  rewrite forallb_forall in He. specialize (He bone (nth_error_In _ _ Hi)).
  unfold encodable in He. rewrite Hnb in He. apply Nat.leb_le in He.
  rewrite <- Hname, <- Hflags.
  split; [exact Hnb|split; [exact He|split; [reflexivity|]]].
  intros j p b Hp Hb Hpb.
  assert (Hpos : parent_position bones bone = Some j).
  { unfold parent_position. rewrite Hp. exact (find_index_bone bones j b p Hnd Hb Hpb). }
  assert (L := Hj i bone j Hi Hpos). simpl in L.
  split; [|exact L].
  rewrite <- Hpi, Hpos. apply c_int32_small.
  assert (L' : (i < length bones)%nat) by (apply nth_error_Some; congruence).
  unfold len in Hlen. lia.
Qed.

Lemma transformer_records_witness :
  match sample_convert [bone_root; bone_child] "WORLD" 1 with
  | Ok psx => exists x, nth_error psx 1 = Some x /\ parent_index x = 0%Z /\ flags x = 0%Z
  | _ => False
  end.
Proof.
  destruct (convert_total sample_encode sample_transform sample_to_quaternion3
              sample_to_quaternion4 sample_decompose [bone_root; bone_child] "WORLD"
              Matrix_Identity4 1 "X" "Z" eq_refl eq_refl eq_refl) as (psx & E).
  unfold sample_convert. rewrite E.
  assert (Hnd : NoDup (map as_pointer [bone_root; bone_child]))
    by (simpl; repeat constructor; simpl; intuition discriminate).
  destruct (transformer_records sample_encode sample_transform sample_to_quaternion3
              sample_to_quaternion4 sample_decompose [bone_root; bone_child] "WORLD"
              Matrix_Identity4 1 "X" "Z" psx Hnd eq_refl E 1%nat bone_child eq_refl)
    as (x & Hx & _ & _ & Hf & Hp).
  exists x. split; [exact Hx|split; [|exact Hf]].
  exact (proj1 (Hp 0%nat bone_root bone_root eq_refl eq_refl eq_refl)).
Defined.

(** A bone whose parent is not in the list, placed before a bone that has the name
    of that parent: the conversion returns. *)
Example transformer_unlisted_parent_returns :
  exists psx, sample_convert [bone_stray; bone_root] "WORLD" 1 = Ok psx.
Proof.
  exact (convert_total sample_encode sample_transform sample_to_quaternion3
           sample_to_quaternion4 sample_decompose [bone_stray; bone_root] "WORLD"
           Matrix_Identity4 1 "X" "Z" eq_refl eq_refl eq_refl).
Qed.

(** ** Export spaces *)

Module ExportProperties.

(** psk/export/properties.py, lines 15-18: identifier, label and description of the
    export spaces a user can pick. *)
Definition export_space_items : list (string * string * string) :=
  [ ("WORLD", "World", "Export in world space");
    ("ARMATURE", "Armature", "Export in armature space") ].

End ExportProperties.

Import ExportProperties.

Lemma convert_loop_ext (encode : string -> option (list byte))
      (cst : string -> string -> Matrix4) (q3 : Matrix3 -> Quaternion)
      (q4 : Matrix4 -> Quaternion) (dec : Matrix4 -> Vector * Quaternion * Vector)
      (bones : list Bone) (space space' : string) (world world' : Matrix4) (scale : R)
      (f u : string) :
  (forall bone acc,
      convert_bone encode cst q3 q4 dec bones space world scale f u bone acc
      = convert_bone encode cst q3 q4 dec bones space' world' scale f u bone acc) ->
  forall todo acc,
    convert_loop encode cst q3 q4 dec bones space world scale f u todo acc
    = convert_loop encode cst q3 q4 dec bones space' world' scale f u todo acc.
Proof.
  intros E. induction todo as [|bone todo IH]; intros acc; simpl; [reflexivity|].
  rewrite E.
  destruct (convert_bone encode cst q3 q4 dec bones space' world' scale f u bone acc);
    simpl; auto.
Qed.

(** The identifiers offered for the export space are exactly the values the
    conversion accepts for a bone without parent. In 'ARMATURE' space the world matrix
    of the armature object matters only through its scale: two world matrices with the
    same scale component give the same records. And for an object whose world matrix
    is the identity, 'WORLD' and 'ARMATURE' space give the same records. *)
Theorem export_space_choices (encode : string -> option (list byte))
      (cst : string -> string -> Matrix4) (q3 : Matrix3 -> Quaternion)
      (q4 : Matrix4 -> Quaternion) (dec : Matrix4 -> Vector * Quaternion * Vector)
      (bones : list Bone) (world world' : Matrix4) (scale : R) (f u : string) :
  (forall space,
      In space (map (fun item => fst (fst item)) export_space_items) <->
      exists m, get_armature_local_matrix space world = Ok m) /\
  (snd (dec world) = snd (dec world') ->
   convert_blender_bones_to_psx_bones encode cst q3 q4 dec bones "ARMATURE" world scale f u
   = convert_blender_bones_to_psx_bones encode cst q3 q4 dec bones "ARMATURE" world' scale
       f u) /\
  convert_blender_bones_to_psx_bones encode cst q3 q4 dec bones "WORLD" Matrix_Identity4
    scale f u
  = convert_blender_bones_to_psx_bones encode cst q3 q4 dec bones "ARMATURE"
      Matrix_Identity4 scale f u.
Proof.
  split; [|split].
  - intros space. unfold get_armature_local_matrix. simpl. split.
    + intros [E|[E|[]]]; subst space; simpl; eauto.
    + intros (m & E).
      destruct (String.eqb_spec space "WORLD") as [->|_]; [auto|].
      destruct (String.eqb_spec space "ARMATURE") as [->|_]; [auto|discriminate].
  - intros Hs. unfold convert_blender_bones_to_psx_bones. apply convert_loop_ext.
    intros bone acc. unfold convert_bone, scaled_location, local_transform,
      get_armature_local_matrix. simpl String.eqb. rewrite Hs. reflexivity.
  - unfold convert_blender_bones_to_psx_bones. apply convert_loop_ext.
    intros bone acc. unfold convert_bone, scaled_location, local_transform,
      get_armature_local_matrix. simpl String.eqb. reflexivity.
Qed.

(** The world matrix of an armature object moved to (3, 4, 5): a translation, of
    scale 1 as the identity. *)
Definition sample_translation : Matrix4 :=
  mkMatrix4 (mkRow4 1 0 0 3) (mkRow4 0 1 0 4) (mkRow4 0 0 1 5) (mkRow4 0 0 0 1).

Lemma export_space_choices_witness :
  convert_blender_bones_to_psx_bones sample_encode sample_transform sample_to_quaternion3
    sample_to_quaternion4 sample_decompose [bone_root; bone_child] "ARMATURE"
    sample_translation 1 "X" "Z"
  = convert_blender_bones_to_psx_bones sample_encode sample_transform sample_to_quaternion3
      sample_to_quaternion4 sample_decompose [bone_root; bone_child] "ARMATURE"
      Matrix_Identity4 1 "X" "Z".
Proof.
  apply (proj1 (proj2 (export_space_choices sample_encode sample_transform
                         sample_to_quaternion3 sample_to_quaternion4 sample_decompose
                         [bone_root; bone_child] sample_translation Matrix_Identity4 1
                         "X" "Z"))).
  reflexivity.
Defined.

(** ** The writer: what reaches the file and what does not *)

Section WriterMore.

Context {Face Material Weight : Type}.
Context {Vector3_Structure : Structure Vector}.
Context {Wedge16_Structure : Structure Wedge}.
Context {Face_Structure : Structure Face}.
Context {Material_Structure : Structure Material}.
Context {Bone_Structure : Structure PsxBone}.
Context {Weight_Structure : Structure Weight}.

Variable c_float : R -> R.
Variable os : FileSystem -> string -> list byte -> io_outcome.

Local Abbreviation Psk := (@Psk Face Material Weight).

Lemma reencode_material_index (w : Wedge) :
  material_index (reencode_wedge c_float w) = (material_index w mod 2 ^ 8)%Z.
Proof. reflexivity. Qed.

Lemma map_material_index_unchanged (ws : list Wedge) :
  map material_index (reencode_wedges c_float ws) = map material_index ws <->
  Forall (fun w => (0 <= material_index w < 256)%Z) ws.
Proof.
  unfold reencode_wedges. induction ws as [|w ws IH]; cbn [map].
  - split; constructor.
  - rewrite reencode_material_index. split.
    + intros H. inversion H as [[Hw Hws]]. constructor; [|apply IH; assumption].
      rewrite <- Hw. apply Z.mod_pos_bound. lia.
    + intros H. inversion H as [|? ? Hw Hws]; subst.
      rewrite Z.mod_small by lia. f_equal. apply IH; assumption.
Qed.

(** The material index of a wedge goes to the file reduced modulo 256, the range
    of its one-byte field: the indices are written unchanged exactly when each is
    below 256. Unlike the point indices, they are kept in range by the capacity
    checks: in a container that passes them, indices that point into the material
    list are written unchanged. The number of wedges is kept, and [u] and [v] go
    through the narrowing of their single-precision fields and nothing else. *)
Theorem wedge_material_index_written (psk : Psk) :
  length (reencode_wedges c_float (wedges psk)) = length (wedges psk) /\
  map material_index (reencode_wedges c_float (wedges psk))
  = map (fun w => (material_index w mod 2 ^ 8)%Z) (wedges psk) /\
  (map material_index (reencode_wedges c_float (wedges psk))
   = map material_index (wedges psk) <->
   Forall (fun w => (0 <= material_index w < 256)%Z) (wedges psk)) /\
  (~ capacity_exceeded psk ->
   Forall (fun w => (0 <= material_index w < len (materials psk))%Z) (wedges psk) ->
   map material_index (reencode_wedges c_float (wedges psk))
   = map material_index (wedges psk)) /\
  map u (reencode_wedges c_float (wedges psk)) = map (fun w => c_float (u w)) (wedges psk) /\
  map v (reencode_wedges c_float (wedges psk)) = map (fun w => c_float (v w)) (wedges psk).
Proof.
  split; [|split; [|split; [|split; [|split]]]].
  - unfold reencode_wedges. apply length_map.
  - unfold reencode_wedges. rewrite map_map. reflexivity.
  - apply map_material_index_unchanged.
  - intros C F. apply map_material_index_unchanged.
    eapply Forall_impl; [|exact F]. simpl. intros w H.
    unfold capacity_exceeded in C. lia.
  - unfold reencode_wedges. rewrite map_map. reflexivity.
  - unfold reencode_wedges. rewrite map_map. reflexivity.
Qed.

(** The writer touches no file but the one at [path]. When a capacity check fails
    or the file cannot be opened, that one is untouched as well; whenever the writer
    raises, the file system is as it was or the file at [path] holds the first bytes
    of what was to be written, and nothing else. When the writer returns, the file
    at [path] holds what was written in this call only, whatever it held before. *)
Theorem export_psk_only_path (psk : Psk) (path : string) (fs : FileSystem) :
  (forall p, p <> path -> fst (export_psk c_float os psk path fs) p = fs p) /\
  (capacity_exceeded psk \/ (exists e, os fs path (file_image c_float psk) = OpenRaises e) ->
   fst (export_psk c_float os psk path fs) = fs) /\
  (forall e, snd (export_psk c_float os psk path fs) = Raise e ->
     fst (export_psk c_float os psk path fs) = fs \/
     exists landed,
       fst (export_psk c_float os psk path fs) path
       = Some (firstn landed (file_image c_float psk))) /\
  (forall fs', snd (export_psk c_float os psk path fs) = Ok tt ->
               snd (export_psk c_float os psk path fs') = Ok tt ->
               fst (export_psk c_float os psk path fs) path
               = fst (export_psk c_float os psk path fs') path).
Proof.
  destruct (capacity_exceeded_dec psk) as [C|C].
  - destruct (export_psk_rejects c_float os psk path fs C) as (m & E). rewrite E. simpl.
    split; [|split; [|split]]; auto.
    intros fs' H. discriminate.
  - rewrite (export_psk_passes c_float os psk path fs C).
    split; [|split; [|split]].
    + intros p Hp.
      destruct (os fs path (file_image c_float psk)); simpl; unfold store;
        try reflexivity; destruct (String.eqb_spec p path); try contradiction; reflexivity.
    + intros [H|(e & H)]; [contradiction|]. rewrite H. reflexivity.
    + intros e.
      destruct (os fs path (file_image c_float psk)) as [|e'|landed e']; simpl.
      * discriminate.
      * intros _. left. reflexivity.
      * intros _. right. exists landed. unfold store. rewrite String.eqb_refl. reflexivity.
    + intros fs' H H'.
      rewrite (export_psk_passes c_float os psk path fs' C) in *.
      destruct (os fs path (file_image c_float psk)); simpl in H; try discriminate.
      destruct (os fs' path (file_image c_float psk)); simpl in H'; try discriminate.
      simpl. unfold store. rewrite String.eqb_refl. reflexivity.
Qed.

End WriterMore.

(** On an operating system that finds no directory for the file, a container that
    passes the capacity checks is not written: [open] raises and no file is
    touched. *)
Example export_psk_no_directory :
  @export_psk unit unit unit (blank_structure Vector 12) (blank_structure Wedge 16)
    (blank_structure unit 12) (blank_structure unit 88) (blank_structure PsxBone 120)
    (blank_structure unit 12) exact_float no_directory_os minimal_psk "missing/out.psk"
    (fun _ => None)
  = (fun _ => None, Raise (OSError [Lit "No such file or directory"])).
Proof. reflexivity. Qed.

(** ** psk/exporter.py: the material list of the export panel *)

Module ExporterPanel.

(** A Blender material, as far as the panel reads it. *)
Record BlenderMaterial : Type := mkBlenderMaterial {
  blender_material_name : string
}.

(** A mesh object: the material slots of its [data], a slot being empty or not. *)
Record MeshObject : Type := mkMeshObject {
  data_materials : list (option BlenderMaterial)
}.

(** [MaterialListItem] (lines 78-84). *)
Record MaterialListItem : Type := mkMaterialListItem {
  material_name : string;
  index : Z
}.

(** Lines 92-97: the slots of one mesh object. *)
Fixpoint scan_slots (slots : list (nat * option BlenderMaterial))
    (material_names : list string) : result (list string) :=
  match slots with
  | [] => Ok material_names
  | (i, None) :: _ =>
      Raise (RuntimeError [Lit "Material cannot be empty (index "; Int (Z.of_nat i); Lit ")"])
  | (i, Some material) :: slots' =>
      scan_slots slots'
        (if existsb (String.eqb (blender_material_name material)) material_names
         then material_names
         else material_names ++ [blender_material_name material])
  end.

(** Lines 91-97. *)
Fixpoint scan_objects (mesh_objects : list MeshObject) (material_names : list string)
    : result (list string) :=
  match mesh_objects with
  | [] => Ok material_names
  | mesh_object :: mesh_objects' =>
      material_names <- scan_slots (enumerate (data_materials mesh_object)) material_names ;;
      scan_objects mesh_objects' material_names
  end.

(** [populate_material_list] (lines 87-102): the list as it is left, and the outcome.
    The list is cleared before anything can raise. *)
Definition populate_material_list (mesh_objects : list MeshObject)
    (material_list : list MaterialListItem) : list MaterialListItem * result unit :=
  let material_list : list MaterialListItem := [] in
  match scan_objects mesh_objects [] with
  | Ok material_names =>
      (material_list
       ++ map (fun im : nat * string => mkMaterialListItem (snd im) (Z.of_nat (fst im)))
              (enumerate material_names),
       Ok tt)
  | Raise e => (material_list, Raise e)
  | Diverge => (material_list, Diverge)
  end.

(** The part of the [psk_export] property group the move operators work on. *)
Record MaterialPanel : Type := mkMaterialPanel {
  material_list : list MaterialListItem;
  material_list_index : Z
}.

(** [bpy_prop_collection.move(from, to)]: the item at [from] is taken out and put
    back at [to]; nothing happens unless both are positions of the list. *)
Definition move {A : Type} (l : list A) (src dst : Z) : list A :=
  if ((0 <=? src) && (src <? len l) && (0 <=? dst) && (dst <? len l))%Z then
    match nth_error l (Z.to_nat src) with
    | Some x =>
        let rest := firstn (Z.to_nat src) l ++ skipn (S (Z.to_nat src)) l in
        firstn (Z.to_nat dst) rest ++ x :: skipn (Z.to_nat dst) rest
    | None => l
    end
  else l.

(** [PskMaterialListItemMoveUp] (lines 105-120). *)
Definition move_up_poll (pg : MaterialPanel) : bool :=
  (0 <? material_list_index pg)%Z.

Definition move_up_execute (pg : MaterialPanel) : MaterialPanel :=
  mkMaterialPanel
    (move (material_list pg) (material_list_index pg) (material_list_index pg - 1))
    (material_list_index pg - 1).

(** [PskMaterialListItemMoveDown] (lines 123-138). *)
Definition move_down_poll (pg : MaterialPanel) : bool :=
  (material_list_index pg <? len (material_list pg) - 1)%Z.

Definition move_down_execute (pg : MaterialPanel) : MaterialPanel :=
  mkMaterialPanel
    (move (material_list pg) (material_list_index pg) (material_list_index pg + 1))
    (material_list_index pg + 1).

End ExporterPanel.

Import ExporterPanel.

(** The names of the filled slots of the mesh objects, in order. *)
Definition slot_names (mesh_objects : list MeshObject) : list string :=
  flat_map (fun o =>
              flat_map (fun s : option BlenderMaterial =>
                          match s with
                          | Some m => [blender_material_name m]
                          | None => []
                          end) (data_materials o))
           mesh_objects.

(** A list without its repetitions, each element standing where it first occurs. *)
Definition first_occurrences (l : list string) : list string :=
  rev (nodup string_dec (rev l)).

Lemma nodup_drop_later (x : string) (l1 l2 : list string) :
  In x l2 -> nodup string_dec (l1 ++ x :: l2) = nodup string_dec (l1 ++ l2).
Proof.
  intros Hx. induction l1 as [|a l1 IH]; simpl.
  - destruct (in_dec string_dec x l2); [reflexivity|contradiction].
  - rewrite IH.
    destruct (in_dec string_dec a (l1 ++ x :: l2)) as [I|I];
      destruct (in_dec string_dec a (l1 ++ l2)) as [J|J]; try reflexivity; exfalso.
    + apply J. apply in_app_or in I. apply in_or_app.
      destruct I as [I|[I|I]]; subst; auto.
    + apply I. apply in_app_or in J. apply in_or_app.
      destruct J as [J|J]; [left|right; right]; assumption.
Qed.

Lemma first_occurrences_seen (acc : list string) (x : string) (l : list string) :
  In x acc -> first_occurrences (acc ++ x :: l) = first_occurrences (acc ++ l).
Proof.
  intros Hx. unfold first_occurrences. f_equal.
  rewrite !rev_app_distr. simpl. rewrite <- app_assoc. simpl.
  apply nodup_drop_later. apply -> in_rev. exact Hx.
Qed.

Lemma existsb_eqb_In (x : string) (l : list string) :
  existsb (String.eqb x) l = true <-> In x l.
Proof.
  rewrite existsb_exists. split.
  - intros (y & Hy & E). apply String.eqb_eq in E. subst. exact Hy.
  - intros H. exists x. split; [exact H|apply String.eqb_refl].
Qed.

Definition no_empty_slot (o : MeshObject) : Prop := ~ In None (data_materials o).

(** Lines 96-97 on a name. *)
Definition add_name (material_names : list string) (n : string) : list string :=
  if existsb (String.eqb n) material_names then material_names else material_names ++ [n].

Definition filled_names (slots : list (option BlenderMaterial)) : list string :=
  flat_map (fun s : option BlenderMaterial =>
              match s with
              | Some m => [blender_material_name m]
              | None => []
              end) slots.

Lemma scan_slots_Ok (slots : list (option BlenderMaterial)) :
  ~ In None slots ->
  forall (k : nat) (acc : list string),
    scan_slots (combine (seq k (length slots)) slots) acc
    = Ok (fold_left add_name (filled_names slots) acc).
Proof.
  induction slots as [|s slots IH]; intros Hn k acc; simpl; [reflexivity|].
  destruct s as [m|]; [|exfalso; apply Hn; left; reflexivity].
  assert (Hn' : ~ In None slots) by (intros H; apply Hn; right; exact H).
  rewrite (IH Hn' (S k)). reflexivity.
Qed.

Lemma scan_objects_Ok (mesh_objects : list MeshObject) :
  Forall no_empty_slot mesh_objects ->
  forall acc,
    scan_objects mesh_objects acc = Ok (fold_left add_name (slot_names mesh_objects) acc).
Proof.
  induction mesh_objects as [|o os IH]; intros Hf acc; simpl; [reflexivity|].
  inversion Hf as [|? ? Ho Hos]; subst.
  unfold enumerate. rewrite (scan_slots_Ok (data_materials o) Ho 0 acc). simpl.
  rewrite (IH Hos). fold (filled_names (data_materials o)). fold (slot_names os).
  rewrite fold_left_app. reflexivity.
Qed.

Lemma first_occurrences_NoDup (l : list string) :
  NoDup l -> first_occurrences l = l.
Proof.
  intros H. unfold first_occurrences.
  rewrite nodup_fixed_point by (apply NoDup_rev; exact H). apply rev_involutive.
Qed.

Lemma fold_add_name (l : list string) :
  forall acc, NoDup acc -> fold_left add_name l acc = first_occurrences (acc ++ l).
Proof.
  induction l as [|x l IH]; intros acc Hnd; simpl.
  - rewrite app_nil_r. symmetry. apply first_occurrences_NoDup. exact Hnd.
  - unfold add_name at 2.
    destruct (existsb (String.eqb x) acc) eqn:E.
    + rewrite (IH acc Hnd). symmetry. apply first_occurrences_seen.
      apply existsb_eqb_In. exact E.
    + rewrite IH.
      * rewrite <- app_assoc. reflexivity.
      * apply NoDup_app; [exact Hnd|repeat constructor; intros []|].
        intros y Hy [Ey|[]]. subst y. apply existsb_eqb_In in Hy. congruence.
Qed.

Lemma scan_slots_Raise (pre post : list (option BlenderMaterial)) :
  ~ In None pre ->
  forall (k : nat) (acc : list string),
    scan_slots (combine (seq k (length (pre ++ None :: post))) (pre ++ None :: post)) acc
    = Raise (RuntimeError [Lit "Material cannot be empty (index ";
                           Int (Z.of_nat (k + length pre)); Lit ")"]).
Proof.
  induction pre as [|s pre IH]; intros Hn k acc; simpl.
  - rewrite Nat.add_0_r. reflexivity.
  - destruct s as [m|]; [|exfalso; apply Hn; left; reflexivity].
    rewrite IH by (intros H; apply Hn; right; exact H).
    replace (S k + length pre)%nat with (k + S (length pre))%nat by lia. reflexivity.
Qed.

Definition sample_meshes : list MeshObject :=
  [ mkMeshObject [Some (mkBlenderMaterial "skin"); Some (mkBlenderMaterial "cloth")];
    mkMeshObject [Some (mkBlenderMaterial "cloth"); Some (mkBlenderMaterial "metal");
                  Some (mkBlenderMaterial "skin")] ].

Definition sample_meshes_with_gap : list MeshObject :=
  [ mkMeshObject [Some (mkBlenderMaterial "skin")];
    mkMeshObject [Some (mkBlenderMaterial "cloth"); None; Some (mkBlenderMaterial "metal")] ].

Lemma populate_material_list_Ok_names (mesh_objects : list MeshObject)
      (previous : list MaterialListItem) :
  Forall no_empty_slot mesh_objects ->
  map material_name (fst (populate_material_list mesh_objects previous))
  = first_occurrences (slot_names mesh_objects).
Proof.
  intros Hf. unfold populate_material_list.
  rewrite (scan_objects_Ok mesh_objects Hf []), (fold_add_name _ [] (NoDup_nil _)).
  cbn [app fst snd]. rewrite map_map. cbn [material_name].
  rewrite <- (map_map snd (fun x => x)), map_snd_enumerate. apply map_id.
Qed.

(** When no mesh object has an empty material slot, [populate_material_list] returns
    and leaves in the list, whatever it held before, one entry for each material name
    in use and no other: the names without repetition in the order of their first use,
    among the slots of the objects taken in order, each entry with its position as
    index. *)
Theorem populate_material_list_names (mesh_objects : list MeshObject)
      (previous : list MaterialListItem) :
  Forall no_empty_slot mesh_objects ->
  snd (populate_material_list mesh_objects previous) = Ok tt /\
  map material_name (fst (populate_material_list mesh_objects previous))
  = first_occurrences (slot_names mesh_objects) /\
  NoDup (map material_name (fst (populate_material_list mesh_objects previous))) /\
  (forall n, In n (map material_name (fst (populate_material_list mesh_objects previous)))
             <-> In n (slot_names mesh_objects)) /\
  map index (fst (populate_material_list mesh_objects previous))
  = map Z.of_nat (seq 0 (length (fst (populate_material_list mesh_objects previous)))).
Proof.
  intros Hf. rewrite (populate_material_list_Ok_names mesh_objects previous Hf).
  unfold populate_material_list.
  rewrite (scan_objects_Ok mesh_objects Hf []), (fold_add_name _ [] (NoDup_nil _)).
  cbn [app fst snd]. unfold first_occurrences.
  set (names := rev (nodup string_dec (rev (slot_names mesh_objects)))).
  split; [reflexivity|split; [reflexivity|split; [|split]]].
  - apply NoDup_rev, NoDup_nodup.
  - intros n. unfold names. rewrite <- in_rev, nodup_In, <- in_rev. reflexivity.
  - rewrite map_map. cbn [index]. rewrite length_map, enumerate_length.
    rewrite <- (map_map fst Z.of_nat), map_fst_enumerate. reflexivity.
Qed.

Lemma populate_material_list_names_witness :
  map material_name (fst (populate_material_list sample_meshes []))
  = ["skin"; "cloth"; "metal"].
Proof.
  destruct (populate_material_list_names sample_meshes []) as (_ & E & _).
  - repeat constructor; unfold no_empty_slot; simpl; intros H;
      repeat (destruct H as [H|H]; [discriminate|]); exact H.
  - rewrite E. reflexivity.
Defined.

(** At the first empty material slot [populate_material_list] raises a RuntimeError
    that gives the position of the slot in its own object, and the list is left empty,
    whatever it held before. *)
Theorem populate_material_list_empty_slot (before after : list MeshObject) (o : MeshObject)
      (pre post : list (option BlenderMaterial)) (previous : list MaterialListItem) :
  Forall no_empty_slot before ->
  data_materials o = pre ++ None :: post ->
  ~ In None pre ->
  populate_material_list (before ++ o :: after) previous
  = ([], Raise (RuntimeError [Lit "Material cannot be empty (index "; Int (len pre);
                              Lit ")"])).
Proof.
  intros Hb Ho Hpre. unfold populate_material_list.
  assert (E : forall acc,
             scan_objects (before ++ o :: after) acc
             = Raise (RuntimeError [Lit "Material cannot be empty (index "; Int (len pre);
                                    Lit ")"])).
  { induction before as [|b before IH]; intros acc; simpl.
    - unfold enumerate. rewrite Ho, (scan_slots_Raise pre post Hpre 0 acc). reflexivity.
    - inversion Hb as [|? ? Hb1 Hb2]; subst.
      unfold enumerate. rewrite (scan_slots_Ok (data_materials b) Hb1 0 acc). simpl.
      apply IH. exact Hb2. }
  rewrite E. reflexivity.
Qed.

Lemma populate_material_list_empty_slot_witness :
  populate_material_list sample_meshes_with_gap
    [mkMaterialListItem "old" 0]
  = ([], Raise (RuntimeError [Lit "Material cannot be empty (index "; Int 1; Lit ")"])).
Proof.
  apply (populate_material_list_empty_slot
           [mkMeshObject [Some (mkBlenderMaterial "skin")]] []
           (mkMeshObject [Some (mkBlenderMaterial "cloth"); None;
                          Some (mkBlenderMaterial "metal")])
           [Some (mkBlenderMaterial "cloth")] [Some (mkBlenderMaterial "metal")]).
  - repeat constructor. unfold no_empty_slot. simpl. intros [H|[]]. discriminate.
  - reflexivity.
  - simpl. intros [H|[]]. discriminate.
Defined.

(** *** Moving an entry of the material list *)

Section Move.

Context {A : Type}.

Lemma firstn_length_app (a r : list A) : firstn (length a) (a ++ r) = a.
Proof. induction a; simpl; [destruct r|f_equal]; auto. Qed.

Lemma skipn_length_app (a r : list A) : skipn (length a) (a ++ r) = r.
Proof. induction a; simpl; auto. Qed.

Lemma nth_error_length_app (a r : list A) (x : A) :
  nth_error (a ++ x :: r) (length a) = Some x.
Proof. induction a; simpl; auto. Qed.

Lemma move_outside (l : list A) (src dst : Z) :
  (src < 0 \/ len l <= src \/ dst < 0 \/ len l <= dst)%Z -> move l src dst = l.
Proof.
  intros H. unfold move.
  destruct (Z.leb_spec 0 src); destruct (Z.ltb_spec src (len l));
    destruct (Z.leb_spec 0 dst); destruct (Z.ltb_spec dst (len l));
    simpl; try reflexivity; exfalso; lia.
Qed.

Lemma move_in_range (l : list A) (src dst : Z) (x : A) :
  (0 <= src < len l)%Z -> (0 <= dst < len l)%Z ->
  nth_error l (Z.to_nat src) = Some x ->
  move l src dst
  = firstn (Z.to_nat dst) (firstn (Z.to_nat src) l ++ skipn (S (Z.to_nat src)) l)
    ++ x :: skipn (Z.to_nat dst) (firstn (Z.to_nat src) l ++ skipn (S (Z.to_nat src)) l).
Proof.
  intros Hs Hd Hx. unfold move.
  destruct (Z.leb_spec 0 src); [|lia]. destruct (Z.ltb_spec src (len l)); [|lia].
  destruct (Z.leb_spec 0 dst); [|lia]. destruct (Z.ltb_spec dst (len l)); [|lia].
  simpl. rewrite Hx. reflexivity.
Qed.

(** Moving an entry one place up or down exchanges it with its neighbour. *)
Lemma move_swap (a b : list A) (x y : A) :
  move (a ++ x :: y :: b) (len a + 1) (len a) = a ++ y :: x :: b /\
  move (a ++ x :: y :: b) (len a) (len a + 1) = a ++ y :: x :: b.
Proof.
  assert (L : len (a ++ x :: y :: b) = (len a + 2 + len b)%Z).
  { unfold len. rewrite length_app. simpl. lia. }
  assert (N0 : Z.to_nat (len a) = length a) by (unfold len; lia).
  assert (N1 : Z.to_nat (len a + 1) = S (length a)) by (unfold len; lia).
  assert (P : (0 <= len a)%Z /\ (0 <= len b)%Z) by (unfold len; lia).
  split.
  - rewrite (move_in_range _ _ _ y) by
        (try lia; rewrite N1;
         change (a ++ x :: y :: b) with (a ++ [x] ++ y :: b); rewrite app_assoc;
         replace (S (length a)) with (length (a ++ [x])) by (rewrite length_app; simpl; lia);
         apply nth_error_length_app).
    rewrite N0, N1.
    replace (firstn (S (length a)) (a ++ x :: y :: b)) with (a ++ [x]).
    2:{ change (a ++ x :: y :: b) with (a ++ [x] ++ y :: b). rewrite app_assoc.
        replace (S (length a)) with (length (a ++ [x])) by (rewrite length_app; simpl; lia).
        symmetry. apply firstn_length_app. }
    replace (skipn (S (S (length a))) (a ++ x :: y :: b)) with b.
    2:{ change (a ++ x :: y :: b) with (a ++ [x; y] ++ b). rewrite app_assoc.
        replace (S (S (length a))) with (length (a ++ [x; y]))
          by (rewrite length_app; simpl; lia).
        symmetry. apply skipn_length_app. }
    rewrite <- app_assoc, firstn_length_app, skipn_length_app. reflexivity.
  - rewrite (move_in_range _ _ _ x) by (try lia; rewrite N0; apply nth_error_length_app).
    rewrite N0, N1, firstn_length_app.
    replace (skipn (S (length a)) (a ++ x :: y :: b)) with (y :: b).
    2:{ change (a ++ x :: y :: b) with (a ++ [x] ++ y :: b). rewrite app_assoc.
        replace (S (length a)) with (length (a ++ [x])) by (rewrite length_app; simpl; lia).
        symmetry. apply skipn_length_app. }
    change (a ++ y :: b) with (a ++ [y] ++ b). rewrite app_assoc.
    replace (S (length a)) with (length (a ++ [y])) by (rewrite length_app; simpl; lia).
    rewrite firstn_length_app, skipn_length_app, <- app_assoc. reflexivity.
Qed.

Lemma split_adjacent (l : list A) (i : Z) :
  (0 <= i)%Z -> (i + 1 < len l)%Z ->
  exists a x y b, l = a ++ x :: y :: b /\ len a = i.
Proof.
  intros H0 H1. unfold len in *.
  assert (E := firstn_skipn (Z.to_nat i) l).
  assert (La : length (firstn (Z.to_nat i) l) = Z.to_nat i) by (rewrite length_firstn; lia).
  assert (Lb : length (skipn (Z.to_nat i) l) = (length l - Z.to_nat i)%nat)
    by apply length_skipn.
  destruct (skipn (Z.to_nat i) l) as [|x [|y b]]; simpl in Lb; try lia.
  exists (firstn (Z.to_nat i) l), x, y, b. split; [symmetry; exact E|lia].
Qed.

End Move.

(** Moving the selected material up and then down, or down and then up, leaves the
    list and the selection as they were, and a move never adds, drops or repeats an
    entry. When the selection is an entry of the list and the operator is available
    (its [poll] holds), the selected entry and its neighbour change places, the
    selection follows the entry, and the opposite operator is available afterwards. *)
Theorem material_list_moves (pg : MaterialPanel) :
  move_down_execute (move_up_execute pg) = pg /\
  move_up_execute (move_down_execute pg) = pg /\
  Permutation (material_list (move_up_execute pg)) (material_list pg) /\
  Permutation (material_list (move_down_execute pg)) (material_list pg) /\
  (move_up_poll pg = true ->
   (material_list_index pg < len (material_list pg))%Z ->
   move_down_poll (move_up_execute pg) = true /\
   nth_error (material_list (move_up_execute pg))
             (Z.to_nat (material_list_index (move_up_execute pg)))
   = nth_error (material_list pg) (Z.to_nat (material_list_index pg)) /\
   nth_error (material_list (move_up_execute pg)) (Z.to_nat (material_list_index pg))
   = nth_error (material_list pg) (Z.to_nat (material_list_index pg - 1))) /\
  (move_down_poll pg = true ->
   (0 <= material_list_index pg)%Z ->
   move_up_poll (move_down_execute pg) = true /\
   nth_error (material_list (move_down_execute pg))
             (Z.to_nat (material_list_index (move_down_execute pg)))
   = nth_error (material_list pg) (Z.to_nat (material_list_index pg)) /\
   nth_error (material_list (move_down_execute pg)) (Z.to_nat (material_list_index pg))
   = nth_error (material_list pg) (Z.to_nat (material_list_index pg + 1))).
Proof.
  destruct pg as [l i].
  unfold move_down_execute, move_up_execute, move_down_poll, move_up_poll.
  cbn [material_list material_list_index].
  assert (Up : (1 <= i < len l)%Z ->
               exists a x y b, l = a ++ x :: y :: b /\ len a = (i - 1)%Z /\
                 move l i (i - 1) = a ++ y :: x :: b).
  { intros H. destruct (split_adjacent l (i - 1)) as (a & x & y & b & E & La); try lia.
    exists a, x, y, b. split; [exact E|split; [exact La|]].
    rewrite E. replace i with (len a + 1)%Z at 1 by lia. rewrite <- La.
    apply move_swap. }
  assert (Down : (0 <= i < len l - 1)%Z ->
               exists a x y b, l = a ++ x :: y :: b /\ len a = i /\
                 move l i (i + 1) = a ++ y :: x :: b).
  { intros H. destruct (split_adjacent l i) as (a & x & y & b & E & La); try lia.
    exists a, x, y, b. split; [exact E|split; [exact La|]].
    rewrite E, <- La. apply move_swap. }
  assert (Sw : forall (a b : list MaterialListItem) x y,
             Permutation (a ++ y :: x :: b) (a ++ x :: y :: b)).
  { intros. apply Permutation_app_head. apply perm_swap. }
  assert (Nth : forall (a b : list MaterialListItem) x y,
             nth_error (a ++ x :: y :: b) (Z.to_nat (len a)) = Some x /\
             nth_error (a ++ x :: y :: b) (Z.to_nat (len a + 1)) = Some y).
  { intros a b x y. unfold len. split.
    - rewrite Nat2Z.id. apply nth_error_length_app.
    - replace (Z.to_nat (Z.of_nat (length a) + 1)) with (length (a ++ [x]))
        by (rewrite length_app; simpl; lia).
      change (a ++ x :: y :: b) with (a ++ [x] ++ y :: b). rewrite app_assoc.
      apply nth_error_length_app. }
  split; [|split; [|split; [|split; [|split]]]].
  - destruct (Z_lt_le_dec i 1) as [L|L]; [|destruct (Z_lt_le_dec i (len l)) as [M|M]].
    + rewrite (move_outside l i (i - 1)) by lia.
      rewrite (move_outside l (i - 1) (i - 1 + 1)) by lia. f_equal. lia.
    + destruct (Up (conj L M)) as (a & x & y & b & E & La & Em). rewrite Em.
      replace (i - 1 + 1)%Z with (len a + 1)%Z by lia. rewrite <- La.
      rewrite (proj2 (move_swap a b y x)), La, E. f_equal. lia.
    + rewrite (move_outside l i (i - 1)) by lia.
      rewrite (move_outside l (i - 1) (i - 1 + 1)) by lia. f_equal. lia.
  - destruct (Z_lt_le_dec i 0) as [L|L]; [|destruct (Z_lt_le_dec i (len l - 1)) as [M|M]].
    + rewrite (move_outside l i (i + 1)) by lia.
      rewrite (move_outside l (i + 1) (i + 1 - 1)) by lia. f_equal. lia.
    + destruct (Down (conj L M)) as (a & x & y & b & E & La & Em). rewrite Em.
      replace (i + 1 - 1)%Z with (len a) by lia.
      replace (i + 1)%Z with (len a + 1)%Z by lia.
      rewrite (proj1 (move_swap a b y x)), La, E. reflexivity.
    + rewrite (move_outside l i (i + 1)) by lia.
      rewrite (move_outside l (i + 1) (i + 1 - 1)) by lia. f_equal. lia.
  - destruct (Z_lt_le_dec i 1) as [L|L]; [|destruct (Z_lt_le_dec i (len l)) as [M|M]].
    + rewrite (move_outside l i (i - 1)) by lia. apply Permutation_refl.
    + destruct (Up (conj L M)) as (a & x & y & b & E & La & Em). rewrite Em, E. apply Sw.
    + rewrite (move_outside l i (i - 1)) by lia. apply Permutation_refl.
  - destruct (Z_lt_le_dec i 0) as [L|L]; [|destruct (Z_lt_le_dec i (len l - 1)) as [M|M]].
    + rewrite (move_outside l i (i + 1)) by lia. apply Permutation_refl.
    + destruct (Down (conj L M)) as (a & x & y & b & E & La & Em). rewrite Em, E. apply Sw.
    + rewrite (move_outside l i (i + 1)) by lia. apply Permutation_refl.
  - intros Hp Hi. apply Z.ltb_lt in Hp.
    assert (R : (1 <= i < len l)%Z) by lia.
    destruct (Up R) as (a & x & y & b & E & La & Em). rewrite Em.
    assert (L' : len (a ++ y :: x :: b) = len l).
    { rewrite E. unfold len. rewrite !length_app. reflexivity. }
    split; [apply Z.ltb_lt; lia|].
    rewrite E. replace i with (len a + 1)%Z by lia.
    replace (len a + 1 - 1)%Z with (len a) by lia.
    destruct (Nth a b x y) as [N1 N2]. destruct (Nth a b y x) as [N3 N4].
    rewrite N1, N2, N3, N4. split; reflexivity.
  - intros Hp Hi. apply Z.ltb_lt in Hp.
    assert (R : (0 <= i < len l - 1)%Z) by lia.
    destruct (Down R) as (a & x & y & b & E & La & Em). rewrite Em.
    split; [apply Z.ltb_lt; lia|].
    rewrite E, <- La.
    destruct (Nth a b x y) as [N1 N2]. destruct (Nth a b y x) as [N3 N4].
    rewrite N1, N2, N3, N4. split; reflexivity.
Qed.

Definition sample_panel : MaterialPanel :=
  mkMaterialPanel [mkMaterialListItem "skin" 0; mkMaterialListItem "cloth" 1;
                   mkMaterialListItem "metal" 2] 1.

Lemma material_list_moves_witness :
  map material_name (material_list (move_up_execute sample_panel))
  = ["cloth"; "skin"; "metal"] /\
  material_list_index (move_up_execute sample_panel) = 0%Z /\
  move_down_execute (move_up_execute sample_panel) = sample_panel.
Proof.
  split; [reflexivity|split; [reflexivity|]].
  exact (proj1 (material_list_moves sample_panel)).
Defined.

(** ** psk/exporter.py: the export operator *)

Module ExporterOperator.

(** [PskBuildOptions], with the fields [execute] assigns. *)
Record PskBuildOptions : Type := mkPskBuildOptions {
  options_bone_filter_mode : string;
  options_bone_group_indices : list Z;
  options_use_raw_mesh_data : bool;
  options_material_names : list string;
  options_should_ignore_bone_name_restrictions : bool
}.

(** [PskExportPropertyGroup] (lines 241-262). *)
Record PskExportPropertyGroup : Type := mkPskExportPropertyGroup {
  bone_filter_mode : string;
  bone_group_list : list ListItem;
  bone_group_list_index : Z;
  use_raw_mesh_data : bool;
  pg_material_list : list MaterialListItem;
  pg_material_list_index : Z;
  should_ignore_bone_name_restrictions : bool
}.

(** What [self.report] has been called with: the report type and the text. *)
Definition report : Type := string * message.

(** Lines 224-229. *)
Definition build_options (pg : PskExportPropertyGroup) : PskBuildOptions :=
  mkPskBuildOptions
    (bone_filter_mode pg)
    (selected_indices (bone_group_list pg))
    (use_raw_mesh_data pg)
    (map material_name (pg_material_list pg))
    (should_ignore_bone_name_restrictions pg).

Section Operator.

Context {Face Material Weight : Type}.
Context {Vector3_Structure : Structure Vector}.
Context {Wedge16_Structure : Structure Wedge}.
Context {Face_Structure : Structure Face}.
Context {Material_Structure : Structure Material}.
Context {Bone_Structure : Structure PsxBone}.
Context {Weight_Structure : Structure Weight}.

(** The narrowing of floats by the wedge records and the operating system, as for
    [export_psk]. *)
Variable c_float : R -> R.
Variable os : FileSystem -> string -> list byte -> io_outcome.

(** [build_psk] of psk/builder.py, in the context at hand. *)
Variable build_psk : PskBuildOptions -> result (@Psk Face Material Weight).

(** [PskExportOperator.execute] (lines 222-238): the file system and the reports it
    leaves, and the set it returns or the exception that escapes. *)
Definition execute (pg : PskExportPropertyGroup) (filepath : string) (fs : FileSystem)
    : FileSystem * list report * result string :=
  let options := build_options pg in
  match build_psk options with
  | Ok psk =>
      match export_psk c_float os psk filepath fs with
      | (fs', Ok _) => (fs', [("INFO", [Lit "PSK export successful"])], Ok "FINISHED")
      | (fs', Raise (RuntimeError e)) =>
          (fs', [("ERROR_INVALID_CONTEXT", e)], Ok "CANCELLED")
      | (fs', Raise e) => (fs', [], Raise e)
      | (fs', Diverge) => (fs', [], Diverge)
      end
  | Raise (RuntimeError e) => (fs, [("ERROR_INVALID_CONTEXT", e)], Ok "CANCELLED")
  | Raise e => (fs, [], Raise e)
  | Diverge => (fs, [], Diverge)
  end.

End Operator.

End ExporterOperator.

Import ExporterOperator.

Section OperatorFacts.

Context {Face Material Weight : Type}.
Context {Vector3_Structure : Structure Vector}.
Context {Wedge16_Structure : Structure Wedge}.
Context {Face_Structure : Structure Face}.
Context {Material_Structure : Structure Material}.
Context {Bone_Structure : Structure PsxBone}.
Context {Weight_Structure : Structure Weight}.

Variable c_float : R -> R.
Variable os : FileSystem -> string -> list byte -> io_outcome.
Variable build_psk : PskBuildOptions -> result (@Psk Face Material Weight).

Definition is_RuntimeError (e : exn) : Prop := exists m, e = RuntimeError m.

(** The file cannot be opened, or a write to it fails, with the error [m]. *)
Definition os_raises (fs : FileSystem) (path : string) (content : list byte)
    (m : message) : Prop :=
  os fs path content = OpenRaises m \/ exists landed, os fs path content = WriteRaises landed m.

Lemma os_cases (fs : FileSystem) (path : string) (content : list byte) :
  os fs path content = Completes \/ exists m, os_raises fs path content m.
Proof.
  unfold os_raises. destruct (os fs path content) as [|m|landed m]; eauto 6.
Qed.

Lemma execute_build_raises (pg : PskExportPropertyGroup) (filepath : string)
      (fs : FileSystem) (e : exn) :
  build_psk (build_options pg) = Raise e ->
  execute c_float os build_psk pg filepath fs
  = match e with
    | RuntimeError m => (fs, [("ERROR_INVALID_CONTEXT", m)], Ok "CANCELLED")
    | _ => (fs, [], Raise e)
    end.
Proof. intros B. unfold execute. rewrite B. destruct e; reflexivity. Qed.

Lemma execute_capacity (pg : PskExportPropertyGroup) (filepath : string)
      (fs : FileSystem) (psk : @Psk Face Material Weight) :
  build_psk (build_options pg) = Ok psk -> capacity_exceeded psk ->
  exists m, snd (export_psk c_float os psk filepath fs) = Raise (RuntimeError m) /\
            execute c_float os build_psk pg filepath fs
            = (fs, [("ERROR_INVALID_CONTEXT", m)], Ok "CANCELLED").
Proof.
  intros B C. unfold execute. rewrite B.
  destruct (export_psk_rejects c_float os psk filepath fs C) as (m & E).
  exists m. rewrite E. split; reflexivity.
Qed.

Lemma execute_written (pg : PskExportPropertyGroup) (filepath : string)
      (fs : FileSystem) (psk : @Psk Face Material Weight) :
  build_psk (build_options pg) = Ok psk -> ~ capacity_exceeded psk ->
  os fs filepath (file_image c_float psk) = Completes ->
  execute c_float os build_psk pg filepath fs
  = (store fs filepath (file_image c_float psk),
     [("INFO", [Lit "PSK export successful"])], Ok "FINISHED").
Proof.
  intros B C Hos. unfold execute. rewrite B.
  rewrite (export_psk_passes c_float os psk filepath fs C), Hos. reflexivity.
Qed.

Lemma execute_os_raises (pg : PskExportPropertyGroup) (filepath : string)
      (fs : FileSystem) (psk : @Psk Face Material Weight) (m : message) :
  build_psk (build_options pg) = Ok psk -> ~ capacity_exceeded psk ->
  os_raises fs filepath (file_image c_float psk) m ->
  snd (execute c_float os build_psk pg filepath fs) = Raise (OSError m) /\
  snd (fst (execute c_float os build_psk pg filepath fs)) = [].
Proof.
  intros B C Hos. unfold execute. rewrite B.
  rewrite (export_psk_passes c_float os psk filepath fs C).
  destruct Hos as [Hos|(landed & Hos)]; rewrite Hos; split; reflexivity.
Qed.

(** The export operator finishes exactly when [build_psk] returns a container that
    passes the capacity checks and the file is opened and written without error; the
    file then holds the seven sections of that container and one 'INFO' report is
    made. It is cancelled exactly when [build_psk] raises a RuntimeError or its
    container fails a capacity check; then no file is touched and the one report is
    an 'ERROR_INVALID_CONTEXT' with the text of the error. An exception escapes
    exactly when [build_psk] raises one that is not a RuntimeError, or the operating
    system raises one at opening or writing the file; it is never a RuntimeError,
    and nothing is reported. The operator returns no other set. *)
Theorem export_operator_outcome (pg : PskExportPropertyGroup) (filepath : string)
      (fs : FileSystem) :
  let outcome := execute c_float os build_psk pg filepath fs in
  let built := build_psk (build_options pg) in
  (snd outcome = Ok "FINISHED" <->
   exists psk, built = Ok psk /\ ~ capacity_exceeded psk /\
               os fs filepath (file_image c_float psk) = Completes) /\
  (forall psk, built = Ok psk -> ~ capacity_exceeded psk ->
     os fs filepath (file_image c_float psk) = Completes ->
     outcome = (store fs filepath (file_image c_float psk),
                [("INFO", [Lit "PSK export successful"])], Ok "FINISHED")) /\
  (snd outcome = Ok "CANCELLED" <->
   (exists m, built = Raise (RuntimeError m)) \/
   (exists psk, built = Ok psk /\ capacity_exceeded psk)) /\
  (snd outcome = Ok "CANCELLED" ->
   fst (fst outcome) = fs /\
   exists m, snd (fst outcome) = [("ERROR_INVALID_CONTEXT", m)] /\
             (built = Raise (RuntimeError m) \/
              exists psk, built = Ok psk /\
                          snd (export_psk c_float os psk filepath fs)
                          = Raise (RuntimeError m))) /\
  (forall e, snd outcome = Raise e <->
     (built = Raise e /\ ~ is_RuntimeError e) \/
     (exists psk m, built = Ok psk /\ ~ capacity_exceeded psk /\ e = OSError m /\
                    os_raises fs filepath (file_image c_float psk) m)) /\
  (forall e, snd outcome = Raise e -> snd (fst outcome) = [] /\ ~ is_RuntimeError e) /\
  (forall s, snd outcome = Ok s -> s = "FINISHED" \/ s = "CANCELLED").
Proof.
  cbv zeta.
  assert (NR : forall m, ~ is_RuntimeError (OSError m))
    by (intros m (m' & H); discriminate).
  destruct (build_psk (build_options pg)) as [psk|e|] eqn:B.
  - destruct (capacity_exceeded_dec psk) as [C|C];
      [|destruct (os_cases fs filepath (file_image c_float psk)) as [Hos|(m & Hos)]].
    + destruct (execute_capacity pg filepath fs psk B C) as (m & E & X). rewrite X.
      cbn [fst snd].
      split; [|split; [|split; [|split; [|split; [|split]]]]].
      * split; [discriminate|].
        intros (psk' & Hp & Hc & _). inversion Hp; subst. contradiction.
      * intros psk' Hp Hc. inversion Hp; subst. contradiction.
      * split; [|reflexivity]. intros _. right. exists psk. auto.
      * intros _. split; [reflexivity|].
        exists m. split; [reflexivity|]. right. exists psk. auto.
      * intros e. split; [discriminate|].
        intros [[He _]|(psk' & m' & Hp & Hc & _)]; [discriminate|].
        inversion Hp; subst. contradiction.
      * intros e. discriminate.
      * intros s Hs. inversion Hs. auto.
    + rewrite (execute_written pg filepath fs psk B C Hos). cbn [fst snd].
      split; [|split; [|split; [|split; [|split; [|split]]]]].
      * split; [|reflexivity]. intros _. exists psk. auto.
      * intros psk' Hp Hc _. inversion Hp; subst. reflexivity.
      * split; [discriminate|].
        intros [(m & Hm)|(psk' & Hp & Hc)]; [discriminate|].
        inversion Hp; subst. contradiction.
      * discriminate.
      * intros e. split; [discriminate|].
        intros [[He _]|(psk' & m' & Hp & _ & _ & Hr)]; [discriminate|].
        inversion Hp; subst psk'. unfold os_raises in Hr. rewrite Hos in Hr.
        destruct Hr as [Hr|(landed & Hr)]; discriminate.
      * intros e. discriminate.
      * intros s Hs. inversion Hs. auto.
    + destruct (execute_os_raises pg filepath fs psk m B C Hos) as [X Y].
      rewrite X, Y.
      split; [|split; [|split; [|split; [|split; [|split]]]]].
      * split; [discriminate|].
        intros (psk' & Hp & _ & Hc). inversion Hp; subst psk'.
        unfold os_raises in Hos. rewrite Hc in Hos.
        destruct Hos as [Hr|(landed & Hr)]; discriminate.
      * intros psk' Hp _ Hc. inversion Hp; subst psk'.
        unfold os_raises in Hos. rewrite Hc in Hos.
        destruct Hos as [Hr|(landed & Hr)]; discriminate.
      * split; [discriminate|].
        intros [(m' & Hm)|(psk' & Hp & Hc)]; [discriminate|].
        inversion Hp; subst. contradiction.
      * discriminate.
      * intros e. split.
        -- intros He. inversion He; subst e. right. exists psk, m. auto.
        -- intros [[He _]|(psk' & m' & Hp & _ & He & Hr)]; [discriminate|].
           inversion Hp; subst psk'. subst e. f_equal. f_equal.
           unfold os_raises in Hos, Hr.
           destruct Hos as [H1|(l1 & H1)], Hr as [H2|(l2 & H2)]; congruence.
      * intros e He. inversion He; subst e. split; [reflexivity|apply NR].
      * discriminate.
  - rewrite (execute_build_raises pg filepath fs e B).
    destruct e as [m|m|m|m].
    + cbn [fst snd].
      split; [|split; [|split; [|split; [|split; [|split]]]]].
      * split; [discriminate|]. intros (psk & Hp & _). discriminate.
      * intros psk Hp. discriminate.
      * split; [|reflexivity]. intros _. left. exists m. reflexivity.
      * intros _. split; [reflexivity|]. exists m. auto.
      * intros e. split; [discriminate|].
        intros [[He Hn]|(psk & m' & Hp & _)]; [|discriminate].
        exfalso. apply Hn. inversion He; subst. exists m. reflexivity.
      * intros e. discriminate.
      * intros s Hs. inversion Hs. auto.
    + cbn [fst snd].
      split; [|split; [|split; [|split; [|split; [|split]]]]].
      * split; [discriminate|]. intros (psk & Hp & _). discriminate.
      * intros psk Hp. discriminate.
      * split; [discriminate|].
        intros [(m' & Hm)|(psk & Hp & _)]; discriminate.
      * discriminate.
      * intros e'. split.
        -- intros He. inversion He; subst. left. split; [reflexivity|].
           intros (m' & Hm). discriminate.
        -- intros [[He _]|(psk & m' & Hp & _)]; [congruence|discriminate].
      * intros e' He. inversion He; subst. split; [reflexivity|].
        intros (m' & Hm). discriminate.
      * discriminate.
    + cbn [fst snd].
      split; [|split; [|split; [|split; [|split; [|split]]]]].
      * split; [discriminate|]. intros (psk & Hp & _). discriminate.
      * intros psk Hp. discriminate.
      * split; [discriminate|].
        intros [(m' & Hm)|(psk & Hp & _)]; discriminate.
      * discriminate.
      * intros e'. split.
        -- intros He. inversion He; subst. left. split; [reflexivity|].
           intros (m' & Hm). discriminate.
        -- intros [[He _]|(psk & m' & Hp & _)]; [congruence|discriminate].
      * intros e' He. inversion He; subst. split; [reflexivity|].
        intros (m' & Hm). discriminate.
      * discriminate.
    + cbn [fst snd].
      split; [|split; [|split; [|split; [|split; [|split]]]]].
      * split; [discriminate|]. intros (psk & Hp & _). discriminate.
      * intros psk Hp. discriminate.
      * split; [discriminate|].
        intros [(m' & Hm)|(psk & Hp & _)]; discriminate.
      * discriminate.
      * intros e'. split.
        -- intros He. inversion He; subst. left. split; [reflexivity|].
           intros (m' & Hm). discriminate.
        -- intros [[He _]|(psk & m' & Hp & _)]; [congruence|discriminate].
      * intros e' He. inversion He; subst. split; [reflexivity|].
        intros (m' & Hm). discriminate.
      * discriminate.
  - unfold execute. rewrite B. cbn [fst snd].
    split; [|split; [|split; [|split; [|split; [|split]]]]].
    + split; [discriminate|]. intros (psk & Hp & _). discriminate.
    + intros psk Hp. discriminate.
    + split; [discriminate|]. intros [(m' & Hm)|(psk & Hp & _)]; discriminate.
    + discriminate.
    + intros e. split; [discriminate|].
      intros [[He _]|(psk & m' & Hp & _)]; discriminate.
    + intros e. discriminate.
    + discriminate.
Qed.

End OperatorFacts.

(** ** psk/exporter.py: opening the export dialog *)

Module ExporterInvoke.

Section Invoke.

(** What [get_psk_input_objects] of psk/builder.py gives: the armature object and the
    mesh objects. *)
Variable ArmatureObject : Type.

Record PskInputObjects : Type := mkPskInputObjects {
  armature_object : ArmatureObject;
  mesh_objects : list MeshObject
}.

(** [get_psk_input_objects(context)] in the context at hand, and
    [populate_bone_group_list], which leaves a new list in place of the one given. *)
Variable get_psk_input_objects : result PskInputObjects.
Variable populate_bone_group_list : ArmatureObject -> list ListItem -> result (list ListItem).

(** What [invoke] leaves behind: the property group, the reports, and whether the
    file selector has been opened. *)
Record InvokeState : Type := mkInvokeState {
  psk_export : PskExportPropertyGroup;
  reports : list report;
  fileselect_added : bool
}.

Definition with_bone_group_list (l : list ListItem) (pg : PskExportPropertyGroup)
    : PskExportPropertyGroup :=
  mkPskExportPropertyGroup (bone_filter_mode pg) l (bone_group_list_index pg)
    (use_raw_mesh_data pg) (pg_material_list pg) (pg_material_list_index pg)
    (should_ignore_bone_name_restrictions pg).

Definition with_material_list (l : list MaterialListItem) (pg : PskExportPropertyGroup)
    : PskExportPropertyGroup :=
  mkPskExportPropertyGroup (bone_filter_mode pg) (bone_group_list pg)
    (bone_group_list_index pg) (use_raw_mesh_data pg) l (pg_material_list_index pg)
    (should_ignore_bone_name_restrictions pg).

(** [PskExportOperator.invoke] (lines 155-175). *)
Definition invoke (pg : PskExportPropertyGroup) : InvokeState * result string :=
  match get_psk_input_objects with
  | Raise (RuntimeError e) =>
      (mkInvokeState pg [("ERROR_INVALID_CONTEXT", e)] false, Ok "CANCELLED")
  | Raise e => (mkInvokeState pg [] false, Raise e)
  | Diverge => (mkInvokeState pg [] false, Diverge)
  | Ok input_objects =>
      match populate_bone_group_list (armature_object input_objects) (bone_group_list pg) with
      | Raise e => (mkInvokeState pg [] false, Raise e)
      | Diverge => (mkInvokeState pg [] false, Diverge)
      | Ok bone_groups =>
          let pg := with_bone_group_list bone_groups pg in
          match populate_material_list (mesh_objects input_objects) (pg_material_list pg) with
          | (materials, Raise (RuntimeError e)) =>
              (mkInvokeState (with_material_list materials pg)
                 [("ERROR_INVALID_CONTEXT", e)] false, Ok "CANCELLED")
          | (materials, Raise e) =>
              (mkInvokeState (with_material_list materials pg) [] false, Raise e)
          | (materials, Diverge) =>
              (mkInvokeState (with_material_list materials pg) [] false, Diverge)
          | (materials, Ok _) =>
              (mkInvokeState (with_material_list materials pg) [] true, Ok "RUNNING_MODAL")
          end
      end
  end.

End Invoke.

Arguments armature_object {ArmatureObject} p.
Arguments mesh_objects {ArmatureObject} p.

End ExporterInvoke.

Import ExporterInvoke.

Lemma scan_slots_cases (slots : list (option BlenderMaterial)) :
  forall (k : nat) (acc : list string),
    (~ In None slots /\ exists names,
        scan_slots (combine (seq k (length slots)) slots) acc = Ok names) \/
    (In None slots /\ exists m,
        scan_slots (combine (seq k (length slots)) slots) acc = Raise (RuntimeError m)).
Proof.
  induction slots as [|[mat|] slots IH]; intros k acc; simpl.
  - left. split; [tauto|eauto].
  - destruct (IH (S k)
                (if existsb (String.eqb (blender_material_name mat)) acc
                 then acc else acc ++ [blender_material_name mat]))
      as [[Hn (names & E)]|[Hi (m & E)]].
    + left. split; [|eauto]. intros [H|H]; [discriminate|contradiction].
    + right. split; [auto|eauto].
  - right. split; [auto|eauto].
Qed.

Lemma scan_objects_cases (objs : list MeshObject) :
  forall acc,
    (Forall no_empty_slot objs /\ exists names, scan_objects objs acc = Ok names) \/
    (~ Forall no_empty_slot objs /\
     exists m, scan_objects objs acc = Raise (RuntimeError m)).
Proof.
  induction objs as [|o objs IH]; intros acc; simpl.
  - left. split; [constructor|eauto].
  - unfold enumerate.
    destruct (scan_slots_cases (data_materials o) 0 acc) as [[Hn (names & E)]|[Hi (m & E)]];
      rewrite E; simpl.
    + destruct (IH names) as [[Hf (names' & E')]|[Hf (m & E')]].
      * left. split; [constructor; assumption|eauto].
      * right. split; [|eauto]. intros F. inversion F; subst. contradiction.
    + right. split; [|eauto]. intros F. inversion F as [|? ? Ho Hos]; subst.
      apply Ho. exact Hi.
Qed.

(** [populate_material_list] returns exactly when no mesh object has an empty
    material slot; otherwise it raises a RuntimeError and leaves the list empty. *)
Lemma populate_material_list_cases (objs : list MeshObject)
      (previous : list MaterialListItem) :
  (Forall no_empty_slot objs /\ snd (populate_material_list objs previous) = Ok tt) \/
  (~ Forall no_empty_slot objs /\
   exists m, populate_material_list objs previous = ([], Raise (RuntimeError m))).
Proof.
  unfold populate_material_list.
  destruct (scan_objects_cases objs []) as [[Hf (names & E)]|[Hf (m & E)]]; rewrite E.
  - left. auto.
  - right. split; [exact Hf|eauto].
Qed.

Section InvokeFacts.

Variable ArmatureObject : Type.
Variable get_psk_input_objects : result (PskInputObjects ArmatureObject).
Variable populate_bone_group_list :
  ArmatureObject -> list ListItem -> result (list ListItem).

Local Abbreviation run :=
  (invoke ArmatureObject get_psk_input_objects populate_bone_group_list).

(** Opening the export dialog: [invoke] opens the file selector exactly when it
    returns 'RUNNING_MODAL', which it does exactly when the input objects are found,
    the bone group list is refreshed and no mesh object has an empty material slot;
    the panel then shows the refreshed bone groups and one material entry for each
    material name in use. When the input objects are found and the bone groups
    refreshed but some material slot is empty, the operator is cancelled with one
    error report, and the panel is left with the refreshed bone groups and an empty
    material list. When the input objects are not found (a RuntimeError), it is
    cancelled with the panel as it was. *)
Theorem invoke_outcome (pg : PskExportPropertyGroup) :
  (fileselect_added (fst (run pg)) = true <-> snd (run pg) = Ok "RUNNING_MODAL") /\
  (snd (run pg) = Ok "RUNNING_MODAL" <->
   exists input bone_groups,
     get_psk_input_objects = Ok input /\
     populate_bone_group_list (armature_object input) (bone_group_list pg) = Ok bone_groups /\
     Forall no_empty_slot (mesh_objects input)) /\
  (forall input bone_groups,
     get_psk_input_objects = Ok input ->
     populate_bone_group_list (armature_object input) (bone_group_list pg) = Ok bone_groups ->
     bone_group_list (psk_export (fst (run pg))) = bone_groups /\
     (Forall no_empty_slot (mesh_objects input) ->
      map material_name (pg_material_list (psk_export (fst (run pg))))
      = first_occurrences (slot_names (mesh_objects input)) /\
      reports (fst (run pg)) = []) /\
     (~ Forall no_empty_slot (mesh_objects input) ->
      snd (run pg) = Ok "CANCELLED" /\
      pg_material_list (psk_export (fst (run pg))) = [] /\
      exists m, reports (fst (run pg)) = [("ERROR_INVALID_CONTEXT", m)])) /\
  (forall m, get_psk_input_objects = Raise (RuntimeError m) ->
     run pg = (mkInvokeState pg [("ERROR_INVALID_CONTEXT", m)] false, Ok "CANCELLED")).
Proof.
  unfold invoke.
  destruct get_psk_input_objects as [input|e|] eqn:G.
  - destruct (populate_bone_group_list (armature_object input) (bone_group_list pg))
      as [bone_groups|e|] eqn:P.
    + cbv zeta.
      set (pg' := with_bone_group_list bone_groups pg).
      destruct (populate_material_list_cases (mesh_objects input) (pg_material_list pg'))
        as [[Hf Hs]|[Hf (m & E)]].
      * assert (Hn := populate_material_list_Ok_names (mesh_objects input)
                        (pg_material_list pg') Hf).
        destruct (populate_material_list (mesh_objects input) (pg_material_list pg'))
          as [materials r] eqn:E.
        cbn [fst snd] in *. subst r. cbn [fst snd fileselect_added psk_export reports].
        split; [|split; [|split]].
        -- split; reflexivity.
        -- split; [|reflexivity]. intros _. exists input, bone_groups. auto.
        -- intros input' bone_groups' Hi Hb.
           inversion Hi; subst input'. rewrite P in Hb. inversion Hb; subst bone_groups'.
           split; [reflexivity|split].
           ++ intros _. split; [exact Hn|reflexivity].
           ++ intros Hc. contradiction.
        -- intros m Hm. discriminate.
      * rewrite E. cbn [fst snd fileselect_added psk_export reports].
        split; [|split; [|split]].
        -- split; discriminate.
        -- split; [discriminate|].
           intros (input' & bone_groups' & Hi & _ & Hc). inversion Hi; subst. contradiction.
        -- intros input' bone_groups' Hi Hb.
           inversion Hi; subst input'. rewrite P in Hb. inversion Hb; subst bone_groups'.
           split; [reflexivity|split].
           ++ intros Hc. contradiction.
           ++ intros _. split; [reflexivity|split; [reflexivity|eauto]].
        -- intros m' Hm. discriminate.
    + cbn [fst snd fileselect_added].
      split; [|split; [|split]].
      * split; discriminate.
      * split; [discriminate|].
        intros (input' & bone_groups' & Hi & Hb & _). inversion Hi; subst. congruence.
      * intros input' bone_groups' Hi Hb. inversion Hi; subst. congruence.
      * intros m Hm. discriminate.
    + cbn [fst snd fileselect_added].
      split; [|split; [|split]].
      * split; discriminate.
      * split; [discriminate|].
        intros (input' & bone_groups' & Hi & Hb & _). inversion Hi; subst. congruence.
      * intros input' bone_groups' Hi Hb. inversion Hi; subst. congruence.
      * intros m Hm. discriminate.
  - destruct e as [m|m|m|m]; cbn [fst snd fileselect_added];
      (split; [|split; [|split]]);
      try (split; discriminate);
      try (split; [discriminate|intros (input' & bone_groups' & Hi & _); discriminate]);
      try (intros input' bone_groups' Hi; discriminate);
      try (intros m' Hm; inversion Hm; subst; reflexivity);
      try (intros m' Hm; discriminate).
  - cbn [fst snd fileselect_added].
    split; [|split; [|split]].
    + split; discriminate.
    + split; [discriminate|]. intros (input' & bone_groups' & Hi & _). discriminate.
    + intros input' bone_groups' Hi. discriminate.
    + intros m Hm. discriminate.
Qed.

End InvokeFacts.
